(** * RISC-V 64 instruction-set simulator: register file, monitors, helpers

    A shallow embedding of parts of V8's RISC-V simulator
    (simulator-riscv64.cc): the integer and floating-point register
    accessors, the load-linked / store-conditional monitors, the
    division and remainder executors, saturating addition, the
    floating-point min/max helper, two vector instructions and the
    breakpoint list.

    C++ integers are values of [Z] together with their width; every
    conversion that C++ performs implicitly is written out with
    [Int.to_unsigned] and [Int.to_signed]. *)

From Stdlib Require Import ZArith Lia Bool SpecFloat.
From Stdlib.Strings Require Import Byte.
From stdpp Require Import base list.

#[local] Open Scope Z_scope.

(** ** Fixed-width integers *)

Module Int.

(** Conversion to an unsigned type of [w] bits. *)
Definition to_unsigned (w x : Z) : Z := x mod 2 ^ w.

(** Conversion to a signed (two's complement) type of [w] bits. *)
Definition to_signed (w x : Z) : Z :=
  (x + 2 ^ (w - 1)) mod 2 ^ w - 2 ^ (w - 1).

Definition in_unsigned (w x : Z) : Prop := 0 <= x < 2 ^ w.
Definition in_signed (w x : Z) : Prop := - 2 ^ (w - 1) <= x < 2 ^ (w - 1).

Definition type_max (w : Z) : Z := 2 ^ (w - 1) - 1.
Definition type_min (w : Z) : Z := - 2 ^ (w - 1).

Definition INT64_MIN : Z := type_min 64.
Definition UINT64_MAX : Z := 2 ^ 64 - 1.

End Int.


(** ** IEEE-754 bit patterns

  A [float] or [double] is carried as its bit pattern, an unsigned
  integer of the format's width.  Only classification and comparison
  are needed here, no arithmetic. *)

Module IEEE.

Record format := { ebits : Z; mbits : Z }.

Definition binary32 : format := {| ebits := 8; mbits := 23 |}.
Definition binary64 : format := {| ebits := 11; mbits := 52 |}.

Definition width (f : format) : Z := 1 + ebits f + mbits f.

Definition signbit (f : format) (x : Z) : bool :=
  Z.testbit x (ebits f + mbits f).
Definition exponent (f : format) (x : Z) : Z :=
  (x / 2 ^ mbits f) mod 2 ^ ebits f.
Definition mantissa (f : format) (x : Z) : Z := x mod 2 ^ mbits f.

Definition isnan (f : format) (x : Z) : bool :=
  (exponent f x =? 2 ^ ebits f - 1) && negb (mantissa f x =? 0).
Definition isinf (f : format) (x : Z) : bool :=
  (exponent f x =? 2 ^ ebits f - 1) && (mantissa f x =? 0).

(** The most significant mantissa bit tells quiet from signaling. *)
Definition is_quiet_nan (f : format) (x : Z) : bool :=
  isnan f x && Z.testbit x (mbits f - 1).
Definition isSnan (f : format) (x : Z) : bool :=
  isnan f x && negb (Z.testbit x (mbits f - 1)).

(** [std::numeric_limits<T>::quiet_NaN()]: 0x7FC00000, 0x7FF8000000000000. *)
Definition quiet_NaN (f : format) : Z :=
  (2 ^ ebits f - 1) * 2 ^ mbits f + 2 ^ (mbits f - 1).
(** [std::numeric_limits<T>::signaling_NaN()]: 0x7FA00000,
    0x7FF4000000000000. *)
Definition signaling_NaN (f : format) : Z :=
  (2 ^ ebits f - 1) * 2 ^ mbits f + 2 ^ (mbits f - 2).

(** The value a bit pattern stands for.  A subnormal has the least
    exponent and no hidden bit. *)
Definition bias (f : format) : Z := 2 ^ (ebits f - 1) - 1.

Definition to_spec (f : format) (x : Z) : spec_float :=
  let s := signbit f x in
  let e := exponent f x in
  let m := mantissa f x in
  if e =? 2 ^ ebits f - 1 then
    if m =? 0 then S754_infinity s else S754_nan
  else if e =? 0 then
    match m with
    | Zpos p => S754_finite s p (1 - bias f - mbits f)
    | _ => S754_zero s
    end
  else
    match m + 2 ^ mbits f with
    | Zpos p => S754_finite s p (e - bias f - mbits f)
    | _ => S754_nan
    end.

(** The C++ operators [==] and [<] on floating-point values. *)
Definition feq (f : format) (a b : Z) : bool :=
  SFeqb (to_spec f a) (to_spec f b).
Definition flt (f : format) (a b : Z) : bool :=
  SFltb (to_spec f a) (to_spec f b).

(** [fmax] and [fmin] of the C library: a NaN operand loses, otherwise the
    larger (smaller) operand is returned. *)
Definition fmax (f : format) (a b : Z) : Z :=
  if isnan f a then b else if isnan f b then a
  else if flt f a b then b else a.
Definition fmin (f : format) (a b : Z) : Z :=
  if isnan f a then b else if isnan f b then a
  else if flt f b a then b else a.

End IEEE.

(** ** Integer and floating-point register banks *)

Module Registers.

Inductive Endianness : Set := kLittle | kBig.

Record Simulator : Type := {
  registers_ : list Z;      (* int64_t registers_[kNumSimuRegisters] *)
  pc_modified_ : bool;
  FPUregisters_ : list Z    (* int64_t FPUregisters_[kNumFPURegisters] *)
}.

(** Modelled from the spec: [box_float] and [is_boxed_float] are declared
    in the simulator's header.  NaN-boxing encodes a narrow (32-bit) value
    in a 64-bit cell by setting all upper bits; a cell holds a valid narrow
    value when its upper 32 bits are all ones. *)
Definition box_float (v : Z) : Z :=
  Int.to_signed 64 (Z.lor 0xFFFFFFFF00000000 v).
Definition is_boxed_float (v : Z) : bool :=
  Z.shiftr (Int.to_unsigned 64 v) 32 =? 0xFFFFFFFF.

Section Accessors.

(** Constants of the architecture headers: the number of simulated
    integer registers, the index of the program counter among them, the
    offset added when the program counter is read, the number of
    floating-point registers and the byte order of the host. *)
Variables kNumSimuRegisters pc kPCReadOffset kNumFPURegisters : Z.
Variable kArchEndian : Endianness.

(** The arrays have their declared sizes. *)
Definition well_formed (s : Simulator) : Prop :=
  Z.of_nat (length (registers_ s)) = kNumSimuRegisters /\
  Z.of_nat (length (FPUregisters_ s)) = kNumFPURegisters.

Definition valid_reg (reg : Z) : bool :=
  (0 <=? reg) && (reg <? kNumSimuRegisters).
Definition valid_fpureg (fpureg : Z) : bool :=
  (0 <=? fpureg) && (fpureg <? kNumFPURegisters).

(** [None] stands for a failed DCHECK. *)
Definition set_register (s : Simulator) (reg value : Z)
  : option Simulator :=
  if valid_reg reg then
    Some {| registers_ :=
              <[Z.to_nat reg := if reg =? 0 then 0 else value]>
                (registers_ s);
            pc_modified_ :=
              if reg =? pc then true else pc_modified_ s;
            FPUregisters_ := FPUregisters_ s |}
  else None.

Definition get_register (s : Simulator) (reg : Z) : option Z :=
  if valid_reg reg then
    if reg =? 0 then Some 0
    else
      r ← registers_ s !! Z.to_nat reg;
      Some (Int.to_signed 64
              (r + (if reg =? pc then kPCReadOffset else 0)))
  else None.

Definition set_fpu_register (s : Simulator) (fpureg value : Z)
  : option Simulator :=
  if valid_fpureg fpureg then
    Some {| registers_ := registers_ s;
            pc_modified_ := pc_modified_ s;
            FPUregisters_ := <[Z.to_nat fpureg := value]> (FPUregisters_ s) |}
  else None.

Definition get_fpu_register (s : Simulator) (fpureg : Z) : option Z :=
  if valid_fpureg fpureg then FPUregisters_ s !! Z.to_nat fpureg
  else None.

(** [value] is the bit pattern of the float. *)
Definition set_fpu_register_float (s : Simulator) (fpureg value : Z)
  : option Simulator :=
  set_fpu_register s fpureg (box_float value).

(** [value] is the bit pattern of the double; the store goes through a
    [double*] to the cell and so replaces all its 64 bits. *)
Definition set_fpu_register_double (s : Simulator) (fpureg value : Z)
  : option Simulator :=
  set_fpu_register s fpureg (Int.to_signed 64 value).

(** Reading a [float] through a pointer to the cell takes the four bytes
    at the cell's address: the low word on a little-endian host, the
    high word on a big-endian one. *)
Definition float_at_cell (cell : Z) : Z :=
  match kArchEndian with
  | kLittle => Int.to_unsigned 32 cell
  | kBig => Z.shiftr (Int.to_unsigned 64 cell) 32
  end.

Definition get_fpu_register_float (s : Simulator) (fpureg : Z)
  : option Z :=
  cell ← get_fpu_register s fpureg;
  if negb (is_boxed_float cell) then Some (IEEE.quiet_NaN IEEE.binary32)
  else Some (float_at_cell cell).

Definition get_fpu_register_double (s : Simulator) (fpureg : Z)
  : option Z :=
  cell ← get_fpu_register s fpureg;
  Some (Int.to_unsigned 64 cell).

(** A cell is two [int32_t] words in the memory of the host; [kArchEndian]
    is the byte order of the host, so the word at index 0 is the low half on
    a little-endian host and the high half on a big-endian one.
    [store_word_at index cell value] is the cell after [pword[index] = value]. *)
Definition low_word_index : Z :=
  match kArchEndian with
  | kLittle => 0
  | kBig => 1
  end.

Definition store_word_at (index cell value : Z) : Z :=
  let bits := Int.to_unsigned 64 cell in
  let low := bits mod 2 ^ 32 in
  let high := bits / 2 ^ 32 in
  if index =? low_word_index
  then Int.to_signed 64 (high * 2 ^ 32 + Int.to_unsigned 32 value)
  else Int.to_signed 64 (Int.to_unsigned 32 value * 2 ^ 32 + low).

Definition set_fpu_register_word (s : Simulator) (fpureg value : Z)
  : option Simulator :=
  cell ← get_fpu_register s fpureg;
  let index :=
    match kArchEndian with
    | kLittle => 0
    | kBig => 1
    end in
  set_fpu_register s fpureg (store_word_at index cell value).

Definition set_fpu_register_hi_word (s : Simulator) (fpureg value : Z)
  : option Simulator :=
  cell ← get_fpu_register s fpureg;
  let index :=
    match kArchEndian with
    | kLittle => 1
    | kBig => 0
    end in
  set_fpu_register s fpureg (store_word_at index cell value).

Definition get_fpu_register_word (s : Simulator) (fpureg : Z) : option Z :=
  cell ← get_fpu_register s fpureg;
  Some (Int.to_signed 32 (Z.land cell 0xFFFFFFFF)).

Definition get_fpu_register_hi_word (s : Simulator) (fpureg : Z) : option Z :=
  cell ← get_fpu_register s fpureg;
  Some (Int.to_signed 32 (Z.land (Z.shiftr cell 32) 0xFFFFFFFF)).

End Accessors.

(** A register file of the sizes of RISC-V, 33 integer registers (the
    program counter last) and 32 floating-point registers, all zero. *)
Definition fresh : Simulator :=
  {| registers_ := replicate 33 0;
     pc_modified_ := false;
     FPUregisters_ := replicate 32 0 |}.

End Registers.

(** ** Load-linked / store-conditional monitors *)

Module MonitorAccess.
Inductive t : Set := Open | RMW.
End MonitorAccess.

Module TransactionSize.
Inductive t : Set := None | Byte | HalfWord | Word | DoubleWord.
Definition eqb (a b : t) : bool :=
  match a, b with
  | None, None | Byte, Byte | HalfWord, HalfWord
  | Word, Word | DoubleWord, DoubleWord => true
  | _, _ => false
  end.
End TransactionSize.

Module LocalMonitor.

Record t : Set := {
  access_state_ : MonitorAccess.t;
  tagged_addr_ : Z;
  size_ : TransactionSize.t
}.

(** The constructor's state. *)
Definition init : t :=
  {| access_state_ := MonitorAccess.Open;
     tagged_addr_ := 0;
     size_ := TransactionSize.None |}.

Definition Clear (m : t) : t :=
  {| access_state_ := MonitorAccess.Open;
     tagged_addr_ := 0;
     size_ := TransactionSize.None |}.

Definition NotifyLoad (m : t) : t :=
  match access_state_ m with
  | MonitorAccess.RMW => Clear m
  | MonitorAccess.Open => m
  end.

Definition NotifyLoadLinked (m : t) (addr : Z) (size : TransactionSize.t) : t :=
  {| access_state_ := MonitorAccess.RMW; tagged_addr_ := addr; size_ := size |}.

Definition NotifyStore (m : t) : t :=
  match access_state_ m with
  | MonitorAccess.RMW => Clear m
  | MonitorAccess.Open => m
  end.

Definition NotifyStoreConditional (m : t) (addr : Z) (size : TransactionSize.t)
  : t * bool :=
  match access_state_ m with
  | MonitorAccess.RMW =>
      if (addr =? tagged_addr_ m) && TransactionSize.eqb (size_ m) size
      then (Clear m, true)
      else (m, false)
  | MonitorAccess.Open => (m, false)
  end.

End LocalMonitor.

Module LinkedAddress.

(** The [next_] and [prev_] pointers are carried by the list of the global
    monitor. *)
Record t : Set := {
  access_state_ : MonitorAccess.t;
  tagged_addr_ : Z;
  failure_counter_ : Z
}.

Definition init : t :=
  {| access_state_ := MonitorAccess.Open;
     tagged_addr_ := 0;
     failure_counter_ := 0 |}.

Definition Clear_Locked (l : t) : t :=
  {| access_state_ := MonitorAccess.Open;
     tagged_addr_ := 0;
     failure_counter_ := failure_counter_ l |}.

Definition NotifyLoadLinked_Locked (l : t) (addr : Z) : t :=
  {| access_state_ := MonitorAccess.RMW;
     tagged_addr_ := addr;
     failure_counter_ := failure_counter_ l |}.

Definition NotifyStore_Locked (l : t) : t :=
  match access_state_ l with
  | MonitorAccess.RMW => Clear_Locked l
  | MonitorAccess.Open => l
  end.

Section StoreConditional.

(** Constants of the simulator's header: the number of successes after
    which one store-conditional is made to fail, and the mask that widens
    the granule of a reservation seen from another thread. *)
Variables kMaxFailureCounter kExclusiveTaggedAddrMask : Z.

Definition NotifyStoreConditional_Locked
    (l : t) (addr : Z) (is_requesting_thread : bool) : t * bool :=
  match access_state_ l with
  | MonitorAccess.RMW =>
      if is_requesting_thread then
        if addr =? tagged_addr_ l then
          let l1 := Clear_Locked l in
          (* failure_counter_++ >= kMaxFailureCounter *)
          if kMaxFailureCounter <=? failure_counter_ l1 then
            ({| access_state_ := access_state_ l1;
                tagged_addr_ := tagged_addr_ l1;
                failure_counter_ := 0 |}, false)
          else
            ({| access_state_ := access_state_ l1;
                tagged_addr_ := tagged_addr_ l1;
                failure_counter_ :=
                  Int.to_signed 32 (failure_counter_ l1 + 1) |}, true)
        else (l, false)
      else if Z.land addr kExclusiveTaggedAddrMask
              =? Z.land (tagged_addr_ l) kExclusiveTaggedAddrMask then
        (Clear_Locked l, false)
      else (l, false)
  | MonitorAccess.Open => (l, false)
  end.

End StoreConditional.

End LinkedAddress.

Module GlobalMonitor.

(** The [LinkedAddress] object of every simulator, named by a number that
    stands for its address, and the doubly-linked list of the objects that
    are linked in, head first. *)
Record t : Type := {
  objects : nat -> LinkedAddress.t;
  head_ : list nat
}.

Definition init : t :=
  {| objects := fun _ => LinkedAddress.init; head_ := [] |}.

Definition update (g : t) (p : nat) (l : LinkedAddress.t) : t :=
  {| objects := fun q => if Nat.eqb q p then l else objects g q;
     head_ := head_ g |}.

Definition IsProcessorInLinkedList_Locked (g : t) (linked_address : nat) : bool :=
  existsb (Nat.eqb linked_address) (head_ g).

Definition PrependProcessor_Locked (g : t) (linked_address : nat) : t :=
  if IsProcessorInLinkedList_Locked g linked_address then g
  else {| objects := objects g; head_ := linked_address :: head_ g |}.

Definition NotifyLoadLinked_Locked (g : t) (addr : Z) (linked_address : nat) : t :=
  PrependProcessor_Locked
    (update g linked_address
       (LinkedAddress.NotifyLoadLinked_Locked (objects g linked_address) addr))
    linked_address.

(** [for (iter = head_; iter; iter = iter->next_) iter->NotifyStore_Locked()] *)
Definition NotifyStore_Locked (g : t) (linked_address : nat) : t :=
  fold_left
    (fun g' iter => update g' iter (LinkedAddress.NotifyStore_Locked (objects g' iter)))
    (head_ g) g.

Section StoreConditional.

Variables kMaxFailureCounter kExclusiveTaggedAddrMask : Z.

(** [None] stands for the failed DCHECK on a processor that is not linked. *)
Definition NotifyStoreConditional_Locked
    (g : t) (addr : Z) (linked_address : nat) : option (t * bool) :=
  if IsProcessorInLinkedList_Locked g linked_address then
    let '(l, ok) :=
      LinkedAddress.NotifyStoreConditional_Locked
        kMaxFailureCounter kExclusiveTaggedAddrMask
        (objects g linked_address) addr true in
    let g1 := update g linked_address l in
    if ok then
      Some
        (fold_left
           (fun g' iter =>
              if Nat.eqb iter linked_address then g'
              else
                update g' iter
                  (fst (LinkedAddress.NotifyStoreConditional_Locked
                          kMaxFailureCounter kExclusiveTaggedAddrMask
                          (objects g' iter) addr false)))
           (head_ g1) g1,
         true)
    else Some (g1, false)
  else Datatypes.None.

End StoreConditional.

(** [RemoveLinkedAddress] unlinks the one node of the processor.  A node is
    linked at most once, so the list holds no processor twice. *)
Fixpoint unlink (linked_address : nat) (l : list nat) : list nat :=
  match l with
  | [] => []
  | iter :: next_ =>
      if Nat.eqb iter linked_address then next_
      else iter :: unlink linked_address next_
  end.

Definition RemoveLinkedAddress (g : t) (linked_address : nat) : t :=
  if negb (IsProcessorInLinkedList_Locked g linked_address) then g
  else {| objects := objects g; head_ := unlink linked_address (head_ g) |}.

End GlobalMonitor.

(** The atomics of one simulated core: its local monitor, the number of its
    [global_monitor_thread_] object, and the global monitor it shares. *)
Module Atomics.

Record Simulator : Type := {
  local_monitor_ : LocalMonitor.t;
  global_monitor_thread_ : nat;
  global : GlobalMonitor.t
}.

Definition fresh (self : nat) : Simulator :=
  {| local_monitor_ := LocalMonitor.init;
     global_monitor_thread_ := self;
     global := GlobalMonitor.init |}.

(** The monitor traffic of [lr.w] and [lr.d]; the load itself and the
    write of [rd] are left out. *)
Definition load_linked (s : Simulator) (addr : Z) (size : TransactionSize.t)
  : Simulator :=
  {| local_monitor_ := LocalMonitor.NotifyLoadLinked (local_monitor_ s) addr size;
     global_monitor_thread_ := global_monitor_thread_ s;
     global :=
       GlobalMonitor.NotifyLoadLinked_Locked
         (global s) addr (global_monitor_thread_ s) |}.

(** The failure counter of the core's own object. *)
Definition own_counter (s : Simulator) : Z :=
  LinkedAddress.failure_counter_
    (GlobalMonitor.objects (global s) (global_monitor_thread_ s)).

Definition RO_LR_W (s : Simulator) (addr : Z) : Simulator :=
  load_linked s addr TransactionSize.Word.
Definition RO_LR_D (s : Simulator) (addr : Z) : Simulator :=
  load_linked s addr TransactionSize.DoubleWord.

Section StoreConditional.

Variables kMaxFailureCounter kExclusiveTaggedAddrMask : Z.

(** The monitor traffic of [sc.w]: the result is the new state and whether
    the store is performed ([rd] is 0) or not ([rd] is 1).  [&&] consults
    the global monitor only when the local one accepts.  [None] stands for
    a failed DCHECK. *)
Definition RO_SC_W (s : Simulator) (addr : Z) : option (Simulator * bool) :=
  let '(lm, local_ok) :=
    LocalMonitor.NotifyStoreConditional
      (local_monitor_ s) addr TransactionSize.Word in
  if local_ok then
    match GlobalMonitor.NotifyStoreConditional_Locked
            kMaxFailureCounter kExclusiveTaggedAddrMask
            (global s) addr (global_monitor_thread_ s) with
    | Some (g, true) =>
        Some ({| local_monitor_ := LocalMonitor.NotifyStore lm;
                 global_monitor_thread_ := global_monitor_thread_ s;
                 global :=
                   GlobalMonitor.NotifyStore_Locked g (global_monitor_thread_ s) |},
              true)
    | Some (g, false) =>
        Some ({| local_monitor_ := lm;
                 global_monitor_thread_ := global_monitor_thread_ s;
                 global := g |}, false)
    | None => None
    end
  else
    Some ({| local_monitor_ := lm;
             global_monitor_thread_ := global_monitor_thread_ s;
             global := global s |}, false).

(** [sc.d] does not notify the local monitor of the store. *)
Definition RO_SC_D (s : Simulator) (addr : Z) : option (Simulator * bool) :=
  let '(lm, local_ok) :=
    LocalMonitor.NotifyStoreConditional
      (local_monitor_ s) addr TransactionSize.DoubleWord in
  if local_ok then
    match GlobalMonitor.NotifyStoreConditional_Locked
            kMaxFailureCounter kExclusiveTaggedAddrMask
            (global s) addr (global_monitor_thread_ s) with
    | Some (g, true) =>
        Some ({| local_monitor_ := lm;
                 global_monitor_thread_ := global_monitor_thread_ s;
                 global :=
                   GlobalMonitor.NotifyStore_Locked g (global_monitor_thread_ s) |},
              true)
    | Some (g, false) =>
        Some ({| local_monitor_ := lm;
                 global_monitor_thread_ := global_monitor_thread_ s;
                 global := g |}, false)
    | None => None
    end
  else
    Some ({| local_monitor_ := lm;
             global_monitor_thread_ := global_monitor_thread_ s;
             global := global s |}, false).

(** A program fragment: [lr.w] then [sc.w] at the same address, and the
    fragment run [n] times in a row with the outcome of every [sc.w]. *)
Definition lr_sc_w (s : Simulator) (addr : Z) : option (Simulator * bool) :=
  RO_SC_W (RO_LR_W s addr) addr.

Fixpoint lr_sc_w_repeat (n : nat) (s : Simulator) (addr : Z)
  : option (Simulator * list bool) :=
  match n with
  | O => Some (s, [])
  | S n' =>
      match lr_sc_w s addr with
      | Some (s1, ok) =>
          match lr_sc_w_repeat n' s1 addr with
          | Some (s2, oks) => Some (s2, ok :: oks)
          | None => None
          end
      | None => None
      end
  end.

End StoreConditional.

End Atomics.

(** ** Several simulated cores

  Every simulator has a local monitor of its own; the global monitor is one
  object of the process, shared by all of them.  A core is named by the
  number of its [global_monitor_thread_] object. *)

Module Cores.

Record t : Type := {
  local_monitors : nat -> LocalMonitor.t;
  global_monitor : GlobalMonitor.t
}.

Definition init : t :=
  {| local_monitors := fun _ => LocalMonitor.init;
     global_monitor := GlobalMonitor.init |}.

(** The simulator of core [p], as it sees the shared monitor, and the
    machine after that simulator has run an instruction. *)
Definition core (m : t) (p : nat) : Atomics.Simulator :=
  {| Atomics.local_monitor_ := local_monitors m p;
     Atomics.global_monitor_thread_ := p;
     Atomics.global := global_monitor m |}.

Definition commit (m : t) (p : nat) (s : Atomics.Simulator) : t :=
  {| local_monitors :=
       fun q => if Nat.eqb q p then Atomics.local_monitor_ s
                else local_monitors m q;
     global_monitor := Atomics.global s |}.

Definition lr_w (m : t) (p : nat) (addr : Z) : t :=
  commit m p (Atomics.RO_LR_W (core m p) addr).
Definition lr_d (m : t) (p : nat) (addr : Z) : t :=
  commit m p (Atomics.RO_LR_D (core m p) addr).

Section StoreConditional.

Variables kMaxFailureCounter kExclusiveTaggedAddrMask : Z.

Definition sc_w (m : t) (p : nat) (addr : Z) : option (t * bool) :=
  match Atomics.RO_SC_W kMaxFailureCounter kExclusiveTaggedAddrMask
          (core m p) addr with
  | Some (s, ok) => Some (commit m p s, ok)
  | None => None
  end.

Definition sc_d (m : t) (p : nat) (addr : Z) : option (t * bool) :=
  match Atomics.RO_SC_D kMaxFailureCounter kExclusiveTaggedAddrMask
          (core m p) addr with
  | Some (s, ok) => Some (commit m p s, ok)
  | None => None
  end.

End StoreConditional.

(** Core 1 reserves a word at 0x1000, then core 0 reserves a word at
    0x2000. *)
Definition two_reservations : t := lr_w (lr_w init 1 0x1000) 0 0x2000.

End Cores.

(** ** Division and remainder executors *)

Module Alu.

(** Modelled from the spec: [sext_xlen] and [zext_xlen] are macros of the
    simulator's header.  They extend from the register width, and the
    integer registers hold signed 64-bit values, so they are the
    conversions to [sreg_t] and [reg_t]. *)
Definition xlen : Z := 64.
Definition sext_xlen (x : Z) : Z := Int.to_signed xlen x.
Definition zext_xlen (x : Z) : Z := Int.to_unsigned xlen x.

(** The C++ operators [/] and [%]: they truncate towards zero, and are
    undefined ([None]; a trap on the host) for a zero divisor and, on
    signed operands, for [INT64_MIN / -1]. *)
Definition sdiv (lhs rhs : Z) : option Z :=
  if (rhs =? 0) || ((lhs =? Int.INT64_MIN) && (rhs =? -1)) then None
  else Some (Z.quot lhs rhs).
Definition srem (lhs rhs : Z) : option Z :=
  if (rhs =? 0) || ((lhs =? Int.INT64_MIN) && (rhs =? -1)) then None
  else Some (Z.rem lhs rhs).
Definition udiv (lhs rhs : Z) : option Z :=
  if rhs =? 0 then None else Some (Z.quot lhs rhs).
Definition urem (lhs rhs : Z) : option Z :=
  if rhs =? 0 then None else Some (Z.rem lhs rhs).

(** The cases of [DecodeRVRType]: [rs1] and [rs2] are the values of the
    source registers, the result is the [sreg_t] handed to [set_rd]. *)
Definition RO_DIV (rs1 rs2 : Z) : option Z :=
  let lhs := sext_xlen rs1 in
  let rhs := sext_xlen rs2 in
  if rhs =? 0 then Some (-1)
  else if (lhs =? Int.INT64_MIN) && (rhs =? -1) then Some lhs
  else q ← sdiv lhs rhs; Some (sext_xlen q).

Definition RO_DIVU (rs1 rs2 : Z) : option Z :=
  let lhs := zext_xlen rs1 in
  let rhs := zext_xlen rs2 in
  if rhs =? 0 then Some (Int.to_signed 64 Int.UINT64_MAX)
  else q ← udiv lhs rhs; Some (Int.to_signed 64 (zext_xlen q)).

Definition RO_REM (rs1 rs2 : Z) : option Z :=
  let lhs := sext_xlen rs1 in
  let rhs := sext_xlen rs2 in
  if rhs =? 0 then Some lhs
  else if (lhs =? Int.INT64_MIN) && (rhs =? -1) then Some 0
  else r ← srem lhs rhs; Some (sext_xlen r).

Definition RO_REMU (rs1 rs2 : Z) : option Z :=
  let lhs := zext_xlen rs1 in
  let rhs := zext_xlen rs2 in
  if rhs =? 0 then Some (Int.to_signed 64 lhs)
  else r ← urem lhs rhs; Some (Int.to_signed 64 (zext_xlen r)).

(** Modelled from the spec: [sext32] and [zext32] are macros of the
    simulator's header; the width-narrowed ("word") variants sign-extend a
    32-bit result into the full register width, and [zext32] is the cast
    through [uint32_t]. *)
Definition sext32 (x : Z) : Z := Int.to_signed 32 x.
Definition zext32 (x : Z) : Z := Int.to_unsigned 32 x.

Definition INT32_MIN : Z := Int.type_min 32.
Definition UINT32_MAX : Z := 2 ^ 32 - 1.

(** The 32-bit cases of [DecodeRVRType].  The operands of [/] and [%] are
    [sreg_t] or [reg_t] values, so the operators are the 64-bit ones. *)
Definition RO_DIVW (rs1 rs2 : Z) : option Z :=
  let lhs := sext32 rs1 in
  let rhs := sext32 rs2 in
  if rhs =? 0 then Some (-1)
  else if (lhs =? INT32_MIN) && (rhs =? -1) then Some lhs
  else q ← sdiv lhs rhs; Some (sext32 q).

Definition RO_DIVUW (rs1 rs2 : Z) : option Z :=
  let lhs := zext32 rs1 in
  let rhs := zext32 rs2 in
  if rhs =? 0 then Some (Int.to_signed 64 UINT32_MAX)
  else q ← udiv lhs rhs; Some (Int.to_signed 64 (zext32 q)).

Definition RO_REMW (rs1 rs2 : Z) : option Z :=
  let lhs := sext32 rs1 in
  let rhs := sext32 rs2 in
  if rhs =? 0 then Some lhs
  else if (lhs =? INT32_MIN) && (rhs =? -1) then Some 0
  else r ← srem lhs rhs; Some (sext32 r).

Definition RO_REMUW (rs1 rs2 : Z) : option Z :=
  let lhs := zext32 rs1 in
  let rhs := zext32 rs2 in
  if rhs =? 0 then Some (Int.to_signed 64 (zext32 lhs))
  else r ← urem lhs rhs; Some (Int.to_signed 64 (zext32 r)).

(** [HaveSameSign]: the sign of [a ^ b] on [int64_t]. *)
Definition HaveSameSign (a b : Z) : bool :=
  0 <=? Int.to_signed 64 (Z.lxor a b).

(** The shifts of [DecodeRVRType]: the amount is [rs2] masked with
    [xlen - 1]. *)
Definition RO_SLL (rs1 rs2 : Z) : Z :=
  sext_xlen (Z.shiftl rs1 (Z.land rs2 (xlen - 1))).
Definition RO_SRL (rs1 rs2 : Z) : Z :=
  sext_xlen (Z.shiftr (zext_xlen rs1) (Z.land rs2 (xlen - 1))).
Definition RO_SRA (rs1 rs2 : Z) : Z :=
  sext_xlen (Z.shiftr (sext_xlen rs1) (Z.land rs2 (xlen - 1))).

End Alu.

(** ** Saturating addition *)

Module Sat.

(** [sat_add<T, UT>] for a signed type [T] of [w] bits and its unsigned
    counterpart [UT]; the result is the returned value and the flag left in
    [sat]. *)
Definition sat_add (w x y : Z) : Z * bool :=
  let ux := Int.to_unsigned w x in
  let uy := Int.to_unsigned w y in
  let res := Int.to_unsigned w (ux + uy) in
  let sh := w - 1 in
  let ux := Int.to_unsigned w (Z.shiftr ux sh + (Z.shiftl 1 sh - 1)) in
  if 0 <=? Int.to_signed w (Z.lor (Z.lxor ux uy) (Z.lnot (Z.lxor uy res)))
  then (Int.to_signed w ux, true)
  else (Int.to_signed w res, false).

(** [sat_sub<T, UT>], in the same way. *)
Definition sat_sub (w x y : Z) : Z * bool :=
  let ux := Int.to_unsigned w x in
  let uy := Int.to_unsigned w y in
  let res := Int.to_unsigned w (ux - uy) in
  let sh := w - 1 in
  let ux := Int.to_unsigned w (Z.shiftr ux sh + (Z.shiftl 1 sh - 1)) in
  if Int.to_signed w (Z.land (Z.lxor ux uy) (Z.lxor ux res)) <? 0
  then (Int.to_signed w ux, true)
  else (Int.to_signed w res, false).

End Sat.

(** ** Floating-point minimum and maximum *)

Module Fpu.

Inductive MaxMinKind : Set := kMin | kMax.

Inductive ControlStatusReg : Set := csr_fflags | csr_frm | csr_fcsr.

Section Flags.

(** Constants of the architecture header: the position of the rounding
    mode in [FCSR_] and the flag bit of an invalid operation. *)
Variables kFcsrFrmShift kInvalidOperation : Z.

Definition set_csr_bits (FCSR_ : Z) (csr : ControlStatusReg) (val : Z) : Z :=
  let value := Int.to_unsigned 32 val in
  match csr with
  | csr_fflags => Z.lor FCSR_ value
  | csr_frm => Z.lor FCSR_ (Int.to_unsigned 32 (Z.shiftl value kFcsrFrmShift))
  | csr_fcsr => Z.lor FCSR_ value
  end.

(** [FMaxMinHelper<T>] for the format [f] of [T]; the result is the
    returned value and [FCSR_] after the call.  The quiet NaN of [float]
    converts to the quiet NaN of [T]. *)
Definition FMaxMinHelper (f : IEEE.format) (FCSR_ a b : Z) (kind : MaxMinKind)
  : Z * Z :=
  let FCSR_ :=
    if IEEE.feq f a (IEEE.signaling_NaN f) || IEEE.feq f b (IEEE.signaling_NaN f)
    then set_csr_bits FCSR_ csr_fflags kInvalidOperation
    else FCSR_ in
  let result :=
    if IEEE.isnan f a && IEEE.isnan f b then IEEE.quiet_NaN f
    else if IEEE.isnan f a then b
    else if IEEE.isnan f b then a
    else if IEEE.feq f b a then
      match kind with
      | kMax => if IEEE.signbit f b then a else b
      | kMin => if IEEE.signbit f b then b else a
      end
    else
      match kind with
      | kMax => IEEE.fmax f a b
      | kMin => IEEE.fmin f a b
      end in
  (result, FCSR_).

End Flags.

End Fpu.

(** ** Control and status register *)

Module Csr.
Import Fpu.

Section Fields.

(** Constants of the architecture header: the masks of the accrued flags,
    of the rounding mode and of the whole register, and the position of the
    rounding mode. *)
Variables kFcsrFlagsMask kFcsrFrmMask kFcsrFrmShift kFcsrMask : Z.

(** [FCSR_] is a [uint32_t]; the complement of a mask is taken in 32 bits
    and meets [FCSR_] in those bits only. *)
Definition read_csr_value (FCSR_ : Z) (csr : ControlStatusReg) : Z :=
  match csr with
  | csr_fflags => Z.land FCSR_ kFcsrFlagsMask
  | csr_frm => Z.shiftr (Z.land FCSR_ kFcsrFrmMask) kFcsrFrmShift
  | csr_fcsr => Z.land FCSR_ kFcsrMask
  end.

Definition get_dynamic_rounding_mode (FCSR_ : Z) : Z :=
  read_csr_value FCSR_ csr_frm.

Definition write_csr_value (FCSR_ : Z) (csr : ControlStatusReg) (val : Z) : Z :=
  let value := Int.to_unsigned 32 val in
  match csr with
  | csr_fflags => Z.lor (Z.land FCSR_ (Z.lnot kFcsrFlagsMask)) value
  | csr_frm =>
      Z.lor (Z.land FCSR_ (Z.lnot kFcsrFrmMask))
        (Int.to_unsigned 32 (Z.shiftl value kFcsrFrmShift))
  | csr_fcsr => Z.lor (Z.land FCSR_ (Z.lnot kFcsrMask)) value
  end.

Definition clear_csr_bits (FCSR_ : Z) (csr : ControlStatusReg) (val : Z) : Z :=
  let value := Int.to_unsigned 32 val in
  match csr with
  | csr_fflags => Z.land FCSR_ (Z.lnot value)
  | csr_frm =>
      Z.land FCSR_ (Z.lnot (Int.to_unsigned 32 (Z.shiftl value kFcsrFrmShift)))
  | csr_fcsr => Z.land FCSR_ (Z.lnot value)
  end.

Definition test_fflags_bits (FCSR_ : Z) (mask : Z) : bool :=
  negb (Z.land (Z.land FCSR_ kFcsrFlagsMask) mask =? 0).

End Fields.

End Csr.

(** ** Vector registers and two vector instructions *)

Module Rvv.

(** What ends a run: a failed [CHECK] or an [UNREACHABLE]. *)
Inductive Fatal : Set := CHECK_failed | UNREACHABLE.

Inductive result (A : Type) : Type :=
| Ok (a : A)
| Abort (f : Fatal).
Arguments Ok {A} a.
Arguments Abort {A} f.

(** The selected element width, as the header's enumeration has it. *)
Inductive VSew : Set := E8 | E16 | E32 | E64 | E128 | E256 | E512 | E1024.

Definition byte_to_Z (b : byte) : Z := Z.of_N (Byte.to_N b).
Definition byte_of_Z (z : Z) : byte :=
  match Byte.of_N (Z.to_N (z mod 256)) with
  | Some b => b
  | None => x00
  end.

(** Little-endian access to [n] bytes at the byte offset [off]. *)
Fixpoint load_bytes (m : Z -> byte) (off : Z) (n : nat) : Z :=
  match n with
  | O => 0
  | S n' => byte_to_Z (m off) + 256 * load_bytes m (off + 1) n'
  end.

Definition store_bytes (m : Z -> byte) (off : Z) (n : nat) (v : Z) : Z -> byte :=
  fun a =>
    if (off <=? a) && (a <? off + Z.of_nat n)
    then byte_of_Z (v / 256 ^ (a - off))
    else m a.

(** Modelled from the spec: the vector configuration state (active element
    width, active vector length [vl], vector-start index [vstart], maximum
    vector length) is kept behind accessors of the simulator's header
    ([rvv_vsew], [rvv_vl], [rvv_vstart], [rvv_vlmax]).  [Vregister_] holds
    the bytes of the vector register bank by byte offset; the C++ reaches
    them by pointer arithmetic without a bounds check. *)
Record Simulator : Type := {
  Vregister_ : Z -> byte;
  rvv_vsew : VSew;
  rvv_vl : Z;
  rvv_vstart : Z;
  rvv_vlmax : Z
}.

(** The decoded fields of the instruction. *)
Record Instruction : Set := {
  RvvVM : Z;
  rvv_vd_reg : Z;
  rvv_vs1_reg : Z;
  rvv_vs2_reg : Z
}.

Definition set_rvv_vstart (s : Simulator) (v : Z) : Simulator :=
  {| Vregister_ := Vregister_ s;
     rvv_vsew := rvv_vsew s;
     rvv_vl := rvv_vl s;
     rvv_vstart := v;
     rvv_vlmax := rvv_vlmax s |}.

Section Engine.

(** The length of a vector register in bytes ([kRvvVLEN / 8]). *)
Variable rvv_vlenb : Z.

(** Modelled from the spec: [Rvvelt<T>(vReg, n)] is the header's generic
    element accessor; it computes a byte offset from the element index and
    the width of [T], counted from the start of register [vReg]. *)
Definition Rvvelt_offset (size : nat) (vReg n : Z) : Z :=
  vReg * rvv_vlenb + n * Z.of_nat size.

(** Reading [Rvvelt<T>(vReg, n)] for an unsigned [T] of [size] bytes, and
    assigning to the reference it returns. *)
Definition Rvvelt (s : Simulator) (size : nat) (vReg n : Z) : Z :=
  load_bytes (Vregister_ s) (Rvvelt_offset size vReg n) size.

Definition Rvvelt_write (s : Simulator) (size : nat) (vReg n v : Z) : Simulator :=
  {| Vregister_ := store_bytes (Vregister_ s) (Rvvelt_offset size vReg n) size v;
     rvv_vsew := rvv_vsew s;
     rvv_vl := rvv_vl s;
     rvv_vstart := rvv_vstart s;
     rvv_vlmax := rvv_vlmax s |}.

(** [RVV_VI_GENERAL_LOOP_BASE ... RVV_VI_LOOP_END]: the body runs for
    [i = vstart, ..., vl - 1], and every pass ends with [set_rvv_vstart(0)]. *)
Fixpoint loop_from (n : nat) (i : Z) (body : Z -> Simulator -> Simulator)
    (s : Simulator) : Simulator :=
  match n with
  | O => s
  | S n' => loop_from n' (i + 1) body (set_rvv_vstart (body i s) 0)
  end.

Definition RVV_VI_GENERAL_LOOP (body : Z -> Simulator -> Simulator)
    (s : Simulator) : Simulator :=
  loop_from (Z.to_nat (rvv_vl s - rvv_vstart s)) (rvv_vstart s) body s.

(** [VV_WITH_CARRY_PARAMS(x)] and the body given for [vadc.vv]:
    [vd = vs1 + vs2 + (v0 >> mpos) & 0x1], where [+] binds tighter than [&].
    [vs1] and [vs2] are signed elements of [size] bytes, [v0] is a
    [uint64_t], so the sum is taken in [uint64_t]. *)
Definition vadc_element (instr : Instruction) (size : nat) (i : Z)
    (s : Simulator) : Simulator :=
  let midx := Int.to_unsigned 8 (i / 64) in
  let mpos := Int.to_unsigned 8 (i mod 64) in
  let bits := 8 * Z.of_nat size in
  let vs2 := Int.to_signed bits (Rvvelt s size (rvv_vs2_reg instr) i) in
  let vs1 := Int.to_signed bits (Rvvelt s size (rvv_vs1_reg instr) i) in
  let v0 := Rvvelt s 8 0 midx in
  let vd := Z.land (Int.to_unsigned 64 (vs1 + vs2 + Z.shiftr v0 mpos)) 1 in
  Rvvelt_write s size (rvv_vd_reg instr) i vd.

(** The body of [RVV_VI_VV_LOOP_WITH_CARRY]: a width other than 8, 16, 32
    or 64 bits does nothing. *)
Definition vadc_body (instr : Instruction) (i : Z) (s : Simulator) : Simulator :=
  match rvv_vsew s with
  | E8 => vadc_element instr 1 i s
  | E16 => vadc_element instr 2 i s
  | E32 => vadc_element instr 4 i s
  | E64 => vadc_element instr 8 i s
  | _ => s
  end.

(** The case of [vadc.vv] in [DecodeRvvIVV], with the [set_rvv_vstart(0)]
    that the function runs after its switch. *)
Definition RO_V_VADC_VV (instr : Instruction) (s : Simulator)
  : result Simulator :=
  if negb (RvvVM instr =? 0) then
    if rvv_vd_reg instr =? 0 then Abort CHECK_failed
    else Ok (set_rvv_vstart (RVV_VI_GENERAL_LOOP (vadc_body instr) s) 0)
  else Abort UNREACHABLE.

(** One case of the switch of [vrgather.vv], for an unsigned element of
    [size] bytes. *)
Definition vrgather_element (instr : Instruction) (size : nat) (i : Z)
    (s : Simulator) : Simulator :=
  let vs1 := Rvvelt s size (rvv_vs1_reg instr) i in
  Rvvelt_write s size (rvv_vd_reg instr) i
    (if rvv_vlmax s <=? vs1 then 0
     else Rvvelt s size (rvv_vs2_reg instr) vs1).

(** The [default] case treats every other width as 64 bits. *)
Definition vrgather_body (instr : Instruction) (i : Z) (s : Simulator)
  : Simulator :=
  match rvv_vsew s with
  | E8 => vrgather_element instr 1 i s
  | E16 => vrgather_element instr 2 i s
  | E32 => vrgather_element instr 4 i s
  | _ => vrgather_element instr 8 i s
  end.

(** The case of [vrgather.vv] in [DecodeRvvIVV], with the
    [set_rvv_vstart(0)] that the function runs after its switch. *)
Definition RO_V_VRGATHER_VV (instr : Instruction) (s : Simulator)
  : result Simulator :=
  Ok (set_rvv_vstart (RVV_VI_GENERAL_LOOP (vrgather_body instr) s) 0).

(** What [vrgather.vv] is to leave in element [i] of the destination, read
    off the state [s]: element [vs1[i]] of [vs2], or zero when that index is
    not below the maximum vector length. *)
Definition gathered (instr : Instruction) (size : nat) (s : Simulator) (i : Z)
  : Z :=
  let index := Rvvelt s size (rvv_vs1_reg instr) i in
  if rvv_vlmax s <=? index then 0
  else Rvvelt s size (rvv_vs2_reg instr) index.

(** Two ranges of bytes that do not meet. *)
Definition apart (off : Z) (n : nat) (off' : Z) (n' : nat) : Prop :=
  off + Z.of_nat n <= off' \/ off' + Z.of_nat n' <= off.

(** The destination elements of the active range share no byte with the
    elements of the index vector in that range, nor with an element of the
    source vector below the maximum vector length. *)
Definition destination_apart (instr : Instruction) (size : nat) (s : Simulator)
  : Prop :=
  (forall j k,
     rvv_vstart s <= j < rvv_vl s -> rvv_vstart s <= k < rvv_vl s ->
     apart (Rvvelt_offset size (rvv_vd_reg instr) j) size
           (Rvvelt_offset size (rvv_vs1_reg instr) k) size) /\
  (forall j k,
     rvv_vstart s <= j < rvv_vl s -> 0 <= k < rvv_vlmax s ->
     apart (Rvvelt_offset size (rvv_vd_reg instr) j) size
           (Rvvelt_offset size (rvv_vs2_reg instr) k) size).

(** Writing the elements [l] into register [vReg] from element [n] on. *)
Fixpoint fill (size : nat) (vReg n : Z) (l : list Z) (s : Simulator)
  : Simulator :=
  match l with
  | [] => s
  | v :: l' => fill size vReg (n + 1) l' (Rvvelt_write s size vReg n v)
  end.

End Engine.

(** A bank of zero bytes, configured for four 32-bit elements. *)
Definition zero_bank : Simulator :=
  {| Vregister_ := fun _ => x00;
     rvv_vsew := E32;
     rvv_vl := 4;
     rvv_vstart := 0;
     rvv_vlmax := 4 |}.

(** With registers of 16 bytes: [v1 = [1; 2; 3; 4]], [v2 = [10; 20; 30; 40]],
    mask register [v0] all zero; and the instruction [v3 <- op v2, v1],
    unmasked. *)
Definition sample_state : Simulator :=
  fill 16 4 2 0 [10; 20; 30; 40] (fill 16 4 1 0 [1; 2; 3; 4] zero_bank).

Definition sample_instr : Instruction :=
  {| RvvVM := 1; rvv_vd_reg := 3; rvv_vs1_reg := 1; rvv_vs2_reg := 2 |}.

(** The same with the indices [v1 = [3; 0; 7; 1]], one of them out of range. *)
Definition gather_state : Simulator :=
  fill 16 4 2 0 [10; 20; 30; 40] (fill 16 4 1 0 [3; 0; 7; 1] zero_bank).

(** The first four 32-bit elements of a register. *)
Definition elements (s : Simulator) (vReg : Z) : list Z :=
  map (fun n => Rvvelt 16 s 4 vReg (Z.of_nat n)) (seq 0 4).

(** A gather in place: [v1 = [1; 0; 0; 0]], [v2 = [10; 20; 30; 40]], and
    the instruction [v2 <- vrgather v2, v1], whose destination is its
    source. *)
Definition overlap_state : Simulator :=
  fill 16 4 2 0 [10; 20; 30; 40] (fill 16 4 1 0 [1; 0; 0; 0] zero_bank).

Definition overlap_instr : Instruction :=
  {| RvvVM := 1; rvv_vd_reg := 2; rvv_vs1_reg := 1; rvv_vs2_reg := 2 |}.

(** The number of bytes of an element of width [sew], for the widths that
    the instructions above tell apart. *)
Definition sew_bytes (sew : VSew) : nat :=
  match sew with
  | E8 => 1
  | E16 => 2
  | E32 => 4
  | _ => 8
  end.

(** Two states with the same configuration: element width, vector length
    and maximum vector length. *)
Definition same_configuration (s t : Simulator) : Prop :=
  rvv_vsew t = rvv_vsew s /\ rvv_vl t = rvv_vl s /\ rvv_vlmax t = rvv_vlmax s.

End Rvv.

(** ** Floating-point comparisons *)

Module FpuCompare.
Import Fpu.

(** The conditions of a comparison.  [CompareFHelper] tells four of them
    apart; every other member of the header's enumeration reaches the
    default case. *)
Inductive FPUCondition : Set := EQ | NE | LT | GE | LE | GT.

(** The C++ operator [<=] on floating-point values. *)
Definition fle (f : IEEE.format) (a b : Z) : bool :=
  SFleb (IEEE.to_spec f a) (IEEE.to_spec f b).

Section Flags.

Variables kFcsrFrmShift kInvalidOperation : Z.

(** Modelled from the spec: [set_fflags] is declared in the simulator's
    header; the accrued exception flags accumulate, a flag is OR-ed into the
    register. *)
Definition set_fflags (FCSR_ flags : Z) : Z :=
  set_csr_bits kFcsrFrmShift FCSR_ csr_fflags flags.

(** [CompareFHelper<T>] for the format [f] of [T]: the returned truth value
    and [FCSR_] after the call. *)
Definition CompareFHelper (f : IEEE.format) (FCSR_ input1 input2 : Z)
    (cc : FPUCondition) : Rvv.result (bool * Z) :=
  match cc with
  | LT | LE =>
      if IEEE.isnan f input1 || IEEE.isnan f input2 then
        Rvv.Ok (false, set_fflags FCSR_ kInvalidOperation)
      else
        Rvv.Ok (match cc with
                | LT => IEEE.flt f input1 input2
                | _ => fle f input1 input2
                end, FCSR_)
  | EQ =>
      let FCSR_ :=
        if IEEE.feq f (IEEE.signaling_NaN f) input1
           || IEEE.feq f (IEEE.signaling_NaN f) input2
        then set_fflags FCSR_ kInvalidOperation
        else FCSR_ in
      if IEEE.isnan f input1 || IEEE.isnan f input2 then Rvv.Ok (false, FCSR_)
      else Rvv.Ok (IEEE.feq f input1 input2, FCSR_)
  | NE =>
      let FCSR_ :=
        if IEEE.feq f (IEEE.signaling_NaN f) input1
           || IEEE.feq f (IEEE.signaling_NaN f) input2
        then set_fflags FCSR_ kInvalidOperation
        else FCSR_ in
      if IEEE.isnan f input1 || IEEE.isnan f input2 then Rvv.Ok (true, FCSR_)
      else Rvv.Ok (negb (IEEE.feq f input1 input2), FCSR_)
  | _ => Rvv.Abort Rvv.UNREACHABLE
  end.

End Flags.

End FpuCompare.

(** ** Predicates of an invalid floating-point operation *)

Module FpuInvalid.

(** The literals [0.0] and [0] convert to the positive zero of [T], whose
    bit pattern is 0. *)
Definition is_invalid_fmul (f : IEEE.format) (src1 src2 : Z) : bool :=
  (IEEE.isinf f src1 && IEEE.feq f src2 0)
  || (IEEE.feq f src1 0 && IEEE.isinf f src2).

Definition is_invalid_fadd (f : IEEE.format) (src1 src2 : Z) : bool :=
  IEEE.isinf f src1 && IEEE.isinf f src2
  && negb (Bool.eqb (IEEE.signbit f src1) (IEEE.signbit f src2)).

Definition is_invalid_fsub (f : IEEE.format) (src1 src2 : Z) : bool :=
  IEEE.isinf f src1 && IEEE.isinf f src2
  && Bool.eqb (IEEE.signbit f src1) (IEEE.signbit f src2).

Definition is_invalid_fdiv (f : IEEE.format) (src1 src2 : Z) : bool :=
  (IEEE.feq f src1 0 && IEEE.feq f src2 0)
  || (IEEE.isinf f src1 && IEEE.isinf f src2).

Definition is_invalid_fsqrt (f : IEEE.format) (src1 : Z) : bool :=
  IEEE.flt f src1 0.

End FpuInvalid.

(** ** Stop codes *)

Module Stops.

Section Codes.

(** Constants of the headers: the largest code of a watchpoint, the largest
    code of a stop, and the bit of a counter that marks the stop as
    disabled. *)
Variables kMaxWatchpointCode kMaxStopCode kStopDisabledBit : Z.

(** [watched_stops_[code].count] by code; a counter is a [uint32_t].
    [set_count] is an assignment to one of them. *)
Definition set_count (watched_stops_ : Z -> Z) (code count : Z) : Z -> Z :=
  fun c => if c =? code then count else watched_stops_ c.

(** [None] stands for a failed DCHECK. *)
Definition IsEnabledStop (watched_stops_ : Z -> Z) (code : Z) : option bool :=
  if (code <=? kMaxStopCode) && (kMaxWatchpointCode <? code) then
    Some (Z.land (watched_stops_ code) kStopDisabledBit =? 0)
  else None.

Definition EnableStop (watched_stops_ : Z -> Z) (code : Z) : option (Z -> Z) :=
  match IsEnabledStop watched_stops_ code with
  | Some false =>
      Some (set_count watched_stops_ code
              (Z.land (watched_stops_ code)
                 (Int.to_unsigned 32 (Z.lnot kStopDisabledBit))))
  | Some true => Some watched_stops_
  | None => None
  end.

Definition DisableStop (watched_stops_ : Z -> Z) (code : Z) : option (Z -> Z) :=
  match IsEnabledStop watched_stops_ code with
  | Some true =>
      Some (set_count watched_stops_ code
              (Z.lor (watched_stops_ code) kStopDisabledBit))
  | Some false => Some watched_stops_
  | None => None
  end.

(** [~(1 << 31)] is taken in [int] and converted to the type of the
    counter. *)
Definition IncreaseStopCounter (watched_stops_ : Z -> Z) (code : Z)
  : option (Z -> Z) :=
  if code <=? kMaxStopCode then
    if Z.land (watched_stops_ code)
         (Int.to_unsigned 32 (Z.lnot (Int.to_signed 32 (Z.shiftl 1 31))))
       =? 0x7FFFFFFF
    then EnableStop (set_count watched_stops_ code 0) code
    else
      Some (set_count watched_stops_ code
              (Int.to_unsigned 32 (watched_stops_ code + 1)))
  else None.

End Codes.

(** The number of times a stop was met: its counter without bit 31. *)
Definition hits (count : Z) : Z := Z.land count 0x7FFFFFFF.

End Stops.

(** ** The stack of the simulated program *)

Module Stack.
Import Registers.

(** The registers and the memory that the stack pointer points into, by
    byte address. *)
Record Simulator : Type := {
  regs : Registers.Simulator;
  memory : Z -> byte
}.

Section Accessors.

(** Constants of the architecture headers; [sp] is the index of the stack
    pointer. *)
Variables kNumSimuRegisters pc kPCReadOffset sp : Z.

(** [sizeof(uintptr_t)] is 8; the subtraction is made in [uintptr_t] and
    converted to [int64_t].  The result is the new state and the returned
    value; [None] stands for a failed DCHECK of the register accessors. *)
Definition PushAddress (s : Simulator) (address : Z) : option (Simulator * Z) :=
  match get_register kNumSimuRegisters pc kPCReadOffset (regs s) sp with
  | Some r =>
      let new_sp := Int.to_signed 64 (r - 8) in
      let stack_slot := Int.to_unsigned 64 new_sp in
      match set_register kNumSimuRegisters pc (regs s) sp new_sp with
      | Some regs' =>
          Some ({| regs := regs';
                   memory := Rvv.store_bytes (memory s) stack_slot 8 address |},
                Int.to_unsigned 64 new_sp)
      | None => None
      end
  | None => None
  end.

Definition PopAddress (s : Simulator) : option (Simulator * Z) :=
  match get_register kNumSimuRegisters pc kPCReadOffset (regs s) sp with
  | Some current_sp =>
      let stack_slot := Int.to_unsigned 64 current_sp in
      let address := Rvv.load_bytes (memory s) stack_slot 8 in
      match set_register kNumSimuRegisters pc (regs s) sp
              (Int.to_signed 64 (current_sp + 8)) with
      | Some regs' => Some ({| regs := regs'; memory := memory s |}, address)
      | None => None
      end
  | None => None
  end.

End Accessors.

(** The registers of RISC-V with the stack pointer, register 2, at 0x8000,
    over a memory of zero bytes. *)
Definition sample : Simulator :=
  {| regs :=
       {| registers_ := <[2%nat := 0x8000]> (replicate 33 0);
          pc_modified_ := false;
          FPUregisters_ := replicate 32 0 |};
     memory := fun _ => x00 |}.

End Stack.

(** ** Breakpoints *)

Module Debugger.

Record Breakpoint : Set := {
  location : Z;
  enabled : bool;
  is_tbreak : bool
}.

(** The entry that the loops of [SetBreakpoint] and of the debugger stop
    at: the first one at [loc]. *)
Definition find_breakpoint (breakpoints_ : list Breakpoint) (loc : Z)
  : option Breakpoint :=
  find (fun b => location b =? loc) breakpoints_.

(** The loop of [SetBreakpoint]: at the first entry at [loc] it either
    changes the kind or toggles [enabled], and returns; [None] when the loop
    runs to its end. *)
Fixpoint SetBreakpoint_loop (breakpoints_ : list Breakpoint) (loc : Z)
    (tbreak : bool) : option (list Breakpoint) :=
  match breakpoints_ with
  | [] => None
  | b :: rest =>
      if location b =? loc then
        if negb (Bool.eqb (is_tbreak b) tbreak) then
          Some ({| location := location b;
                   enabled := enabled b;
                   is_tbreak := tbreak |} :: rest)
        else
          Some ({| location := location b;
                   enabled := negb (enabled b);
                   is_tbreak := is_tbreak b |} :: rest)
      else
        match SetBreakpoint_loop rest loc tbreak with
        | Some rest' => Some (b :: rest')
        | None => None
        end
  end.

Definition SetBreakpoint (breakpoints_ : list Breakpoint) (loc : Z)
    (tbreak : bool) : list Breakpoint :=
  match SetBreakpoint_loop breakpoints_ loc tbreak with
  | Some breakpoints' => breakpoints'
  | None =>
      breakpoints_ ++ [{| location := loc; enabled := true; is_tbreak := tbreak |}]
  end.

(** [CheckBreakpoints] with the program counter at [pc]: the list after the
    call and [hit_a_breakpoint], on which the debugger is entered. *)
Fixpoint CheckBreakpoints (breakpoints_ : list Breakpoint) (pc : Z)
  : list Breakpoint * bool :=
  match breakpoints_ with
  | [] => ([], false)
  | b :: rest =>
      if (location b =? pc) && enabled b then
        if is_tbreak b then
          ({| location := location b;
              enabled := false;
              is_tbreak := is_tbreak b |} :: rest, true)
        else (b :: rest, true)
      else
        let '(rest', hit) := CheckBreakpoints rest pc in
        (b :: rest', hit)
  end.

(** What [SetBreakpoint] makes of the entry it finds. *)
Definition retagged_or_toggled (b : Breakpoint) (tbreak : bool) : Breakpoint :=
  if negb (Bool.eqb (is_tbreak b) tbreak)
  then {| location := location b; enabled := enabled b; is_tbreak := tbreak |}
  else {| location := location b;
          enabled := negb (enabled b);
          is_tbreak := is_tbreak b |}.

(** The lists that a simulator can hold: the constructor clears the list,
    and only the two functions above change it. *)
Inductive reachable : list Breakpoint -> Prop :=
| reachable_clear : reachable []
| reachable_set (l : list Breakpoint) (loc : Z) (tbreak : bool) :
    reachable l -> reachable (SetBreakpoint l loc tbreak)
| reachable_check (l : list Breakpoint) (pc : Z) :
    reachable l -> reachable (fst (CheckBreakpoints l pc)).

End Debugger.

(* ================================================================== *)
(** * Part II: properties *)
(* ================================================================== *)

(** ** Facts about fixed-width conversions *)

Module IntFacts.
Import Int.

Lemma pow2_split (w : Z) : 0 < w -> 2 ^ w = 2 * 2 ^ (w - 1).
Proof.
  intros Hw. replace w with (Z.succ (w - 1)) at 1 by lia.
  apply Z.pow_succ_r. lia.
Qed.

Lemma pow2_pos (w : Z) : 0 <= w -> 0 < 2 ^ w.
Proof. intros. apply Z.pow_pos_nonneg; lia. Qed.

Lemma to_unsigned_range (w x : Z) : 0 <= w -> in_unsigned w (to_unsigned w x).
Proof.
  intros Hw. unfold in_unsigned, to_unsigned.
  apply Z.mod_pos_bound, pow2_pos, Hw.
Qed.

Lemma to_signed_range (w x : Z) : 0 < w -> in_signed w (to_signed w x).
Proof.
  intros Hw. unfold in_signed, to_signed.
  pose proof (pow2_split w Hw) as Hs.
  pose proof (pow2_pos (w - 1) ltac:(lia)) as Hp.
  pose proof (Z.mod_pos_bound (x + 2 ^ (w - 1)) (2 ^ w) ltac:(lia)).
  lia.
Qed.

Lemma to_signed_id (w x : Z) : 0 < w -> in_signed w x -> to_signed w x = x.
Proof.
  intros Hw [Hlo Hhi]. unfold to_signed.
  pose proof (pow2_split w Hw) as Hs.
  rewrite Z.mod_small by lia. lia.
Qed.

Lemma to_unsigned_id (w x : Z) : in_unsigned w x -> to_unsigned w x = x.
Proof. intros H. unfold to_unsigned. apply Z.mod_small, H. Qed.

(** Reinterpreting a signed value as unsigned: negative values gain [2^w]. *)
Lemma to_unsigned_of_signed (w x : Z) :
  0 < w -> in_signed w x ->
  to_unsigned w x = if x <? 0 then x + 2 ^ w else x.
Proof.
  intros Hw [Hlo Hhi]. unfold to_unsigned.
  pose proof (pow2_split w Hw) as Hs.
  pose proof (pow2_pos (w - 1) ltac:(lia)) as Hp.
  destruct (Z.ltb_spec x 0).
  - symmetry. apply (Z.mod_unique_pos _ _ (-1)); lia.
  - apply Z.mod_small. lia.
Qed.

(** Reinterpreting an unsigned value as signed: the upper half loses [2^w]. *)
Lemma to_signed_of_unsigned (w x : Z) :
  0 < w -> in_unsigned w x ->
  to_signed w x = if x <? 2 ^ (w - 1) then x else x - 2 ^ w.
Proof.
  intros Hw [Hlo Hhi]. unfold to_signed.
  pose proof (pow2_split w Hw) as Hs.
  pose proof (pow2_pos (w - 1) ltac:(lia)) as Hp.
  destruct (Z.ltb_spec x (2 ^ (w - 1))).
  - rewrite Z.mod_small by lia. lia.
  - rewrite <- (Z.mod_unique_pos (x + 2 ^ (w - 1)) (2 ^ w) 1 (x - 2 ^ (w - 1)))
      by lia.
    lia.
Qed.

Lemma signed_unsigned_roundtrip (w x : Z) :
  0 < w -> in_unsigned w x -> to_unsigned w (to_signed w x) = x.
Proof.
  intros Hw Hx.
  pose proof (pow2_split w Hw) as Hs.
  pose proof (pow2_pos (w - 1) ltac:(lia)) as Hp.
  rewrite to_signed_of_unsigned by assumption.
  destruct Hx as [Hlo Hhi].
  destruct (Z.ltb_spec x (2 ^ (w - 1))) as [Hlt | Hge];
    rewrite to_unsigned_of_signed by (unfold in_signed; lia).
  - destruct (Z.ltb_spec x 0); lia.
  - destruct (Z.ltb_spec (x - 2 ^ w) 0); lia.
Qed.

End IntFacts.

(** ** The integer and floating-point register banks *)

Module RegisterFile.
Import Int IntFacts Registers.

Lemma valid_reg_spec (n reg : Z) :
  valid_reg n reg = true <-> 0 <= reg < n.
Proof. unfold valid_reg. rewrite andb_true_iff, Z.leb_le, Z.ltb_lt. tauto. Qed.

Lemma valid_fpureg_spec (n reg : Z) :
  valid_fpureg n reg = true <-> 0 <= reg < n.
Proof. unfold valid_fpureg. rewrite andb_true_iff, Z.leb_le, Z.ltb_lt. tauto. Qed.

Lemma index_in_bounds (l : list Z) (n reg : Z) :
  Z.of_nat (length l) = n -> 0 <= reg < n -> (Z.to_nat reg < length l)%nat.
Proof. lia. Qed.

(** The bits set by boxing lie above the 32 bits of the float. *)
Lemma lor_high_low (hi lo : Z) :
  0 <= lo < 2 ^ 32 -> Z.lor (hi * 2 ^ 32) lo = hi * 2 ^ 32 + lo.
Proof.
  intros Hlo.
  rewrite <- Z.lxor_lor, <- Z.add_nocarry_lxor; [lia | |];
    apply Z.bits_inj'; intros k Hk; rewrite Z.land_spec, Z.bits_0;
    destruct (Z.lt_ge_cases k 32) as [Hlt | Hge].
  - now rewrite Z.mul_pow2_bits_low.
  - rewrite <- (Z.mod_small lo (2 ^ 32)) by exact Hlo.
    rewrite Z.mod_pow2_bits_high by lia. apply andb_false_r.
  - now rewrite Z.mul_pow2_bits_low.
  - rewrite <- (Z.mod_small lo (2 ^ 32)) by exact Hlo.
    rewrite Z.mod_pow2_bits_high by lia. apply andb_false_r.
Qed.

Lemma box_float_value (f : Z) :
  in_unsigned 32 f -> box_float f = f - 2 ^ 32.
Proof.
  intros Hf. unfold in_unsigned in Hf. unfold box_float.
  change 0xFFFFFFFF00000000 with (0xFFFFFFFF * 2 ^ 32).
  rewrite lor_high_low by exact Hf.
  rewrite to_signed_of_unsigned; unfold in_unsigned;
    change (2 ^ 32) with 4294967296 in *;
    change (2 ^ (64 - 1)) with 9223372036854775808;
    change (2 ^ 64) with 18446744073709551616; [| lia | lia].
  destruct (Z.ltb_spec (0xFFFFFFFF * 4294967296 + f) 9223372036854775808); lia.
Qed.

Lemma box_float_is_boxed (f : Z) :
  in_unsigned 32 f -> is_boxed_float (box_float f) = true.
Proof.
  intros Hf. unfold is_boxed_float. rewrite box_float_value by exact Hf.
  unfold in_unsigned in Hf. apply Z.eqb_eq.
  rewrite Z.shiftr_div_pow2 by lia. unfold to_unsigned.
  change (2 ^ 32) with 4294967296 in *.
  change (2 ^ 64) with 18446744073709551616.
  rewrite <- (Z.mod_unique_pos (f - 4294967296) 18446744073709551616 (-1)
                (0xFFFFFFFF * 4294967296 + f)) by lia.
  symmetry. apply (Z.div_unique_pos _ _ _ f); lia.
Qed.

Lemma box_float_low_word (f : Z) :
  in_unsigned 32 f -> to_unsigned 32 (box_float f) = f.
Proof.
  intros Hf. rewrite box_float_value by exact Hf.
  unfold in_unsigned in Hf. unfold to_unsigned.
  symmetry. apply (Z.mod_unique_pos _ _ (-1)); lia.
Qed.

Lemma quiet_NaN_is_quiet :
  IEEE.is_quiet_nan IEEE.binary32 (IEEE.quiet_NaN IEEE.binary32) = true.
Proof. reflexivity. Qed.

Section Accessors.

Variables kNumSimuRegisters pc kPCReadOffset kNumFPURegisters : Z.

#[local] Abbreviation well_formed := (well_formed kNumSimuRegisters kNumFPURegisters).
#[local] Abbreviation set_register := (set_register kNumSimuRegisters pc).
#[local] Abbreviation get_register := (get_register kNumSimuRegisters pc kPCReadOffset).
#[local] Abbreviation set_fpu_register := (set_fpu_register kNumFPURegisters).
#[local] Abbreviation get_fpu_register := (get_fpu_register kNumFPURegisters).

(** What a read returns after a write to the same register, whatever the
    read offset of the program counter is. *)
Lemma get_after_set_register (s : Simulator) (i v : Z) :
  well_formed s -> valid_reg kNumSimuRegisters i = true -> in_signed 64 v ->
  exists s',
    set_register s i v = Some s' /\
    get_register s' i =
      Some (if i =? 0 then 0
            else if i =? pc then to_signed 64 (v + kPCReadOffset) else v).
Proof.
  intros [Hlen _] Hvalid Hv.
  unfold Registers.set_register, Registers.get_register. rewrite Hvalid.
  eexists; split; [reflexivity |]. cbn [registers_].
  apply valid_reg_spec in Hvalid.
  destruct (Z.eqb_spec i 0) as [-> | Hnz]; [reflexivity |].
  rewrite list_lookup_insert_eq by (eapply index_in_bounds; eauto).
  cbn. destruct (Z.eqb_spec i pc); [reflexivity |].
  rewrite Z.add_0_r, to_signed_id; [reflexivity | lia | exact Hv].
Qed.

(** C1. For a valid register index [i] other than 0 and a 64-bit value [v],
    [set_register(i, v)] followed by [get_register(i)] returns [v]; for
    [i = 0] the read returns 0 whatever was written.  The offset that the
    read adds at the index of the program counter is a constant of the
    architecture header, zero on this architecture. *)
Theorem set_get_register (s : Simulator) (i v : Z) :
  well_formed s -> valid_reg kNumSimuRegisters i = true -> in_signed 64 v ->
  (i = pc -> kPCReadOffset = 0) ->
  exists s',
    set_register s i v = Some s' /\
    get_register s' i = Some (if i =? 0 then 0 else v).
Proof.
  intros Hwf Hvalid Hv Hoff.
  destruct (get_after_set_register s i v Hwf Hvalid Hv) as (s' & Hset & Hget).
  exists s'. split; [exact Hset |]. rewrite Hget.
  destruct (Z.eqb_spec i 0); [reflexivity |].
  destruct (Z.eqb_spec i pc) as [Hpc | _]; [| reflexivity].
  rewrite (Hoff Hpc), Z.add_0_r, to_signed_id; [reflexivity | lia | exact Hv].
Qed.

(** C6. A double written with [set_fpu_register_double] is read back
    bit for bit by [get_fpu_register_double]; a float written with
    [set_fpu_register_float] is read back bit for bit by
    [get_fpu_register_float]; and [get_fpu_register_float] on a cell whose
    upper 32 bits are not all ones returns a quiet NaN. *)
Theorem fpu_register_roundtrip (s : Simulator) (r : Z) :
  well_formed s -> valid_fpureg kNumFPURegisters r = true ->
  (forall d, in_unsigned 64 d ->
     exists s',
       set_fpu_register_double kNumFPURegisters s r d = Some s' /\
       get_fpu_register_double kNumFPURegisters s' r = Some d) /\
  (forall f, in_unsigned 32 f ->
     exists s',
       set_fpu_register_float kNumFPURegisters s r f = Some s' /\
       get_fpu_register_float kNumFPURegisters kLittle s' r = Some f) /\
  (forall e cell,
     get_fpu_register s r = Some cell -> is_boxed_float cell = false ->
     get_fpu_register_float kNumFPURegisters e s r
       = Some (IEEE.quiet_NaN IEEE.binary32) /\
     IEEE.is_quiet_nan IEEE.binary32 (IEEE.quiet_NaN IEEE.binary32) = true).
Proof.
  intros [_ Hlen] Hvalid.
  assert (Hidx : (Z.to_nat r < length (FPUregisters_ s))%nat).
  { apply valid_fpureg_spec in Hvalid. eapply index_in_bounds; eauto. }
  repeat split.
  - intros d Hd.
    unfold set_fpu_register_double, get_fpu_register_double,
      Registers.set_fpu_register, Registers.get_fpu_register.
    rewrite Hvalid. eexists; split; [reflexivity |]. cbn [FPUregisters_].
    rewrite list_lookup_insert_eq by exact Hidx. cbn.
    now rewrite signed_unsigned_roundtrip.
  - intros f Hf.
    unfold set_fpu_register_float, get_fpu_register_float,
      Registers.set_fpu_register, Registers.get_fpu_register.
    rewrite Hvalid. eexists; split; [reflexivity |]. cbn [FPUregisters_].
    rewrite list_lookup_insert_eq by exact Hidx. cbn.
    rewrite box_float_is_boxed by exact Hf. cbn.
    now rewrite box_float_low_word.
  - unfold get_fpu_register_float. rewrite H. cbn. now rewrite H0.
Qed.

End Accessors.

Lemma set_get_register_witness :
  (exists s',
     set_register 33 32 fresh 5 42 = Some s' /\
     get_register 33 32 0 s' 5 = Some (if 5 =? 0 then 0 else 42)) /\
  (exists s',
     set_register 33 32 fresh 0 42 = Some s' /\
     get_register 33 32 0 s' 0 = Some (if 0 =? 0 then 0 else 42)) /\
  (exists s',
     set_register 33 32 fresh 32 (-8) = Some s' /\
     get_register 33 32 0 s' 32 = Some (if 32 =? 0 then 0 else -8)).
Proof.
  split; [| split].
  - apply (set_get_register 33 32 0 32 fresh 5 42).
    + split; reflexivity.
    + reflexivity.
    + unfold in_signed. simpl. lia.
    + reflexivity.
  - apply (set_get_register 33 32 0 32 fresh 0 42).
    + split; reflexivity.
    + reflexivity.
    + unfold in_signed. simpl. lia.
    + reflexivity.
  - apply (set_get_register 33 32 0 32 fresh 32 (-8)).
    + split; reflexivity.
    + reflexivity.
    + unfold in_signed. simpl. lia.
    + reflexivity.
Defined.

Lemma fpu_register_roundtrip_witness :
  (exists s',
     set_fpu_register_double 32 fresh 7 0x400921FB54442D18 = Some s' /\
     get_fpu_register_double 32 s' 7 = Some 0x400921FB54442D18) /\
  (exists s',
     set_fpu_register_float 32 fresh 7 0xC0A00000 = Some s' /\
     get_fpu_register_float 32 kLittle s' 7 = Some 0xC0A00000) /\
  get_fpu_register_float 32 kLittle fresh 7
    = Some (IEEE.quiet_NaN IEEE.binary32) /\
  IEEE.is_quiet_nan IEEE.binary32 (IEEE.quiet_NaN IEEE.binary32) = true.
Proof.
  destruct (fpu_register_roundtrip 33 32 fresh 7) as (Hdouble & Hfloat & Hnan).
  - split; reflexivity.
  - reflexivity.
  - split; [| split].
    + apply Hdouble. unfold Int.in_unsigned. simpl. lia.
    + apply Hfloat. unfold Int.in_unsigned. simpl. lia.
    + apply (Hnan kLittle 0); reflexivity.
Defined.

End RegisterFile.

(** ** Load-linked / store-conditional on one core *)

Module AtomicsFacts.
Import Atomics.

Lemma size_eqb_refl (sz : TransactionSize.t) : TransactionSize.eqb sz sz = true.
Proof. now destruct sz. Qed.

Lemma size_eqb_eq (a b : TransactionSize.t) :
  TransactionSize.eqb a b = true <-> a = b.
Proof. destruct a, b; simpl; split; congruence. Qed.

Lemma linked_after_prepend (g : GlobalMonitor.t) (p : nat) :
  GlobalMonitor.IsProcessorInLinkedList_Locked
    (GlobalMonitor.PrependProcessor_Locked g p) p = true.
Proof.
  unfold GlobalMonitor.PrependProcessor_Locked.
  destruct (GlobalMonitor.IsProcessorInLinkedList_Locked g p) eqn:E;
    [exact E |].
  unfold GlobalMonitor.IsProcessorInLinkedList_Locked. simpl.
  now rewrite Nat.eqb_refl.
Qed.

Lemma objects_prepend (g : GlobalMonitor.t) (p q : nat) :
  GlobalMonitor.objects (GlobalMonitor.PrependProcessor_Locked g p) q
  = GlobalMonitor.objects g q.
Proof.
  unfold GlobalMonitor.PrependProcessor_Locked.
  now destruct (GlobalMonitor.IsProcessorInLinkedList_Locked g p).
Qed.

Lemma objects_update_same (g : GlobalMonitor.t) (p : nat) (l : LinkedAddress.t) :
  GlobalMonitor.objects (GlobalMonitor.update g p l) p = l.
Proof. simpl. now rewrite Nat.eqb_refl. Qed.

(** After a load-linked, the core's object in the global monitor holds the
    reservation and keeps its failure counter. *)
Lemma object_after_load_linked (s : Simulator) (addr : Z) (sz : TransactionSize.t) :
  GlobalMonitor.objects (global (load_linked s addr sz)) (global_monitor_thread_ s)
  = LinkedAddress.NotifyLoadLinked_Locked
      (GlobalMonitor.objects (global s) (global_monitor_thread_ s)) addr.
Proof.
  unfold load_linked, GlobalMonitor.NotifyLoadLinked_Locked. cbn [global].
  now rewrite objects_prepend, objects_update_same.
Qed.

Lemma linked_after_load_linked (s : Simulator) (addr : Z) (sz : TransactionSize.t) :
  GlobalMonitor.IsProcessorInLinkedList_Locked
    (global (load_linked s addr sz)) (global_monitor_thread_ s) = true.
Proof. apply linked_after_prepend. Qed.

Section StoreConditional.

Variables kMaxFailureCounter kExclusiveTaggedAddrMask : Z.

#[local] Abbreviation RO_SC_W := (RO_SC_W kMaxFailureCounter kExclusiveTaggedAddrMask).
#[local] Abbreviation RO_SC_D := (RO_SC_D kMaxFailureCounter kExclusiveTaggedAddrMask).

Lemma sc_w_open (s : Simulator) (addr : Z) :
  LocalMonitor.access_state_ (local_monitor_ s) = MonitorAccess.Open ->
  RO_SC_W s addr = Some (s, false).
Proof.
  intros Hopen. unfold Atomics.RO_SC_W, LocalMonitor.NotifyStoreConditional.
  rewrite Hopen. now destruct s.
Qed.

Lemma sc_d_open (s : Simulator) (addr : Z) :
  LocalMonitor.access_state_ (local_monitor_ s) = MonitorAccess.Open ->
  RO_SC_D s addr = Some (s, false).
Proof.
  intros Hopen. unfold Atomics.RO_SC_D, LocalMonitor.NotifyStoreConditional.
  rewrite Hopen. now destruct s.
Qed.

Lemma sc_w_mismatch (s : Simulator) (addr : Z) :
  addr <> LocalMonitor.tagged_addr_ (local_monitor_ s) \/
  LocalMonitor.size_ (local_monitor_ s) <> TransactionSize.Word ->
  RO_SC_W s addr = Some (s, false).
Proof.
  intros Hmis. unfold Atomics.RO_SC_W, LocalMonitor.NotifyStoreConditional.
  destruct (LocalMonitor.access_state_ (local_monitor_ s)); [now destruct s |].
  destruct (Z.eqb_spec addr (LocalMonitor.tagged_addr_ (local_monitor_ s)));
    [| now destruct s].
  destruct (TransactionSize.eqb _ _) eqn:E; [| now destruct s].
  apply size_eqb_eq in E. tauto.
Qed.

Lemma sc_d_mismatch (s : Simulator) (addr : Z) :
  addr <> LocalMonitor.tagged_addr_ (local_monitor_ s) \/
  LocalMonitor.size_ (local_monitor_ s) <> TransactionSize.DoubleWord ->
  RO_SC_D s addr = Some (s, false).
Proof.
  intros Hmis. unfold Atomics.RO_SC_D, LocalMonitor.NotifyStoreConditional.
  destruct (LocalMonitor.access_state_ (local_monitor_ s)); [now destruct s |].
  destruct (Z.eqb_spec addr (LocalMonitor.tagged_addr_ (local_monitor_ s)));
    [| now destruct s].
  destruct (TransactionSize.eqb _ _) eqn:E; [| now destruct s].
  apply size_eqb_eq in E. tauto.
Qed.

(** The store-conditional right after a load-linked of the same address
    and size: the local monitor accepts, and the outcome is decided by the
    failure counter of the global monitor. *)
Lemma sc_w_after_lr_w (s : Simulator) (addr : Z) :
  exists s2,
    RO_SC_W (RO_LR_W s addr) addr
      = Some (s2, own_counter s <? kMaxFailureCounter) /\
    local_monitor_ s2 = LocalMonitor.init.
Proof.
  unfold Atomics.RO_SC_W, RO_LR_W.
  unfold GlobalMonitor.NotifyStoreConditional_Locked.
  change (global_monitor_thread_ (load_linked s addr TransactionSize.Word))
    with (global_monitor_thread_ s).
  rewrite linked_after_load_linked, object_after_load_linked.
  cbn [local_monitor_ load_linked LocalMonitor.NotifyLoadLinked
       LocalMonitor.NotifyStoreConditional LocalMonitor.access_state_
       LocalMonitor.tagged_addr_ LocalMonitor.size_].
  rewrite Z.eqb_refl. cbn [andb TransactionSize.eqb].
  unfold LinkedAddress.NotifyStoreConditional_Locked.
  cbn [LinkedAddress.NotifyLoadLinked_Locked LinkedAddress.access_state_
       LinkedAddress.tagged_addr_ LinkedAddress.failure_counter_
       LinkedAddress.Clear_Locked].
  rewrite Z.eqb_refl. fold (own_counter s).
  rewrite (Z.ltb_antisym kMaxFailureCounter (own_counter s)).
  destruct (kMaxFailureCounter <=? own_counter s); cbn [negb];
    eexists; split; reflexivity.
Qed.

Lemma sc_d_after_lr_d (s : Simulator) (addr : Z) :
  exists s2,
    RO_SC_D (RO_LR_D s addr) addr
      = Some (s2, own_counter s <? kMaxFailureCounter) /\
    local_monitor_ s2 = LocalMonitor.init.
Proof.
  unfold Atomics.RO_SC_D, RO_LR_D.
  unfold GlobalMonitor.NotifyStoreConditional_Locked.
  change (global_monitor_thread_ (load_linked s addr TransactionSize.DoubleWord))
    with (global_monitor_thread_ s).
  rewrite linked_after_load_linked, object_after_load_linked.
  cbn [local_monitor_ load_linked LocalMonitor.NotifyLoadLinked
       LocalMonitor.NotifyStoreConditional LocalMonitor.access_state_
       LocalMonitor.tagged_addr_ LocalMonitor.size_].
  rewrite Z.eqb_refl. cbn [andb TransactionSize.eqb].
  unfold LinkedAddress.NotifyStoreConditional_Locked.
  cbn [LinkedAddress.NotifyLoadLinked_Locked LinkedAddress.access_state_
       LinkedAddress.tagged_addr_ LinkedAddress.failure_counter_
       LinkedAddress.Clear_Locked].
  rewrite Z.eqb_refl. fold (own_counter s).
  rewrite (Z.ltb_antisym kMaxFailureCounter (own_counter s)).
  destruct (kMaxFailureCounter <=? own_counter s); cbn [negb];
    eexists; split; reflexivity.
Qed.

(** The folds over the list of linked processors never touch a failure
    counter. *)
Lemma notify_store_counter (l : list nat) (g : GlobalMonitor.t) (p : nat) :
  LinkedAddress.failure_counter_
    (GlobalMonitor.objects
       (fold_left
          (fun g' iter =>
             GlobalMonitor.update g' iter
               (LinkedAddress.NotifyStore_Locked (GlobalMonitor.objects g' iter)))
          l g) p)
  = LinkedAddress.failure_counter_ (GlobalMonitor.objects g p).
Proof.
  revert g. induction l as [| a l IH]; intros g; [reflexivity |].
  cbn [fold_left]. rewrite IH. cbn [GlobalMonitor.objects GlobalMonitor.update].
  destruct (Nat.eqb_spec p a) as [-> | _]; [| reflexivity].
  unfold LinkedAddress.NotifyStore_Locked.
  now destruct (LinkedAddress.access_state_ (GlobalMonitor.objects g a)).
Qed.

Lemma notify_others_object (l : list nat) (g : GlobalMonitor.t) (p : nat)
    (addr : Z) :
  GlobalMonitor.objects
    (fold_left
       (fun g' iter =>
          if Nat.eqb iter p then g'
          else
            GlobalMonitor.update g' iter
              (fst (LinkedAddress.NotifyStoreConditional_Locked
                      kMaxFailureCounter kExclusiveTaggedAddrMask
                      (GlobalMonitor.objects g' iter) addr false)))
       l g) p
  = GlobalMonitor.objects g p.
Proof.
  revert g. induction l as [| a l IH]; intros g; [reflexivity |].
  cbn [fold_left]. rewrite IH.
  destruct (Nat.eqb_spec a p) as [-> | Hne]; [reflexivity |].
  cbn [GlobalMonitor.objects GlobalMonitor.update].
  destruct (Nat.eqb_spec p a); [congruence | reflexivity].
Qed.

(** One [lr.w]/[sc.w] pair: the outcome, and the failure counter after it. *)
Lemma lr_sc_w_step (s : Simulator) (addr : Z) :
  exists s2,
    lr_sc_w kMaxFailureCounter kExclusiveTaggedAddrMask s addr
      = Some (s2, own_counter s <? kMaxFailureCounter) /\
    global_monitor_thread_ s2 = global_monitor_thread_ s /\
    own_counter s2 =
      (if own_counter s <? kMaxFailureCounter
       then Int.to_signed 32 (own_counter s + 1) else 0).
Proof.
  unfold lr_sc_w, Atomics.RO_SC_W, RO_LR_W.
  unfold GlobalMonitor.NotifyStoreConditional_Locked.
  change (global_monitor_thread_ (load_linked s addr TransactionSize.Word))
    with (global_monitor_thread_ s).
  rewrite linked_after_load_linked, object_after_load_linked.
  cbn [local_monitor_ load_linked LocalMonitor.NotifyLoadLinked
       LocalMonitor.NotifyStoreConditional LocalMonitor.access_state_
       LocalMonitor.tagged_addr_ LocalMonitor.size_].
  rewrite Z.eqb_refl. cbn [andb TransactionSize.eqb].
  unfold LinkedAddress.NotifyStoreConditional_Locked.
  cbn [LinkedAddress.NotifyLoadLinked_Locked LinkedAddress.access_state_
       LinkedAddress.tagged_addr_ LinkedAddress.failure_counter_
       LinkedAddress.Clear_Locked].
  rewrite Z.eqb_refl. fold (own_counter s).
  rewrite (Z.ltb_antisym kMaxFailureCounter (own_counter s)).
  destruct (kMaxFailureCounter <=? own_counter s); cbn [negb];
    eexists; (split; [reflexivity |]); (split; [reflexivity |]).
  - unfold own_counter. cbn [global global_monitor_thread_].
    now rewrite objects_update_same.
  - unfold own_counter, GlobalMonitor.NotifyStore_Locked.
    cbn [global global_monitor_thread_].
    rewrite notify_store_counter.
    etransitivity;
      [apply f_equal;
       apply (notify_others_object _ _ (global_monitor_thread_ s) addr) |].
    now rewrite objects_update_same.
Qed.

(** From a counter at [c], the next [kMaxFailureCounter - c] pairs all
    succeed and leave the counter at [kMaxFailureCounter]. *)
Lemma lr_sc_w_repeat_succeeds (n : nat) (s : Simulator) (addr : Z) :
  0 <= own_counter s ->
  own_counter s + Z.of_nat n = kMaxFailureCounter ->
  kMaxFailureCounter < 2 ^ 31 ->
  exists s',
    lr_sc_w_repeat kMaxFailureCounter kExclusiveTaggedAddrMask n s addr
      = Some (s', replicate n true) /\
    own_counter s' = kMaxFailureCounter.
Proof.
  revert s. induction n as [| n IH]; intros s Hc Hsum Hmax.
  - exists s. split; [reflexivity | lia].
  - cbn [lr_sc_w_repeat].
    destruct (lr_sc_w_step s addr) as (s1 & -> & _ & Hc1).
    assert (Hlt : (own_counter s <? kMaxFailureCounter) = true)
      by (apply Z.ltb_lt; lia).
    rewrite Hlt in Hc1 |- *.
    rewrite IntFacts.to_signed_id in Hc1
      by (unfold Int.in_signed; change (2 ^ (32 - 1)) with (2 ^ 31); lia).
    destruct (IH s1) as (s' & -> & Hc'); [lia | lia | exact Hmax |].
    exists s'. split; [reflexivity | exact Hc'].
Qed.

(** C2, as the code has it.  With the local monitor [Open] (no load-linked
    before), a store-conditional fails and changes nothing.  A
    store-conditional right after a load-linked of the same address and size
    is accepted by the local monitor, which goes back to [Open]; it succeeds
    exactly when the failure counter of the core's object in the global
    monitor is below [kMaxFailureCounter], and otherwise fails by the
    injected failure.  Either way a second store-conditional without a new
    load-linked fails.  A store-conditional whose address or size differs
    from the reservation fails and changes nothing. *)
Theorem store_conditional_single_core (s : Simulator) (addr : Z) :
  (LocalMonitor.access_state_ (local_monitor_ s) = MonitorAccess.Open ->
   RO_SC_W s addr = Some (s, false) /\ RO_SC_D s addr = Some (s, false)) /\
  (exists s2,
     RO_SC_W (RO_LR_W s addr) addr
       = Some (s2, own_counter s <? kMaxFailureCounter) /\
     LocalMonitor.access_state_ (local_monitor_ s2) = MonitorAccess.Open /\
     forall addr', RO_SC_W s2 addr' = Some (s2, false)) /\
  (exists s2,
     RO_SC_D (RO_LR_D s addr) addr
       = Some (s2, own_counter s <? kMaxFailureCounter) /\
     LocalMonitor.access_state_ (local_monitor_ s2) = MonitorAccess.Open /\
     forall addr', RO_SC_D s2 addr' = Some (s2, false)) /\
  (addr <> LocalMonitor.tagged_addr_ (local_monitor_ s) \/
   LocalMonitor.size_ (local_monitor_ s) <> TransactionSize.Word ->
   RO_SC_W s addr = Some (s, false)) /\
  (addr <> LocalMonitor.tagged_addr_ (local_monitor_ s) \/
   LocalMonitor.size_ (local_monitor_ s) <> TransactionSize.DoubleWord ->
   RO_SC_D s addr = Some (s, false)).
Proof.
  split; [| split; [| split; [| split]]].
  - intros Hopen. split; [now apply sc_w_open | now apply sc_d_open].
  - destruct (sc_w_after_lr_w s addr) as (s2 & Hsc & Hlm).
    exists s2. split; [exact Hsc |].
    assert (Hopen : LocalMonitor.access_state_ (local_monitor_ s2)
                    = MonitorAccess.Open) by now rewrite Hlm.
    split; [exact Hopen |]. intros addr'. now apply sc_w_open.
  - destruct (sc_d_after_lr_d s addr) as (s2 & Hsc & Hlm).
    exists s2. split; [exact Hsc |].
    assert (Hopen : LocalMonitor.access_state_ (local_monitor_ s2)
                    = MonitorAccess.Open) by now rewrite Hlm.
    split; [exact Hopen |]. intros addr'. now apply sc_d_open.
  - apply sc_w_mismatch.
  - apply sc_d_mismatch.
Qed.

End StoreConditional.

(** A store-conditional right after a load-linked of the same address and
    size does not always succeed.  With a threshold of 5 the sixth pair in a
    row fails; and for every threshold [K], after [K] pairs that succeed the
    next one fails. *)
Lemma sc_after_lr_fails_by_injection :
  snd <$> lr_sc_w_repeat 5 (-8) 6 (fresh 0) 4096
    = Some [true; true; true; true; true; false] /\
  (forall K M s addr,
     0 <= K < 2 ^ 31 -> own_counter s = 0 ->
     exists s' s'',
       lr_sc_w_repeat K M (Z.to_nat K) s addr
         = Some (s', replicate (Z.to_nat K) true) /\
       lr_sc_w K M s' addr = Some (s'', false)).
Proof.
  split; [vm_compute; reflexivity |].
  intros K M s addr HK Hc.
  destruct (lr_sc_w_repeat_succeeds K M (Z.to_nat K) s addr)
    as (s' & Hrun & Hc'); [lia | lia | lia |].
  destruct (lr_sc_w_step K M s' addr) as (s'' & Hstep & _).
  exists s', s''. split; [exact Hrun |].
  rewrite Hstep, Hc', Z.ltb_irrefl. reflexivity.
Qed.

End AtomicsFacts.

(** ** Division and remainder *)

Module AluFacts.
Import Int IntFacts Alu.

Lemma signed_of_unsigned_of_signed (x : Z) :
  in_signed 64 x -> to_signed 64 (to_unsigned 64 x) = x.
Proof.
  intros Hx. rewrite to_unsigned_of_signed by (lia || exact Hx).
  unfold in_signed in Hx. change (2 ^ (64 - 1)) with (2 ^ 63) in Hx.
  rewrite to_signed_of_unsigned.
  - change (2 ^ (64 - 1)) with (2 ^ 63).
    destruct (Z.ltb_spec x 0);
      [destruct (Z.ltb_spec (x + 2 ^ 64) (2 ^ 63))
      | destruct (Z.ltb_spec x (2 ^ 63))]; lia.
  - lia.
  - unfold in_unsigned. destruct (Z.ltb_spec x 0); lia.
Qed.

Lemma sext_xlen_id (x : Z) : in_signed 64 x -> sext_xlen x = x.
Proof. intros Hx. apply to_signed_id; [reflexivity | exact Hx]. Qed.

(** No case of the four executors reaches an undefined division. *)
Lemma division_total (x y : Z) :
  is_Some (RO_DIV x y) /\ is_Some (RO_DIVU x y) /\
  is_Some (RO_REM x y) /\ is_Some (RO_REMU x y).
Proof.
  unfold RO_DIV, RO_DIVU, RO_REM, RO_REMU, sdiv, srem, udiv, urem.
  repeat split.
  - destruct (sext_xlen y =? 0) eqn:E0; [eauto |].
    destruct ((sext_xlen x =? INT64_MIN) && (sext_xlen y =? -1)) eqn:E1;
      [eauto |].
    cbn. eauto.
  - destruct (zext_xlen y =? 0) eqn:E0; [eauto |]. cbn. eauto.
  - destruct (sext_xlen y =? 0) eqn:E0; [eauto |].
    destruct ((sext_xlen x =? INT64_MIN) && (sext_xlen y =? -1)) eqn:E1;
      [eauto |].
    cbn. eauto.
  - destruct (zext_xlen y =? 0) eqn:E0; [eauto |]. cbn. eauto.
Qed.

(** C3. For every 64-bit operand [x]: signed [x / 0] is -1, unsigned
    [x / 0] is all ones, signed and unsigned [x % 0] are [x],
    [INT64_MIN / -1] is [INT64_MIN] and [INT64_MIN % -1] is 0; each case
    returns a value, none reaches an undefined division. *)
Theorem division_by_zero_and_overflow (x : Z) :
  in_signed 64 x ->
  RO_DIV x 0 = Some (-1) /\
  (exists r, RO_DIVU x 0 = Some r /\ to_unsigned 64 r = UINT64_MAX) /\
  RO_REM x 0 = Some x /\
  RO_REMU x 0 = Some x /\
  RO_DIV INT64_MIN (-1) = Some INT64_MIN /\
  RO_REM INT64_MIN (-1) = Some 0.
Proof.
  intros Hx. repeat split.
  - exists (-1). split; reflexivity.
  - unfold RO_REM. cbn [Z.eqb sext_xlen]. change (to_signed xlen 0 =? 0) with true.
    cbn iota. now rewrite (sext_xlen_id x Hx).
  - unfold RO_REMU. change (zext_xlen 0 =? 0) with true. cbn iota.
    f_equal. now apply signed_of_unsigned_of_signed.
Qed.

Lemma division_by_zero_and_overflow_witness :
  RO_DIV 42 0 = Some (-1) /\
  (exists r, RO_DIVU 42 0 = Some r /\ to_unsigned 64 r = UINT64_MAX) /\
  RO_REM 42 0 = Some 42 /\
  RO_REMU 42 0 = Some 42 /\
  RO_DIV INT64_MIN (-1) = Some INT64_MIN /\
  RO_REM INT64_MIN (-1) = Some 0.
Proof.
  apply (division_by_zero_and_overflow 42).
  unfold in_signed. simpl. lia.
Defined.

End AluFacts.

(** ** Saturating addition *)

Module SatFacts.
Import Int IntFacts Sat.

(** The top bit of an unsigned value of [w] bits. *)
Lemma msb_unsigned (w u : Z) :
  0 < w -> in_unsigned w u -> Z.testbit u (w - 1) = (2 ^ (w - 1) <=? u).
Proof.
  intros Hw [Hlo Hhi].
  pose proof (pow2_split w Hw) as Hs.
  pose proof (pow2_pos (w - 1) ltac:(lia)) as Hp.
  rewrite Z.testbit_odd, Z.shiftr_div_pow2 by lia.
  destruct (Z.leb_spec (2 ^ (w - 1)) u).
  - replace (u / 2 ^ (w - 1)) with 1; [reflexivity |].
    apply (Z.div_unique_pos u (2 ^ (w - 1)) 1 (u - 2 ^ (w - 1))); lia.
  - rewrite Z.div_small by lia. reflexivity.
Qed.

Lemma to_signed_mod (w v : Z) :
  0 < w -> to_signed w (v mod 2 ^ w) = to_signed w v.
Proof.
  intros Hw. unfold to_signed. now rewrite Zplus_mod_idemp_l.
Qed.

(** A conversion to the signed type is non-negative exactly when the top
    bit is clear. *)
Lemma sign_test (w v : Z) :
  0 < w -> (0 <=? to_signed w v) = negb (Z.testbit v (w - 1)).
Proof.
  intros Hw.
  pose proof (pow2_split w Hw) as Hs.
  pose proof (pow2_pos (w - 1) ltac:(lia)) as Hp.
  rewrite <- to_signed_mod by exact Hw.
  rewrite <- (Z.mod_pow2_bits_low v w (w - 1)) by lia.
  pose proof (Z.mod_pos_bound v (2 ^ w) ltac:(lia)) as Hu.
  set (u := v mod 2 ^ w) in *.
  rewrite msb_unsigned by (try exact Hw; exact Hu).
  rewrite to_signed_of_unsigned by (try exact Hw; exact Hu).
  destruct (Z.ltb_spec u (2 ^ (w - 1))); destruct (Z.leb_spec (2 ^ (w - 1)) u);
    lia.
Qed.

(** The value loaded into [ux] before the test: the bound on the side of
    the sign of [x]. *)
Lemma overflowed_result (w x : Z) :
  0 < w -> in_signed w x ->
  to_unsigned w (Z.shiftr (to_unsigned w x) (w - 1) + (Z.shiftl 1 (w - 1) - 1))
  = if x <? 0 then 2 ^ (w - 1) else 2 ^ (w - 1) - 1.
Proof.
  intros Hw Hx.
  pose proof (pow2_split w Hw) as Hs.
  pose proof (pow2_pos (w - 1) ltac:(lia)) as Hp.
  rewrite (to_unsigned_of_signed w x) by assumption.
  rewrite Z.shiftr_div_pow2, Z.shiftl_1_l by lia.
  destruct Hx as [Hlo Hhi].
  destruct (Z.ltb_spec x 0).
  - replace ((x + 2 ^ w) / 2 ^ (w - 1)) with 1.
    + rewrite to_unsigned_id by (unfold in_unsigned; lia). lia.
    + apply (Z.div_unique_pos _ _ 1 (x + 2 ^ (w - 1))); lia.
  - rewrite Z.div_small by lia.
    rewrite to_unsigned_id by (unfold in_unsigned; lia). lia.
Qed.

(** [sat_add] at any positive width. *)
Lemma sat_add_spec (w x y : Z) :
  0 < w -> in_signed w x -> in_signed w y ->
  sat_add w x y =
    if type_max w <? x + y then (type_max w, true)
    else if x + y <? type_min w then (type_min w, true)
    else (x + y, false).
Proof.
  intros Hw Hx Hy.
  pose proof (pow2_split w Hw) as Hs.
  pose proof (pow2_pos (w - 1) ltac:(lia)) as Hp.
  unfold sat_add. rewrite sign_test by exact Hw.
  rewrite Z.lor_spec, Z.lnot_spec, !Z.lxor_spec by lia.
  rewrite overflowed_result by assumption.
  pose proof (to_unsigned_range w (to_unsigned w x + to_unsigned w y)
                ltac:(lia)) as Hres.
  rewrite (msb_unsigned w (to_unsigned w y))
    by (try exact Hw; apply to_unsigned_range; lia).
  rewrite (msb_unsigned w (to_unsigned w (_ + _))) by (try exact Hw; exact Hres).
  rewrite (to_signed_of_unsigned w (to_unsigned w (_ + _)))
    by (try exact Hw; exact Hres).
  assert (Hsum : to_unsigned w (to_unsigned w x + to_unsigned w y)
                 = to_unsigned w (x + y)).
  { unfold to_unsigned. now rewrite <- Zplus_mod. }
  rewrite Hsum in *. clear Hsum.
  rewrite (to_unsigned_of_signed w y) by assumption.
  unfold in_signed, type_max, type_min in *.
  destruct Hx as [Hxl Hxh], Hy as [Hyl Hyh].
  assert (Hcases :
    to_unsigned w (x + y) = x + y + 2 ^ w /\ x + y < 0 \/
    to_unsigned w (x + y) = x + y /\ 0 <= x + y < 2 ^ w \/
    False).
  { unfold to_unsigned. destruct (Z.ltb_spec (x + y) 0).
    - left. split; [| lia]. symmetry.
      apply (Z.mod_unique_pos _ _ (-1)); lia.
    - right. left. split; [| lia]. apply Z.mod_small. lia. }
  destruct (Z.ltb_spec x 0), (Z.ltb_spec y 0);
    destruct Hcases as [[-> Hc] | [[-> Hc] | []]]; try lia;
    rewrite ?msb_unsigned by (unfold in_unsigned; lia);
    rewrite ?to_signed_of_unsigned by (unfold in_unsigned; lia);
    repeat match goal with
      | |- context [Z.leb ?a ?b] => destruct (Z.leb_spec a b)
      | |- context [Z.ltb ?a ?b] => destruct (Z.ltb_spec a b)
      end; cbn [xorb negb orb]; try lia; f_equal; lia.
Qed.

(** C4. For a signed type of 8, 16, 32 or 64 bits, [sat_add(x, y)] stays
    within [typeMin, typeMax]; the saturation flag is set exactly when the
    mathematical sum leaves that range, and then the result is the bound on
    the side of the overflow. *)
Theorem sat_add_saturates (w x y : Z) :
  w = 8 \/ w = 16 \/ w = 32 \/ w = 64 ->
  in_signed w x -> in_signed w y ->
  type_min w <= fst (sat_add w x y) <= type_max w /\
  (snd (sat_add w x y) = true <->
     x + y < type_min w \/ type_max w < x + y) /\
  (type_max w < x + y -> fst (sat_add w x y) = type_max w) /\
  (x + y < type_min w -> fst (sat_add w x y) = type_min w) /\
  (type_min w <= x + y <= type_max w -> fst (sat_add w x y) = x + y).
Proof.
  intros Hw Hx Hy.
  assert (0 < w) as Hpos by lia.
  rewrite sat_add_spec by assumption.
  pose proof (pow2_pos (w - 1) ltac:(lia)) as Hp.
  unfold type_max, type_min, in_signed in *.
  destruct (Z.ltb_spec (2 ^ (w - 1) - 1) (x + y));
    [| destruct (Z.ltb_spec (x + y) (- 2 ^ (w - 1)))];
    cbn [fst snd]; repeat split; intros; try lia; try discriminate.
Qed.

Lemma sat_add_saturates_witness :
  type_min 8 <= fst (sat_add 8 100 100) <= type_max 8 /\
  (snd (sat_add 8 100 100) = true <->
     100 + 100 < type_min 8 \/ type_max 8 < 100 + 100) /\
  (type_max 8 < 100 + 100 -> fst (sat_add 8 100 100) = type_max 8) /\
  (100 + 100 < type_min 8 -> fst (sat_add 8 100 100) = type_min 8) /\
  (type_min 8 <= 100 + 100 <= type_max 8 -> fst (sat_add 8 100 100) = 100 + 100).
Proof.
  apply (sat_add_saturates 8 100 100).
  - left. reflexivity.
  - unfold in_signed. simpl. lia.
  - unfold in_signed. simpl. lia.
Defined.

End SatFacts.

(** ** Floating-point minimum and maximum *)

Module FpuFacts.
Import Fpu.

(** [==] against a NaN is false, also against the signaling NaN itself. *)
Lemma feq_nan_r (f : IEEE.format) (a n : Z) :
  IEEE.to_spec f n = S754_nan -> IEEE.feq f a n = false.
Proof.
  intros Hn. unfold IEEE.feq, SFeqb. rewrite Hn.
  now destruct (IEEE.to_spec f a).
Qed.

Lemma feq_signaling_NaN (f : IEEE.format) (a : Z) :
  f = IEEE.binary32 \/ f = IEEE.binary64 ->
  IEEE.feq f a (IEEE.signaling_NaN f) = false.
Proof. intros [-> | ->]; now apply feq_nan_r. Qed.

Section Flags.

Variables kFcsrFrmShift kInvalidOperation : Z.

#[local] Abbreviation FMaxMinHelper :=
  (FMaxMinHelper kFcsrFrmShift kInvalidOperation).

(** The test for a signaling NaN compares with [==], so it never holds and
    the helper leaves [FCSR_] as it was. *)
Lemma FMaxMinHelper_keeps_FCSR (f : IEEE.format) (FCSR_ a b : Z) (kind : MaxMinKind) :
  f = IEEE.binary32 \/ f = IEEE.binary64 ->
  snd (FMaxMinHelper f FCSR_ a b kind) = FCSR_.
Proof.
  intros Hf. unfold Fpu.FMaxMinHelper. cbn [snd].
  now rewrite !feq_signaling_NaN by exact Hf.
Qed.

(** C5, as the code has it.  When exactly one operand of [FMaxMinHelper]
    is a NaN, quiet or signaling, the other operand is returned; the result
    is the quiet NaN only when both operands are NaN.  So
    [max(signalingNaN, 5.0)] returns 5.0. *)
Theorem FMaxMinHelper_nan_operands
    (f : IEEE.format) (FCSR_ a b : Z) (kind : MaxMinKind) :
  (IEEE.isnan f a = true -> IEEE.isnan f b = false ->
   fst (FMaxMinHelper f FCSR_ a b kind) = b) /\
  (IEEE.isnan f a = false -> IEEE.isnan f b = true ->
   fst (FMaxMinHelper f FCSR_ a b kind) = a) /\
  (IEEE.isnan f a = true -> IEEE.isnan f b = true ->
   fst (FMaxMinHelper f FCSR_ a b kind) = IEEE.quiet_NaN f) /\
  fst (FMaxMinHelper IEEE.binary32 FCSR_
         (IEEE.signaling_NaN IEEE.binary32) 0x40A00000 kMax) = 0x40A00000 /\
  fst (FMaxMinHelper IEEE.binary64 FCSR_
         (IEEE.signaling_NaN IEEE.binary64) 0x4014000000000000 kMax)
    = 0x4014000000000000 /\
  IEEE.is_quiet_nan IEEE.binary32 (IEEE.quiet_NaN IEEE.binary32) = true /\
  IEEE.is_quiet_nan IEEE.binary64 (IEEE.quiet_NaN IEEE.binary64) = true.
Proof.
  unfold Fpu.FMaxMinHelper. cbn [fst].
  repeat split; try (intros Ha Hb; rewrite Ha, Hb; reflexivity).
Qed.

End Flags.

(** [max(signalingNaN, 5.0)], on floats and on doubles: the result is 5.0,
    which is no NaN, and no flag is set in [FCSR_].  The flag of an invalid
    operation is bit 4, the rounding mode starts at bit 5. *)
Lemma max_of_signaling_NaN_and_five :
  IEEE.isSnan IEEE.binary32 (IEEE.signaling_NaN IEEE.binary32) = true /\
  FMaxMinHelper 5 16 IEEE.binary32 0
    (IEEE.signaling_NaN IEEE.binary32) 0x40A00000 kMax = (0x40A00000, 0) /\
  IEEE.isnan IEEE.binary32 0x40A00000 = false /\
  IEEE.isSnan IEEE.binary64 (IEEE.signaling_NaN IEEE.binary64) = true /\
  FMaxMinHelper 5 16 IEEE.binary64 0
    (IEEE.signaling_NaN IEEE.binary64) 0x4014000000000000 kMax
    = (0x4014000000000000, 0) /\
  IEEE.isnan IEEE.binary64 0x4014000000000000 = false.
Proof. repeat split. Qed.

End FpuFacts.

(** ** Vector register bytes *)

Module RvvFacts.
Import Rvv.

Lemma byte_to_Z_range (b : byte) : 0 <= byte_to_Z b < 256.
Proof.
  unfold byte_to_Z. pose proof (Byte.to_N_bounded b). lia.
Qed.

Lemma byte_to_of_Z (z : Z) : byte_to_Z (byte_of_Z z) = z mod 256.
Proof.
  unfold byte_to_Z, byte_of_Z.
  pose proof (Z.mod_pos_bound z 256 ltac:(lia)) as Hr.
  destruct (Byte.of_N (Z.to_N (z mod 256))) as [b |] eqn:E.
  - apply Byte.to_of_N in E. rewrite E. lia.
  - apply Byte.of_N_None_iff in E. lia.
Qed.

Lemma load_bytes_range (m : Z -> byte) (n : nat) (off : Z) :
  0 <= load_bytes m off n < 256 ^ Z.of_nat n.
Proof.
  revert off. induction n as [| n IH]; intros off.
  - cbn. lia.
  - cbn [load_bytes]. rewrite Nat2Z.inj_succ, Z.pow_succ_r by lia.
    pose proof (byte_to_Z_range (m off)). pose proof (IH (off + 1)). lia.
Qed.

(** A load depends on the bytes of its range only. *)
Lemma load_bytes_ext (m m' : Z -> byte) (n : nat) (off : Z) :
  (forall a, off <= a < off + Z.of_nat n -> m a = m' a) ->
  load_bytes m off n = load_bytes m' off n.
Proof.
  revert off. induction n as [| n IH]; intros off Hagree; [reflexivity |].
  cbn [load_bytes]. rewrite (Hagree off) by lia.
  rewrite (IH (off + 1)); [reflexivity |].
  intros a Ha. apply Hagree. lia.
Qed.

Lemma load_store_same (m : Z -> byte) (n : nat) (off v : Z) :
  load_bytes (store_bytes m off n v) off n = v mod 256 ^ Z.of_nat n.
Proof.
  revert m off v. induction n as [| n IH]; intros m off v.
  - cbn. now rewrite Z.mod_1_r.
  - cbn [load_bytes].
    rewrite (load_bytes_ext _ (store_bytes m (off + 1) n (v / 256)) n (off + 1)).
    + rewrite IH. unfold store_bytes.
      replace ((off <=? off) && (off <? off + Z.of_nat (S n))) with true
        by (symmetry; apply andb_true_intro; split;
            [apply Z.leb_le | apply Z.ltb_lt]; lia).
      rewrite Z.sub_diag, Z.pow_0_r, Z.div_1_r, byte_to_of_Z.
      rewrite Nat2Z.inj_succ, Z.pow_succ_r by lia.
      rewrite (Z.rem_mul_r v 256 (256 ^ Z.of_nat n)) by lia.
      reflexivity.
    + intros a Ha. unfold store_bytes.
      replace ((off <=? a) && (a <? off + Z.of_nat (S n))) with true
        by (symmetry; apply andb_true_intro; split;
            [apply Z.leb_le | apply Z.ltb_lt]; lia).
      replace ((off + 1 <=? a) && (a <? off + 1 + Z.of_nat n)) with true
        by (symmetry; apply andb_true_intro; split;
            [apply Z.leb_le | apply Z.ltb_lt]; lia).
      f_equal.
      replace (a - off) with (Z.succ (a - (off + 1))) by lia.
      rewrite Z.pow_succ_r by lia.
      rewrite Z.div_div by lia. reflexivity.
Qed.

Lemma load_store_apart (m : Z -> byte) (n n' : nat) (off off' v : Z) :
  apart off n off' n' ->
  load_bytes (store_bytes m off n v) off' n' = load_bytes m off' n'.
Proof.
  intros Hapart. apply load_bytes_ext. intros a Ha. unfold store_bytes.
  replace ((off <=? a) && (a <? off + Z.of_nat n)) with false; [reflexivity |].
  symmetry. apply andb_false_iff. unfold apart in Hapart. lia.
Qed.

(** The elements do not depend on [vstart]. *)
Lemma Rvvelt_set_rvv_vstart (rvv_vlenb : Z) (s : Simulator) (v : Z)
    (size : nat) (vReg n : Z) :
  Rvvelt rvv_vlenb (set_rvv_vstart s v) size vReg n
  = Rvvelt rvv_vlenb s size vReg n.
Proof. reflexivity. Qed.

(** *** [vadc.vv] *)

(** The masked variant ends in [UNREACHABLE]. *)
Lemma vadc_vv_masked (rvv_vlenb : Z) (instr : Instruction) (s : Simulator) :
  RvvVM instr = 0 -> RO_V_VADC_VV rvv_vlenb instr s = Abort UNREACHABLE.
Proof. intros Hvm. unfold RO_V_VADC_VV. now rewrite Hvm. Qed.

(** [&] is applied to the whole sum, so the element written is 0 or 1. *)
Lemma vadc_element_one_bit (rvv_vlenb : Z) (instr : Instruction) (size : nat)
    (i : Z) (s : Simulator) :
  (0 < size)%nat ->
  exists sum,
    Rvvelt rvv_vlenb (vadc_element rvv_vlenb instr size i s) size
      (rvv_vd_reg instr) i = sum mod 2.
Proof.
  intros Hsize. unfold vadc_element, Rvvelt at 1, Rvvelt_write.
  cbn [Vregister_]. rewrite load_store_same.
  change 1 with (Z.ones 1). rewrite Z.land_ones by lia.
  change (2 ^ Z.ones 1) with 2.
  eexists. apply Z.mod_small.
  match goal with |- context [?x mod 2] => set (sum := x) end.
  pose proof (Z.mod_pos_bound sum 2 ltac:(lia)) as Hbit.
  assert (256 <= 256 ^ Z.of_nat size).
  { replace (Z.of_nat size) with (Z.succ (Z.of_nat (size - 1))) by lia.
    rewrite Z.pow_succ_r by lia.
    pose proof (Z.pow_pos_nonneg 256 (Z.of_nat (size - 1)) ltac:(lia) ltac:(lia)).
    lia. }
  lia.
Qed.

(** C7. [vadc.vv], unmasked, on four 32-bit elements with
    [vs1 = [1; 2; 3; 4]], [vs2 = [10; 20; 30; 40]] and a mask register of
    zeros (no carry): the sums would be [[11; 22; 33; 44]], the destination
    holds their lowest bits [[1; 0; 1; 0]]. *)
Lemma vadc_vv_sample :
  elements sample_state 1 = [1; 2; 3; 4] /\
  elements sample_state 2 = [10; 20; 30; 40] /\
  Rvvelt 16 sample_state 8 0 0 = 0 /\
  match RO_V_VADC_VV 16 sample_instr sample_state with
  | Ok s' => elements s' 3
  | Abort _ => []
  end = [1; 0; 1; 0].
Proof. repeat split; vm_compute; reflexivity. Qed.

Section Gather.

Variable rvv_vlenb : Z.
Variable instr : Instruction.
Variable size : nat.

#[local] Abbreviation offset := (Rvvelt_offset rvv_vlenb size).
#[local] Abbreviation element := (vrgather_element rvv_vlenb instr size).
#[local] Abbreviation wanted := (gathered rvv_vlenb instr size).

Lemma gathered_range (s : Simulator) (i : Z) :
  0 <= wanted s i < 256 ^ Z.of_nat size.
Proof.
  unfold gathered, Rvvelt.
  destruct (rvv_vlmax s <=? _); [| apply load_bytes_range].
  split; [lia |]. apply Z.pow_pos_nonneg; lia.
Qed.

(** One pass of the loop writes the wanted value to element [i]. *)
Lemma element_written (s : Simulator) (i : Z) :
  Rvvelt rvv_vlenb (element i s) size (rvv_vd_reg instr) i = wanted s i.
Proof.
  unfold vrgather_element, Rvvelt at 1, Rvvelt_write. cbn [Vregister_].
  rewrite load_store_same.
  apply Z.mod_small, gathered_range.
Qed.

(** It leaves every range apart from that element as it was. *)
Lemma element_frame (s : Simulator) (i o : Z) :
  apart (offset (rvv_vd_reg instr) i) size o size ->
  load_bytes (Vregister_ (set_rvv_vstart (element i s) 0)) o size
  = load_bytes (Vregister_ s) o size.
Proof.
  intros Hapart. unfold vrgather_element, Rvvelt_write. cbn [Vregister_ set_rvv_vstart].
  now apply load_store_apart.
Qed.

Lemma elements_apart (r i j : Z) :
  i <> j -> apart (offset r i) size (offset r j) size.
Proof.
  intros Hne. unfold apart, Rvvelt_offset.
  destruct (Z.lt_total i j) as [Hlt | [Heq | Hgt]]; [left | contradiction | right].
  - assert (0 <= (j - i - 1) * Z.of_nat size) by (apply Z.mul_nonneg_nonneg; lia).
    lia.
  - assert (0 <= (i - j - 1) * Z.of_nat size) by (apply Z.mul_nonneg_nonneg; lia).
    lia.
Qed.

(** The wanted value does not change when the state changes apart from the
    two elements it reads. *)
Lemma gathered_stable (s s' : Simulator) (i : Z) :
  rvv_vlmax s' = rvv_vlmax s ->
  load_bytes (Vregister_ s') (offset (rvv_vs1_reg instr) i) size
  = load_bytes (Vregister_ s) (offset (rvv_vs1_reg instr) i) size ->
  (forall k, 0 <= k < rvv_vlmax s ->
     load_bytes (Vregister_ s') (offset (rvv_vs2_reg instr) k) size
     = load_bytes (Vregister_ s) (offset (rvv_vs2_reg instr) k) size) ->
  wanted s' i = wanted s i.
Proof.
  intros Hmax Hindex Hsource. unfold gathered, Rvvelt.
  rewrite Hmax, Hindex.
  destruct (Z.leb_spec (rvv_vlmax s)
              (load_bytes (Vregister_ s) (offset (rvv_vs1_reg instr) i) size));
    [reflexivity |].
  apply Hsource. split; [apply load_bytes_range | assumption].
Qed.

(** The loop over [n] elements from [i0] on, when the destination shares no
    byte with what is read. *)
Lemma loop_gathers (n : nat) :
  forall (i0 : Z) (s : Simulator),
    (forall j k,
       i0 <= j < i0 + Z.of_nat n -> i0 <= k < i0 + Z.of_nat n ->
       apart (offset (rvv_vd_reg instr) j) size
             (offset (rvv_vs1_reg instr) k) size) ->
    (forall j k,
       i0 <= j < i0 + Z.of_nat n -> 0 <= k < rvv_vlmax s ->
       apart (offset (rvv_vd_reg instr) j) size
             (offset (rvv_vs2_reg instr) k) size) ->
    rvv_vlmax (loop_from n i0 element s) = rvv_vlmax s /\
    (forall o,
       (forall j, i0 <= j < i0 + Z.of_nat n ->
          apart (offset (rvv_vd_reg instr) j) size o size) ->
       load_bytes (Vregister_ (loop_from n i0 element s)) o size
       = load_bytes (Vregister_ s) o size) /\
    (forall i, i0 <= i < i0 + Z.of_nat n ->
       Rvvelt rvv_vlenb (loop_from n i0 element s) size (rvv_vd_reg instr) i
       = wanted s i).
Proof.
  induction n as [| n IH]; intros i0 s Hindex Hsource.
  - cbn [loop_from]. repeat split; intros; lia.
  - cbn [loop_from].
    set (s1 := set_rvv_vstart (element i0 s) 0).
    destruct (IH (i0 + 1) s1) as (Hmax & Hframe & Helts).
    { intros j k Hj Hk. apply Hindex; lia. }
    { intros j k Hj Hk. apply Hsource; [lia | exact Hk]. }
    assert (Hstable : forall i, i0 < i < i0 + Z.of_nat (S n) ->
                        wanted s1 i = wanted s i).
    { intros i Hi. apply gathered_stable; [reflexivity | |].
      - apply element_frame, Hindex; lia.
      - intros k Hk. apply element_frame, Hsource; [lia | exact Hk]. }
    split; [exact Hmax |]. split.
    + intros o Ho. rewrite Hframe by (intros j Hj; apply Ho; lia).
      apply element_frame, Ho. lia.
    + intros i Hi. destruct (Z.eq_dec i i0) as [-> | Hne].
      * unfold Rvvelt at 1. rewrite Hframe
          by (intros j Hj; apply elements_apart; lia).
        apply (element_written s i0).
      * rewrite Helts by lia. apply Hstable. lia.
Qed.

End Gather.

Lemma vrgather_body_element (rvv_vlenb : Z) (instr : Instruction)
    (i : Z) (s : Simulator) :
  vrgather_body rvv_vlenb instr i s
  = vrgather_element rvv_vlenb instr (sew_bytes (rvv_vsew s)) i s.
Proof. unfold vrgather_body. now destruct (rvv_vsew s). Qed.

(** Every pass of the loop runs the case of the width found at the start. *)
Lemma loop_body_element (rvv_vlenb : Z) (instr : Instruction) (n : nat) :
  forall (i0 : Z) (s : Simulator),
    loop_from n i0 (vrgather_body rvv_vlenb instr) s
    = loop_from n i0
        (vrgather_element rvv_vlenb instr (sew_bytes (rvv_vsew s))) s.
Proof.
  induction n as [| n IH]; intros i0 s; [reflexivity |].
  cbn [loop_from]. rewrite IH, vrgather_body_element. reflexivity.
Qed.


(** [v3 <- vrgather v2, v1] with [v1 = [3; 0; 7; 1]] and
    [v2 = [10; 20; 30; 40]] gives [v3 = [40; 10; 0; 20]]. *)
Lemma gather_state_result :
  match RO_V_VRGATHER_VV 16 sample_instr gather_state with
  | Ok s' => elements s' 3
  | Abort _ => []
  end = [40; 10; 0; 20].
Proof. vm_compute. reflexivity. Qed.

(** The sample satisfies the condition on the destination. *)
Lemma gather_state_apart :
  destination_apart 16 sample_instr 4 gather_state.
Proof.
  split; intros j k Hj Hk; unfold apart, Rvvelt_offset;
    change (rvv_vstart gather_state) with 0 in *;
    change (rvv_vl gather_state) with 4 in *;
    change (rvv_vlmax gather_state) with 4 in *;
    cbn [rvv_vd_reg rvv_vs1_reg rvv_vs2_reg sample_instr]; lia.
Qed.



End RvvFacts.

(** ** Breakpoints *)

Module DebuggerFacts.
Import Debugger.

Lemma find_breakpoint_location (l : list Breakpoint) (loc : Z) (b : Breakpoint) :
  find_breakpoint l loc = Some b -> location b = loc.
Proof.
  intros Hfind. apply List.find_some in Hfind as [_ Heq]. now apply Z.eqb_eq.
Qed.

Lemma loop_existing (l : list Breakpoint) (loc : Z) (tbreak : bool)
    (b : Breakpoint) :
  find_breakpoint l loc = Some b ->
  exists l',
    SetBreakpoint_loop l loc tbreak = Some l' /\
    find_breakpoint l' loc = Some (retagged_or_toggled b tbreak) /\
    map location l' = map location l /\
    length l' = length l.
Proof.
  induction l as [| b0 rest IH]; intros Hfind; [discriminate |].
  unfold find_breakpoint in *. cbn [find SetBreakpoint_loop] in *.
  destruct (Z.eqb_spec (location b0) loc) as [Hloc | Hloc].
  - injection Hfind as ->. unfold retagged_or_toggled.
    destruct (negb (Bool.eqb (is_tbreak b) tbreak));
      eexists; (split; [reflexivity |]); cbn [find location];
      rewrite Hloc, Z.eqb_refl; repeat split; cbn; now rewrite ?Hloc.
  - destruct (IH Hfind) as (rest' & -> & Hfind' & Hmap & Hlen).
    eexists; split; [reflexivity |]. cbn [find].
    destruct (Z.eqb_spec (location b0) loc); [contradiction |].
    repeat split; [exact Hfind' | cbn; now rewrite Hmap | cbn; now rewrite Hlen].
Qed.

Lemma loop_missing (l : list Breakpoint) (loc : Z) (tbreak : bool) :
  find_breakpoint l loc = None -> SetBreakpoint_loop l loc tbreak = None.
Proof.
  induction l as [| b0 rest IH]; intros Hfind; [reflexivity |].
  unfold find_breakpoint in *. cbn [find SetBreakpoint_loop] in *.
  destruct (location b0 =? loc); [discriminate |]. now rewrite IH.
Qed.

Lemma find_breakpoint_pushed (l : list Breakpoint) (b : Breakpoint) :
  find_breakpoint l (location b) = None ->
  find_breakpoint (l ++ [b]) (location b) = Some b.
Proof.
  induction l as [| b0 rest IH]; intros Hfind; unfold find_breakpoint in *.
  - cbn. now rewrite Z.eqb_refl.
  - cbn [find app] in *. destruct (location b0 =? location b); [discriminate |].
    now apply IH.
Qed.

(** After [SetBreakpoint(loc, tbreak)] the list has an entry at [loc], of
    the kind [tbreak]. *)
Lemma SetBreakpoint_entry (l : list Breakpoint) (loc : Z) (tbreak : bool) :
  exists b,
    find_breakpoint (SetBreakpoint l loc tbreak) loc = Some b /\
    is_tbreak b = tbreak.
Proof.
  unfold SetBreakpoint.
  destruct (find_breakpoint l loc) as [b |] eqn:Hfind.
  - destruct (loop_existing l loc tbreak b Hfind) as (l' & -> & Hfind' & _).
    eexists; split; [exact Hfind' |]. unfold retagged_or_toggled.
    destruct (Bool.eqb (is_tbreak b) tbreak) eqn:E; [| reflexivity].
    now apply Bool.eqb_prop in E.
  - rewrite (loop_missing l loc tbreak Hfind).
    exists {| location := loc; enabled := true; is_tbreak := tbreak |}.
    split; [| reflexivity].
    now apply (find_breakpoint_pushed l
                 {| location := loc; enabled := true; is_tbreak := tbreak |}).
Qed.

(** A call on an address that has an entry: the entry is retagged or
    toggled, and no entry is added, moved or removed. *)
Lemma SetBreakpoint_existing (l : list Breakpoint) (loc : Z) (tbreak : bool)
    (b : Breakpoint) :
  find_breakpoint l loc = Some b ->
  find_breakpoint (SetBreakpoint l loc tbreak) loc
    = Some (retagged_or_toggled b tbreak) /\
  map location (SetBreakpoint l loc tbreak) = map location l /\
  length (SetBreakpoint l loc tbreak) = length l.
Proof.
  intros Hfind. unfold SetBreakpoint.
  destruct (loop_existing l loc tbreak b Hfind) as (l' & -> & H).
  exact H.
Qed.

(** *** No two entries at one address *)

Lemma absent_not_in (l : list Breakpoint) (loc : Z) :
  find_breakpoint l loc = None <-> ~ In loc (map location l).
Proof.
  unfold find_breakpoint. induction l as [| b0 rest IH]; cbn [find map In].
  - tauto.
  - destruct (Z.eqb_spec (location b0) loc); [| tauto].
    split; [discriminate | tauto].
Qed.

Lemma SetBreakpoint_NoDup (l : list Breakpoint) (loc : Z) (tbreak : bool) :
  List.NoDup (map location l) ->
  List.NoDup (map location (SetBreakpoint l loc tbreak)).
Proof.
  intros Hnd. destruct (find_breakpoint l loc) as [b |] eqn:Hfind.
  - destruct (SetBreakpoint_existing l loc tbreak b Hfind) as (_ & -> & _).
    exact Hnd.
  - unfold SetBreakpoint. rewrite (loop_missing l loc tbreak Hfind).
    rewrite List.map_app. cbn [map location].
    apply absent_not_in in Hfind.
    apply List.NoDup_rev in Hnd. rewrite <- (List.rev_involutive (_ ++ _)).
    apply List.NoDup_rev. rewrite List.rev_app_distr. cbn [rev app].
    constructor; [| exact Hnd]. now rewrite <- List.in_rev.
Qed.

Lemma CheckBreakpoints_locations (l : list Breakpoint) (pc : Z) :
  map location (fst (CheckBreakpoints l pc)) = map location l.
Proof.
  induction l as [| b0 rest IH]; [reflexivity |]. cbn [CheckBreakpoints].
  destruct ((location b0 =? pc) && enabled b0).
  - now destruct (is_tbreak b0).
  - destruct (CheckBreakpoints rest pc) as [rest' hit]. cbn in *.
    now rewrite IH.
Qed.

Lemma reachable_NoDup (l : list Breakpoint) :
  reachable l -> List.NoDup (map location l).
Proof.
  induction 1 as [| l loc tbreak _ IH | l pc _ IH].
  - constructor.
  - now apply SetBreakpoint_NoDup.
  - now rewrite CheckBreakpoints_locations.
Qed.

Lemma CheckBreakpoints_absent (l : list Breakpoint) (pc : Z) :
  find_breakpoint l pc = None -> CheckBreakpoints l pc = (l, false).
Proof.
  unfold find_breakpoint. induction l as [| b0 rest IH]; intros Hfind;
    [reflexivity |].
  cbn [find CheckBreakpoints] in *.
  destruct (location b0 =? pc); [discriminate |]. cbn [andb].
  now rewrite IH.
Qed.

(** An enabled temporary breakpoint at [pc] is hit and disabled; the next
    check at [pc] hits nothing. *)
Lemma temporary_breakpoint_hit (l : list Breakpoint) (pc : Z) (b : Breakpoint) :
  List.NoDup (map location l) ->
  find_breakpoint l pc = Some b -> enabled b = true -> is_tbreak b = true ->
  exists l',
    CheckBreakpoints l pc = (l', true) /\
    find_breakpoint l' pc
      = Some {| location := pc; enabled := false; is_tbreak := true |} /\
    CheckBreakpoints l' pc = (l', false).
Proof.
  induction l as [| b0 rest IH]; intros Hnd Hfind Hen Htb; [discriminate |].
  unfold find_breakpoint in *. cbn [find CheckBreakpoints map] in *.
  apply List.NoDup_cons_iff in Hnd as [Hnotin Hnd].
  destruct (Z.eqb_spec (location b0) pc) as [Hloc | Hloc].
  - injection Hfind as ->. rewrite Hen, Htb. cbn [andb].
    eexists; split; [reflexivity |]. cbn [find location CheckBreakpoints enabled].
    rewrite Hloc, Z.eqb_refl. cbn [andb]. split; [reflexivity |].
    rewrite CheckBreakpoints_absent; [reflexivity |].
    apply absent_not_in. now rewrite <- Hloc.
  - cbn [andb].
    destruct (IH Hnd Hfind Hen Htb) as (rest' & -> & Hfind' & Hcheck).
    eexists; split; [reflexivity |]. cbn [find CheckBreakpoints].
    destruct (Z.eqb_spec (location b0) pc); [contradiction |]. cbn [andb].
    split; [exact Hfind' |]. now rewrite Hcheck.
Qed.

Lemma SetBreakpoint_same_kind_toggles (l : list Breakpoint) (loc : Z)
    (tbreak : bool) (b : Breakpoint) :
  find_breakpoint l loc = Some b -> is_tbreak b = tbreak ->
  find_breakpoint (SetBreakpoint l loc tbreak) loc
    = Some {| location := loc;
              enabled := negb (enabled b);
              is_tbreak := tbreak |} /\
  map location (SetBreakpoint l loc tbreak) = map location l /\
  length (SetBreakpoint l loc tbreak) = length l.
Proof.
  intros Hfind Hkind.
  destruct (SetBreakpoint_existing l loc tbreak b Hfind) as (Hfind' & Hmap & Hlen).
  pose proof (find_breakpoint_location l loc b Hfind) as Hloc.
  unfold retagged_or_toggled in Hfind'.
  rewrite Hloc, Hkind, Bool.eqb_reflx in Hfind'.
  repeat split; assumption.
Qed.

(** C10. When [SetBreakpoint] is called on an address that has an entry
    of the other kind, the entry takes the kind of the call and keeps its
    [enabled] state; the state is toggled only when the kinds agree.  In
    both cases no entry is added. *)
Theorem SetBreakpoint_kind_or_toggle (l : list Breakpoint) (loc : Z)
    (tbreak : bool) (b : Breakpoint) :
  find_breakpoint l loc = Some b ->
  (is_tbreak b <> tbreak ->
   find_breakpoint (SetBreakpoint l loc tbreak) loc
     = Some {| location := loc; enabled := enabled b; is_tbreak := tbreak |}) /\
  (is_tbreak b = tbreak ->
   find_breakpoint (SetBreakpoint l loc tbreak) loc
     = Some {| location := loc;
               enabled := negb (enabled b);
               is_tbreak := tbreak |}) /\
  map location (SetBreakpoint l loc tbreak) = map location l /\
  length (SetBreakpoint l loc tbreak) = length l.
Proof.
  intros Hfind.
  destruct (SetBreakpoint_existing l loc tbreak b Hfind) as (Hfind' & Hmap & Hlen).
  pose proof (find_breakpoint_location l loc b Hfind) as Hloc.
  unfold retagged_or_toggled in Hfind'. rewrite Hloc in Hfind'.
  repeat split; try assumption.
  - intros Hkind. rewrite Hfind'.
    destruct (Bool.eqb (is_tbreak b) tbreak) eqn:E; [| reflexivity].
    now apply Bool.eqb_prop in E.
  - intros Hkind. rewrite Hfind', Hkind, Bool.eqb_reflx. reflexivity.
Qed.

Lemma SetBreakpoint_kind_or_toggle_witness :
  find_breakpoint
    (SetBreakpoint
       [{| location := 4096; enabled := false; is_tbreak := false |}] 4096 true)
    4096
    = Some {| location := 4096; enabled := false; is_tbreak := true |} /\
  map location
    (SetBreakpoint
       [{| location := 4096; enabled := false; is_tbreak := false |}] 4096 true)
    = [4096] /\
  length
    (SetBreakpoint
       [{| location := 4096; enabled := false; is_tbreak := false |}] 4096 true)
    = 1%nat.
Proof.
  destruct (SetBreakpoint_kind_or_toggle
              [{| location := 4096; enabled := false; is_tbreak := false |}]
              4096 true
              {| location := 4096; enabled := false; is_tbreak := false |})
    as (Hkind & _ & Hmap & Hlen).
  - reflexivity.
  - split; [| split].
    + apply Hkind. discriminate.
    + exact Hmap.
    + exact Hlen.
Defined.

(** C9, as the code has it.  Two calls of [SetBreakpoint] for one address
    with the same kind: the second call adds no entry and toggles the
    [enabled] state of the entry.  And an enabled temporary breakpoint at
    the program counter is hit and disabled by that hit, so the next check
    at the same address hits nothing. *)
Theorem breakpoint_lifecycle (l : list Breakpoint) (loc pc : Z)
    (tbreak : bool) (b : Breakpoint) :
  reachable l ->
  (exists b1,
     find_breakpoint (SetBreakpoint l loc tbreak) loc = Some b1 /\
     find_breakpoint (SetBreakpoint (SetBreakpoint l loc tbreak) loc tbreak) loc
       = Some {| location := loc;
                 enabled := negb (enabled b1);
                 is_tbreak := tbreak |} /\
     map location (SetBreakpoint (SetBreakpoint l loc tbreak) loc tbreak)
       = map location (SetBreakpoint l loc tbreak) /\
     length (SetBreakpoint (SetBreakpoint l loc tbreak) loc tbreak)
       = length (SetBreakpoint l loc tbreak)) /\
  (find_breakpoint l pc = Some b -> enabled b = true -> is_tbreak b = true ->
   exists l',
     CheckBreakpoints l pc = (l', true) /\
     find_breakpoint l' pc
       = Some {| location := pc; enabled := false; is_tbreak := true |} /\
     CheckBreakpoints l' pc = (l', false)).
Proof.
  intros Hreach. split.
  - destruct (SetBreakpoint_entry l loc tbreak) as (b1 & Hfind1 & Hkind1).
    exists b1. split; [exact Hfind1 |].
    destruct (SetBreakpoint_same_kind_toggles (SetBreakpoint l loc tbreak)
                loc tbreak b1 Hfind1 Hkind1) as (H2 & Hmap & Hlen).
    repeat split; assumption.
  - apply temporary_breakpoint_hit. now apply reachable_NoDup.
Qed.

Lemma breakpoint_lifecycle_witness :
  (exists b1,
     find_breakpoint (SetBreakpoint (SetBreakpoint [] 4096 true) 8192 false) 8192
       = Some b1 /\
     find_breakpoint
       (SetBreakpoint (SetBreakpoint (SetBreakpoint [] 4096 true) 8192 false)
          8192 false) 8192
       = Some {| location := 8192;
                 enabled := negb (enabled b1);
                 is_tbreak := false |} /\
     map location
       (SetBreakpoint (SetBreakpoint (SetBreakpoint [] 4096 true) 8192 false)
          8192 false)
       = map location (SetBreakpoint (SetBreakpoint [] 4096 true) 8192 false) /\
     length
       (SetBreakpoint (SetBreakpoint (SetBreakpoint [] 4096 true) 8192 false)
          8192 false)
       = length (SetBreakpoint (SetBreakpoint [] 4096 true) 8192 false)) /\
  (exists l',
     CheckBreakpoints (SetBreakpoint [] 4096 true) 4096 = (l', true) /\
     find_breakpoint l' 4096
       = Some {| location := 4096; enabled := false; is_tbreak := true |} /\
     CheckBreakpoints l' 4096 = (l', false)).
Proof.
  destruct (breakpoint_lifecycle (SetBreakpoint [] 4096 true) 8192 4096 false
              {| location := 4096; enabled := true; is_tbreak := true |})
    as (Htwice & Htemporary).
  - apply reachable_set, reachable_clear.
  - split; [exact Htwice |]. apply Htemporary; reflexivity.
Defined.

(** Two calls for one address with different kinds: the second call turns
    the regular breakpoint into a temporary one and leaves it enabled. *)
Lemma second_call_of_other_kind_keeps_enabled :
  SetBreakpoint [] 4096 false
    = [{| location := 4096; enabled := true; is_tbreak := false |}] /\
  SetBreakpoint (SetBreakpoint [] 4096 false) 4096 true
    = [{| location := 4096; enabled := true; is_tbreak := true |}].
Proof. split; reflexivity. Qed.

End DebuggerFacts.

(** ** Saturating subtraction *)

Module SatSubFacts.
Import Int IntFacts Sat SatFacts.

(** [sat_sub] at any positive width. *)
Lemma sat_sub_spec (w x y : Z) :
  0 < w -> in_signed w x -> in_signed w y ->
  sat_sub w x y =
    if type_max w <? x - y then (type_max w, true)
    else if x - y <? type_min w then (type_min w, true)
    else (x - y, false).
Proof.
  intros Hw Hx Hy.
  pose proof (pow2_split w Hw) as Hs.
  pose proof (pow2_pos (w - 1) ltac:(lia)) as Hp.
  unfold sat_sub. rewrite Z.ltb_antisym, sign_test by exact Hw.
  rewrite Bool.negb_involutive.
  rewrite Z.land_spec, !Z.lxor_spec.
  rewrite overflowed_result by assumption.
  pose proof (to_unsigned_range w (to_unsigned w x - to_unsigned w y)
                ltac:(lia)) as Hres.
  rewrite (msb_unsigned w (to_unsigned w y))
    by (try exact Hw; apply to_unsigned_range; lia).
  rewrite (msb_unsigned w (to_unsigned w (_ - _))) by (try exact Hw; exact Hres).
  rewrite (to_signed_of_unsigned w (to_unsigned w (_ - _)))
    by (try exact Hw; exact Hres).
  assert (Hdiff : to_unsigned w (to_unsigned w x - to_unsigned w y)
                  = to_unsigned w (x - y)).
  { unfold to_unsigned. now rewrite <- Zminus_mod. }
  rewrite Hdiff in *. clear Hdiff.
  rewrite (to_unsigned_of_signed w y) by assumption.
  unfold in_signed, type_max, type_min in *.
  destruct Hx as [Hxl Hxh], Hy as [Hyl Hyh].
  assert (Hcases :
    to_unsigned w (x - y) = x - y + 2 ^ w /\ x - y < 0 \/
    to_unsigned w (x - y) = x - y /\ 0 <= x - y < 2 ^ w \/
    False).
  { unfold to_unsigned. destruct (Z.ltb_spec (x - y) 0).
    - left. split; [| lia]. symmetry.
      apply (Z.mod_unique_pos _ _ (-1)); lia.
    - right. left. split; [| lia]. apply Z.mod_small. lia. }
  destruct (Z.ltb_spec x 0), (Z.ltb_spec y 0);
    destruct Hcases as [[-> Hc] | [[-> Hc] | []]]; try lia;
    rewrite ?msb_unsigned by (unfold in_unsigned; lia);
    rewrite ?to_signed_of_unsigned by (unfold in_unsigned; lia);
    repeat match goal with
      | |- context [Z.leb ?a ?b] => destruct (Z.leb_spec a b)
      | |- context [Z.ltb ?a ?b] => destruct (Z.ltb_spec a b)
      end; cbn [xorb negb andb]; try lia; f_equal; lia.
Qed.

(** For a signed type of 8, 16, 32 or 64 bits, [sat_sub(x, y)] is the
    difference clamped to the range of the type, and the flag tells whether
    the difference left that range. *)
Theorem sat_sub_saturates (w x y : Z) :
  w = 8 \/ w = 16 \/ w = 32 \/ w = 64 ->
  in_signed w x -> in_signed w y ->
  fst (sat_sub w x y) = Z.max (type_min w) (Z.min (type_max w) (x - y)) /\
  (snd (sat_sub w x y) = true <->
     x - y < type_min w \/ type_max w < x - y).
Proof.
  intros Hw Hx Hy.
  assert (0 < w) as Hpos by lia.
  rewrite sat_sub_spec by assumption.
  pose proof (pow2_pos (w - 1) ltac:(lia)) as Hp.
  unfold type_max, type_min, in_signed in *.
  destruct (Z.ltb_spec (2 ^ (w - 1) - 1) (x - y));
    [| destruct (Z.ltb_spec (x - y) (- 2 ^ (w - 1)))];
    cbn [fst snd]; split; try lia; split; intros; try lia; try discriminate;
    reflexivity.
Qed.

Lemma sat_sub_saturates_witness :
  fst (sat_sub 16 (-30000) 10000)
    = Z.max (type_min 16) (Z.min (type_max 16) (-30000 - 10000)) /\
  (snd (sat_sub 16 (-30000) 10000) = true <->
     -30000 - 10000 < type_min 16 \/ type_max 16 < -30000 - 10000).
Proof.
  apply (sat_sub_saturates 16 (-30000) 10000).
  - right. left. reflexivity.
  - unfold in_signed. simpl. lia.
  - unfold in_signed. simpl. lia.
Defined.

End SatSubFacts.

(** ** Division and remainder together *)

Module DivisionFacts.
Import Int IntFacts Alu AluFacts.

(** The truncated quotient stays in the range of the operands, except for
    the overflowing pair. *)
Lemma quot_bound (P x y : Z) :
  - P <= x < P -> y <> 0 -> ~ (x = - P /\ y = -1) -> - P <= Z.quot x y < P.
Proof.
  intros Hx Hy Hov.
  assert (E : Z.abs (Z.quot x y) = Z.abs x / Z.abs y).
  { rewrite <- Z.quot_abs by lia. apply Z.quot_div_nonneg; lia. }
  destruct (Z.eq_dec (Z.abs y) 1) as [Hone | Hmore].
  - destruct (Z.eq_dec y 1) as [-> | Hneg].
    + rewrite Z.quot_1_r. lia.
    + assert (y = -1) as -> by lia.
      change (-1) with (- (1)). rewrite Z.quot_opp_r, Z.quot_1_r by lia. lia.
  - destruct (Z.eq_dec x 0) as [-> | Hnz].
    + rewrite Z.quot_0_l by lia. lia.
    + pose proof (Z.div_lt (Z.abs x) (Z.abs y) ltac:(lia) ltac:(lia)). lia.
Qed.

Lemma rem_bound (P x y : Z) :
  - P <= y < P -> y <> 0 -> - P <= Z.rem x y < P.
Proof.
  intros Hy Hnz. pose proof (Z.rem_bound_abs x y Hnz). lia.
Qed.

Lemma in_signed_64 (x : Z) : in_signed 64 x <-> - 2 ^ 63 <= x < 2 ^ 63.
Proof. reflexivity. Qed.

Lemma in_signed_32 (x : Z) : in_signed 32 x <-> - 2 ^ 31 <= x < 2 ^ 31.
Proof. reflexivity. Qed.

(** For all register values, [div] and [rem] return a quotient [q] and a
    remainder [r] with [rs2 * q + r = rs1] in 64-bit arithmetic, also for a
    zero divisor and for the overflowing pair; the remainder is smaller in
    magnitude than a non-zero divisor and has the sign of the dividend. *)
Theorem div_rem_identity (x y : Z) :
  in_signed 64 x -> in_signed 64 y ->
  exists q r,
    RO_DIV x y = Some q /\ RO_REM x y = Some r /\
    in_signed 64 q /\ in_signed 64 r /\
    to_signed 64 (y * q + r) = x /\
    (y <> 0 -> Z.abs r < Z.abs y /\ 0 <= r * x).
Proof.
  intros Hx Hy. unfold RO_DIV, RO_REM, sdiv, srem.
  rewrite !sext_xlen_id by assumption.
  assert (Hx64 := Hx). assert (Hy64 := Hy).
  unfold in_signed in Hx, Hy. change (2 ^ (64 - 1)) with (2 ^ 63) in Hx, Hy.
  destruct (Z.eqb_spec y 0) as [-> | Hnz].
  - exists (-1), x.
    split; [reflexivity |]. split; [reflexivity |].
    split; [unfold in_signed; change (2 ^ (64 - 1)) with (2 ^ 63); lia |]. split; [unfold in_signed; change (2 ^ (64 - 1)) with (2 ^ 63); lia |].
    split; [| intros Habs; contradiction].
    rewrite Z.mul_0_l, Z.add_0_l. apply to_signed_id; [lia | exact Hx64].
  - destruct ((x =? INT64_MIN) && (y =? -1)) eqn:Hov.
    + apply andb_true_iff in Hov as [Hx' Hy'].
      apply Z.eqb_eq in Hx', Hy'. subst x y.
      exists INT64_MIN, 0.
      split; [reflexivity |]. split; [reflexivity |].
      split; [exact Hx64 |].
      split; [unfold in_signed; change (2 ^ (64 - 1)) with (2 ^ 63); lia |].
      split; [reflexivity |]. intros _. split; [reflexivity | lia].
    + cbn [orb mbind option_bind].
      assert (Hnov : ~ (x = - 2 ^ 63 /\ y = -1)).
      { intros [-> ->]. discriminate Hov. }
      pose proof (quot_bound (2 ^ 63) x y Hx Hnz Hnov) as Hq.
      pose proof (rem_bound (2 ^ 63) x y Hy Hnz) as Hr.
      exists (Z.quot x y), (Z.rem x y).
      rewrite !sext_xlen_id by assumption.
      split; [reflexivity |]. split; [reflexivity |].
      split; [exact Hq |].
      split; [exact Hr |].
      split.
      * rewrite <- Z.quot_rem'. apply to_signed_id; [lia | exact Hx64].
      * intros _. split; [apply Z.rem_bound_abs | apply Z.rem_sign_mul];
          exact Hnz.
Qed.

Lemma div_rem_identity_witness :
  exists q r,
    RO_DIV (-7) 2 = Some q /\ RO_REM (-7) 2 = Some r /\
    in_signed 64 q /\ in_signed 64 r /\
    to_signed 64 (2 * q + r) = -7 /\
    (2 <> 0 -> Z.abs r < Z.abs 2 /\ 0 <= r * -7).
Proof.
  apply (div_rem_identity (-7) 2); unfold in_signed; simpl; lia.
Defined.

Lemma unsigned_quot_rem (P a b : Z) :
  0 <= a < P -> 0 < b ->
  0 <= Z.quot a b < P /\ 0 <= Z.rem a b < b /\ b * Z.quot a b + Z.rem a b = a.
Proof.
  intros Ha Hb.
  rewrite Z.quot_div_nonneg, Z.rem_mod_nonneg by lia.
  pose proof (Z.div_pos a b ltac:(lia) Hb).
  pose proof (Z.div_le_upper_bound a b a Hb ltac:(nia)).
  pose proof (Z.mod_pos_bound a b Hb).
  pose proof (Z.div_mod a b ltac:(lia)).
  lia.
Qed.

(** The same for [divu] and [remu] on the unsigned readings of the
    registers; a zero divisor gives the quotient of all ones. *)
Theorem divu_remu_identity (x y : Z) :
  exists q r,
    RO_DIVU x y = Some q /\ RO_REMU x y = Some r /\
    to_unsigned 64 (to_unsigned 64 y * to_unsigned 64 q + to_unsigned 64 r)
      = to_unsigned 64 x /\
    (to_unsigned 64 y = 0 -> to_unsigned 64 q = UINT64_MAX) /\
    (to_unsigned 64 y <> 0 -> to_unsigned 64 r < to_unsigned 64 y).
Proof.
  unfold RO_DIVU, RO_REMU, udiv, urem, zext_xlen, xlen.
  pose proof (to_unsigned_range 64 x ltac:(lia)) as Hx.
  pose proof (to_unsigned_range 64 y ltac:(lia)) as Hy.
  set (ux := to_unsigned 64 x) in *. set (uy := to_unsigned 64 y) in *.
  destruct (Z.eqb_spec uy 0) as [Hz | Hnz].
  - eexists; eexists. split; [reflexivity |]. split; [reflexivity |].
    rewrite (signed_unsigned_roundtrip 64 ux) by (try lia; exact Hx).
    rewrite (signed_unsigned_roundtrip 64 UINT64_MAX)
      by (try lia; unfold in_unsigned, UINT64_MAX; lia).
    split; [| split; [intros _; reflexivity | intros Habs; contradiction]].
    rewrite Hz, Z.mul_0_l, Z.add_0_l. now apply to_unsigned_id.
  - cbn [mbind option_bind].
    unfold in_unsigned in Hx, Hy.
    destruct (unsigned_quot_rem (2 ^ 64) ux uy Hx ltac:(lia))
      as (Hq & Hr & Hid).
    eexists; eexists. split; [reflexivity |]. split; [reflexivity |].
    rewrite (to_unsigned_id 64 (Z.quot ux uy)) by exact Hq.
    rewrite (to_unsigned_id 64 (Z.rem ux uy)) by (unfold in_unsigned; lia).
    rewrite !signed_unsigned_roundtrip
      by (try lia; unfold in_unsigned; lia).
    split; [| split; [contradiction | lia]].
    rewrite Hid. now apply to_unsigned_id.
Qed.

(** [divw] and [remw]: quotient and remainder are 32-bit values,
    sign-extended, and [rs2 * q + r = rs1] holds in 32-bit arithmetic for all
    register values. *)
Theorem divw_remw_identity (x y : Z) :
  exists q r,
    RO_DIVW x y = Some q /\ RO_REMW x y = Some r /\
    in_signed 32 q /\ in_signed 32 r /\
    sext32 (sext32 y * q + r) = sext32 x /\
    (sext32 y = 0 -> q = -1 /\ r = sext32 x) /\
    (sext32 y <> 0 -> Z.abs r < Z.abs (sext32 y)).
Proof.
  unfold RO_DIVW, RO_REMW, sdiv, srem.
  pose proof (to_signed_range 32 x ltac:(lia)) as Hx.
  pose proof (to_signed_range 32 y ltac:(lia)) as Hy.
  fold (sext32 x) in Hx. fold (sext32 y) in Hy.
  set (lhs := sext32 x) in *. set (rhs := sext32 y) in *.
  assert (Hx32 := Hx). assert (Hy32 := Hy).
  unfold in_signed in Hx, Hy. change (2 ^ (32 - 1)) with (2 ^ 31) in Hx, Hy.
  assert (Hmin : (lhs =? INT64_MIN) = false).
  { apply Z.eqb_neq. unfold INT64_MIN, type_min. simpl. lia. }
  destruct (Z.eqb_spec rhs 0) as [Hz | Hnz].
  - exists (-1), lhs.
    split; [reflexivity |]. split; [reflexivity |].
    split; [unfold in_signed; simpl; lia |]. split; [exact Hx32 |].
    split; [| split; [intros _; split; reflexivity | contradiction]].
    rewrite Hz, Z.mul_0_l, Z.add_0_l. unfold sext32.
    now apply to_signed_id.
  - destruct ((lhs =? INT32_MIN) && (rhs =? -1)) eqn:Hov.
    + apply andb_true_iff in Hov as [Hl Hr].
      apply Z.eqb_eq in Hl, Hr.
      exists lhs, 0.
      split; [reflexivity |]. split; [reflexivity |].
      split; [exact Hx32 |]. split; [unfold in_signed; simpl; lia |].
      split; [| split; [contradiction | intros _; lia]].
      rewrite Hr, Hl. reflexivity.
    + rewrite Hmin. cbn [orb andb mbind option_bind].
      assert (Hnov : ~ (lhs = - 2 ^ 31 /\ rhs = -1)).
      { intros [Hl Hr]. rewrite Hl, Hr in Hov. discriminate Hov. }
      pose proof (quot_bound (2 ^ 31) lhs rhs Hx Hnz Hnov) as Hq.
      pose proof (rem_bound (2 ^ 31) lhs rhs Hy Hnz) as Hr.
      exists (Z.quot lhs rhs), (Z.rem lhs rhs).
      unfold sext32.
      rewrite !(to_signed_id 32 (Z.quot lhs rhs)) by (try lia; exact Hq).
      rewrite !(to_signed_id 32 (Z.rem lhs rhs)) by (try lia; exact Hr).
      split; [reflexivity |]. split; [reflexivity |].
      split; [exact Hq |]. split; [exact Hr |].
      split; [| split; [contradiction | intros _; now apply Z.rem_bound_abs]].
      rewrite <- Z.quot_rem'. now apply to_signed_id.
Qed.

(** [divuw] and [remuw] return zero-extended 32-bit values: with a zero
    divisor the quotient is [UINT32_MAX], a positive 64-bit value, and in all
    cases [rs2 * q + r = rs1] holds in unsigned 32-bit arithmetic. *)
Theorem divuw_remuw_identity (x y : Z) :
  exists q r,
    RO_DIVUW x y = Some q /\ RO_REMUW x y = Some r /\
    in_unsigned 32 q /\ in_unsigned 32 r /\
    zext32 (zext32 y * q + r) = zext32 x /\
    (zext32 y = 0 -> q = UINT32_MAX /\ r = zext32 x) /\
    (zext32 y <> 0 -> r < zext32 y).
Proof.
  unfold RO_DIVUW, RO_REMUW, udiv, urem.
  pose proof (to_unsigned_range 32 x ltac:(lia)) as Hx.
  pose proof (to_unsigned_range 32 y ltac:(lia)) as Hy.
  fold (zext32 x) in Hx. fold (zext32 y) in Hy.
  set (lhs := zext32 x) in *. set (rhs := zext32 y) in *.
  assert (Hx32 := Hx).
  unfold in_unsigned in Hx, Hy.
  assert (Hsmall : forall v, 0 <= v < 2 ^ 32 ->
                     to_signed 64 (zext32 v) = v).
  { intros v Hv. unfold zext32. rewrite to_unsigned_id by exact Hv.
    apply to_signed_id; [lia |]. unfold in_signed. simpl. simpl in Hv. lia. }
  destruct (Z.eqb_spec rhs 0) as [Hz | Hnz].
  - exists UINT32_MAX, lhs.
    split; [reflexivity |]. split; [now rewrite Hsmall |].
    split; [unfold in_unsigned, UINT32_MAX; simpl; lia |]. split; [exact Hx32 |].
    split; [| split; [intros _; split; reflexivity | contradiction]].
    rewrite Hz, Z.mul_0_l, Z.add_0_l. unfold zext32.
    now apply to_unsigned_id.
  - cbn [mbind option_bind].
    destruct (unsigned_quot_rem (2 ^ 32) lhs rhs Hx ltac:(lia))
      as (Hq & Hr & Hid).
    exists (Z.quot lhs rhs), (Z.rem lhs rhs).
    rewrite !Hsmall by lia.
    split; [reflexivity |]. split; [reflexivity |].
    split; [exact Hq |]. split; [unfold in_unsigned; lia |].
    split; [| split; [contradiction | lia]].
    rewrite Hid. unfold zext32. now apply to_unsigned_id.
Qed.

(** [HaveSameSign(a, b)] holds exactly when both values are negative or
    both are not. *)
Theorem HaveSameSign_spec (a b : Z) :
  in_signed 64 a -> in_signed 64 b ->
  HaveSameSign a b = Bool.eqb (a <? 0) (b <? 0).
Proof.
  intros Ha Hb. unfold HaveSameSign.
  rewrite SatFacts.sign_test by lia. rewrite Z.lxor_spec.
  assert (Hbit : forall v, in_signed 64 v -> Z.testbit v (64 - 1) = (v <? 0)).
  { intros v Hv.
    rewrite <- (Z.mod_pow2_bits_low v 64 (64 - 1)) by lia.
    fold (to_unsigned 64 v).
    rewrite SatFacts.msb_unsigned by (try lia; apply to_unsigned_range; lia).
    rewrite to_unsigned_of_signed by (try lia; exact Hv).
    unfold in_signed in Hv. change (2 ^ (64 - 1)) with (2 ^ 63) in *.
    change (2 ^ 64) with (2 * 2 ^ 63).
    destruct (Z.ltb_spec v 0);
      [destruct (Z.leb_spec (2 ^ 63) (v + 2 * 2 ^ 63))
      | destruct (Z.leb_spec (2 ^ 63) v)]; lia. }
  rewrite (Hbit a Ha), (Hbit b Hb).
  now destruct (a <? 0), (b <? 0).
Qed.

Lemma HaveSameSign_spec_witness :
  HaveSameSign (-5) 7 = Bool.eqb (-5 <? 0) (7 <? 0).
Proof.
  apply (HaveSameSign_spec (-5) 7); unfold in_signed; simpl; lia.
Defined.

Lemma shift_amount (y : Z) : Z.land y (xlen - 1) = y mod 64.
Proof. change (xlen - 1) with (Z.ones 6). now rewrite Z.land_ones. Qed.

Lemma div_pow2_in_range (P x k : Z) :
  - P <= x < P -> 0 <= k -> - P <= x / 2 ^ k < P.
Proof.
  intros Hx Hk.
  pose proof (Z.pow_pos_nonneg 2 k ltac:(lia) Hk) as Hp.
  pose proof (Z.div_mod x (2 ^ k) ltac:(lia)) as Hd.
  pose proof (Z.mod_pos_bound x (2 ^ k) Hp) as Hm.
  split.
  - apply Z.div_le_lower_bound; [exact Hp |]. nia.
  - apply Z.div_lt_upper_bound; [exact Hp |]. nia.
Qed.

(** The register shifts use the low six bits of [rs2] as the amount:
    [sll] multiplies by the power of two and wraps to 64 bits, [srl] divides
    the unsigned reading, [sra] divides the signed value rounding down. *)
Theorem shifts_use_amount_mod_64 (x y : Z) :
  in_signed 64 x ->
  RO_SLL x y = to_signed 64 (x * 2 ^ (y mod 64)) /\
  RO_SRL x y = to_signed 64 (to_unsigned 64 x / 2 ^ (y mod 64)) /\
  RO_SRA x y = x / 2 ^ (y mod 64).
Proof.
  intros Hx. unfold RO_SLL, RO_SRL, RO_SRA. rewrite shift_amount.
  pose proof (Z.mod_pos_bound y 64 ltac:(lia)) as Hk.
  rewrite Z.shiftl_mul_pow2, !Z.shiftr_div_pow2 by lia.
  rewrite (sext_xlen_id x Hx).
  split; [reflexivity |]. split; [reflexivity |].
  apply sext_xlen_id. unfold in_signed in *.
  apply div_pow2_in_range; lia.
Qed.

Lemma shifts_use_amount_mod_64_witness :
  RO_SLL (-3) 65 = to_signed 64 (-3 * 2 ^ (65 mod 64)) /\
  RO_SRL (-3) 65 = to_signed 64 (to_unsigned 64 (-3) / 2 ^ (65 mod 64)) /\
  RO_SRA (-3) 65 = -3 / 2 ^ (65 mod 64).
Proof.
  apply (shifts_use_amount_mod_64 (-3) 65). unfold in_signed. simpl. lia.
Defined.

End DivisionFacts.

(** ** Frames and words of the register banks *)

Module RegisterWords.
Import Int IntFacts Registers RegisterFile.

(** A conversion to 64 bits changes a value by a multiple of [2^64]. *)
Lemma to_signed_64_shift (z : Z) :
  exists k, to_signed 64 z = z + k * 2 ^ 64.
Proof.
  unfold to_signed. exists (- ((z + 2 ^ (64 - 1)) / 2 ^ 64)).
  pose proof (Z.div_mod (z + 2 ^ (64 - 1)) (2 ^ 64) ltac:(lia)). lia.
Qed.

Lemma to_unsigned_64_shift (z : Z) :
  exists k, to_unsigned 64 z = z + k * 2 ^ 64.
Proof.
  unfold to_unsigned. exists (- (z / 2 ^ 64)).
  pose proof (Z.div_mod z (2 ^ 64) ltac:(lia)). lia.
Qed.

Lemma low_word_shift (z k : Z) : (z + k * 2 ^ 64) mod 2 ^ 32 = z mod 2 ^ 32.
Proof.
  replace (z + k * 2 ^ 64) with (z + (k * 2 ^ 32) * 2 ^ 32)
    by (change (2 ^ 64) with (2 ^ 32 * 2 ^ 32); ring).
  apply Z_mod_plus_full.
Qed.

Lemma high_word_shift (z k : Z) :
  ((z + k * 2 ^ 64) / 2 ^ 32) mod 2 ^ 32 = (z / 2 ^ 32) mod 2 ^ 32.
Proof.
  replace (z + k * 2 ^ 64) with (z + (k * 2 ^ 32) * 2 ^ 32)
    by (change (2 ^ 64) with (2 ^ 32 * 2 ^ 32); ring).
  rewrite Z_div_plus_full by lia. apply Z_mod_plus_full.
Qed.

Lemma low_word (z : Z) : Z.land z 0xFFFFFFFF = z mod 2 ^ 32.
Proof. change 0xFFFFFFFF with (Z.ones 32). now rewrite Z.land_ones. Qed.

Lemma high_word (z : Z) :
  Z.land (Z.shiftr z 32) 0xFFFFFFFF = (z / 2 ^ 32) mod 2 ^ 32.
Proof. now rewrite low_word, Z.shiftr_div_pow2. Qed.

Lemma to_signed_32_of_unsigned (v : Z) :
  in_signed 32 v -> to_signed 32 (to_unsigned 32 v) = v.
Proof.
  intros Hv. rewrite to_unsigned_of_signed by (lia || exact Hv).
  unfold in_signed in Hv. change (2 ^ (32 - 1)) with (2 ^ 31) in Hv.
  rewrite to_signed_of_unsigned.
  - change (2 ^ (32 - 1)) with (2 ^ 31).
    destruct (Z.ltb_spec v 0);
      [destruct (Z.ltb_spec (v + 2 ^ 32) (2 ^ 31))
      | destruct (Z.ltb_spec v (2 ^ 31))]; lia.
  - lia.
  - unfold in_unsigned. destruct (Z.ltb_spec v 0); lia.
Qed.

(** The two halves of a cell after a word has been stored at the index of
    its low half, or at the other index. *)
Lemma store_low_word (e : Endianness) (cell value : Z) :
  let cell' := store_word_at e (low_word_index e) cell value in
  cell' mod 2 ^ 32 = to_unsigned 32 value /\
  (cell' / 2 ^ 32) mod 2 ^ 32 = (cell / 2 ^ 32) mod 2 ^ 32.
Proof.
  cbv zeta. unfold store_word_at. rewrite Z.eqb_refl.
  destruct (to_signed_64_shift
              (to_unsigned 64 cell / 2 ^ 32 * 2 ^ 32 + to_unsigned 32 value))
    as [k ->].
  destruct (to_unsigned_64_shift cell) as [j Hj].
  pose proof (to_unsigned_range 32 value ltac:(lia)) as Hv.
  unfold in_unsigned in Hv.
  rewrite low_word_shift, high_word_shift. split.
  - rewrite Z.add_comm, Z_mod_plus_full. now apply Z.mod_small.
  - rewrite Z.add_comm, Z_div_plus_full by lia.
    rewrite (Z.div_small (to_unsigned 32 value)) by exact Hv.
    rewrite Z.add_0_l, Hj. apply high_word_shift.
Qed.

Lemma store_high_word (e : Endianness) (cell value : Z) :
  let cell' := store_word_at e (1 - low_word_index e) cell value in
  cell' mod 2 ^ 32 = cell mod 2 ^ 32 /\
  (cell' / 2 ^ 32) mod 2 ^ 32 = to_unsigned 32 value.
Proof.
  cbv zeta. unfold store_word_at.
  replace (1 - low_word_index e =? low_word_index e) with false
    by (now destruct e).
  destruct (to_signed_64_shift
              (to_unsigned 32 value * 2 ^ 32 + to_unsigned 64 cell mod 2 ^ 32))
    as [k ->].
  destruct (to_unsigned_64_shift cell) as [j Hj].
  pose proof (to_unsigned_range 32 value ltac:(lia)) as Hv.
  unfold in_unsigned in Hv.
  pose proof (Z.mod_pos_bound (to_unsigned 64 cell) (2 ^ 32) ltac:(lia)) as Hl.
  rewrite low_word_shift, high_word_shift. split.
  - rewrite Z.add_comm, Z_mod_plus_full, Z.mod_mod by lia.
    rewrite Hj. apply low_word_shift.
  - rewrite Z.add_comm, Z_div_plus_full by lia.
    rewrite Z.div_small by exact Hl. rewrite Z.add_0_l.
    now apply Z.mod_small.
Qed.

Section Words.

Variables kNumSimuRegisters pc kPCReadOffset kNumFPURegisters : Z.
Variable kArchEndian : Endianness.

#[local] Abbreviation well_formed := (well_formed kNumSimuRegisters kNumFPURegisters).

(** Writing integer register [i] leaves every other integer register and
    all floating-point registers as they were, keeps the sizes of the banks,
    and keeps the cell of register 0 at zero. *)
Theorem set_register_frame (s : Simulator) (i v j : Z) :
  well_formed s ->
  valid_reg kNumSimuRegisters i = true ->
  valid_reg kNumSimuRegisters j = true ->
  i <> j ->
  exists s',
    set_register kNumSimuRegisters pc s i v = Some s' /\
    get_register kNumSimuRegisters pc kPCReadOffset s' j
      = get_register kNumSimuRegisters pc kPCReadOffset s j /\
    FPUregisters_ s' = FPUregisters_ s /\
    well_formed s' /\
    (registers_ s !! 0%nat = Some 0 -> registers_ s' !! 0%nat = Some 0).
Proof.
  intros [Hlen Hflen] Hi Hj Hne.
  unfold set_register, get_register. rewrite Hi, Hj.
  eexists; split; [reflexivity |]. cbn [registers_ FPUregisters_].
  apply valid_reg_spec in Hi, Hj.
  split; [| split; [reflexivity | split]].
  - rewrite list_lookup_insert_ne by lia. reflexivity.
  - split; cbn [registers_ FPUregisters_]; [| exact Hflen].
    now rewrite length_insert.
  - intros Hzero. destruct (Z.eq_dec i 0) as [-> | Hnz].
    + cbn. apply list_lookup_insert_eq.
      change (Z.to_nat 0) with 0%nat. lia.
    + rewrite list_lookup_insert_ne by lia. exact Hzero.
Qed.

(** [set_fpu_register_word] replaces the low 32 bits of a cell and
    [set_fpu_register_hi_word] the high 32 bits, on a host of either byte
    order; the other half reads as before. *)
Theorem fpu_register_words (s : Simulator) (r v : Z) :
  well_formed s -> valid_fpureg kNumFPURegisters r = true ->
  in_signed 32 v ->
  (exists s',
     set_fpu_register_word kNumFPURegisters kArchEndian s r v = Some s' /\
     get_fpu_register_word kNumFPURegisters s' r = Some v /\
     get_fpu_register_hi_word kNumFPURegisters s' r
       = get_fpu_register_hi_word kNumFPURegisters s r) /\
  (exists s',
     set_fpu_register_hi_word kNumFPURegisters kArchEndian s r v = Some s' /\
     get_fpu_register_hi_word kNumFPURegisters s' r = Some v /\
     get_fpu_register_word kNumFPURegisters s' r
       = get_fpu_register_word kNumFPURegisters s r).
Proof.
  intros [_ Hlen] Hvalid Hv.
  assert (Hidx : (Z.to_nat r < length (FPUregisters_ s))%nat).
  { apply valid_fpureg_spec in Hvalid. eapply index_in_bounds; eauto. }
  destruct (lookup_lt_is_Some_2 _ _ Hidx) as [cell Hcell].
  unfold set_fpu_register_word, set_fpu_register_hi_word,
    get_fpu_register_word, get_fpu_register_hi_word,
    set_fpu_register, get_fpu_register.
  rewrite Hvalid, Hcell. cbn [mbind option_bind].
  split; eexists; (split; [reflexivity |]); cbn [FPUregisters_];
    rewrite list_lookup_insert_eq by exact Hidx; cbn [mbind option_bind];
    rewrite !high_word, !low_word.
  - destruct (store_low_word kArchEndian cell v) as [Hlow Hhigh].
    change (low_word_index kArchEndian)
      with (match kArchEndian with kLittle => 0 | kBig => 1 end) in Hlow, Hhigh.
    rewrite Hlow, Hhigh, to_signed_32_of_unsigned by exact Hv.
    split; reflexivity.
  - destruct (store_high_word kArchEndian cell v) as [Hlow Hhigh].
    replace (1 - low_word_index kArchEndian)
      with (match kArchEndian with kLittle => 1 | kBig => 0 end)
      in Hlow, Hhigh by (now destruct kArchEndian).
    rewrite Hlow, Hhigh, to_signed_32_of_unsigned by exact Hv.
    split; reflexivity.
Qed.

(** A float stored with [set_fpu_register_float] reads back through
    [get_fpu_register_double] as a quiet NaN whose low 32 bits are the
    float: the boxed value is not a number as a double. *)
Theorem boxed_float_is_nan_double (s : Simulator) (r f : Z) :
  well_formed s -> valid_fpureg kNumFPURegisters r = true ->
  in_unsigned 32 f ->
  exists s',
    set_fpu_register_float kNumFPURegisters s r f = Some s' /\
    get_fpu_register_double kNumFPURegisters s' r
      = Some (0xFFFFFFFF00000000 + f) /\
    IEEE.is_quiet_nan IEEE.binary64 (0xFFFFFFFF00000000 + f) = true /\
    get_fpu_register_hi_word kNumFPURegisters s' r = Some (-1).
Proof.
  intros [_ Hlen] Hvalid Hf.
  assert (Hidx : (Z.to_nat r < length (FPUregisters_ s))%nat).
  { apply valid_fpureg_spec in Hvalid. eapply index_in_bounds; eauto. }
  unfold set_fpu_register_float, get_fpu_register_double,
    get_fpu_register_hi_word, set_fpu_register, get_fpu_register.
  rewrite Hvalid. eexists; split; [reflexivity |]. cbn [FPUregisters_].
  rewrite list_lookup_insert_eq by exact Hidx. cbn [mbind option_bind].
  rewrite box_float_value by exact Hf.
  unfold in_unsigned in Hf. change (2 ^ 32) with 4294967296 in *.
  split; [| split].
  - f_equal. unfold to_unsigned. symmetry.
    apply (Z.mod_unique_pos _ _ (-1)); lia.
  - unfold IEEE.is_quiet_nan, IEEE.isnan, IEEE.exponent, IEEE.mantissa.
    cbn [IEEE.ebits IEEE.mbits IEEE.binary64].
    assert (Hdiv : (0xFFFFFFFF00000000 + f) / 2 ^ 52 = 4095).
    { symmetry. apply (Z.div_unique_pos _ _ _ (0xFFFFF00000000 + f)); lia. }
    assert (Hmod : (0xFFFFFFFF00000000 + f) mod 2 ^ 52 = 0xFFFFF00000000 + f).
    { symmetry. apply (Z.mod_unique_pos _ _ 4095); lia. }
    rewrite Hdiv, Hmod. change (4095 mod 2 ^ 11 =? 2 ^ 11 - 1) with true.
    replace (0xFFFFF00000000 + f =? 0) with false by (symmetry; lia).
    cbn [andb negb].
    rewrite Z.testbit_true by lia.
    assert (Hq : (0xFFFFFFFF00000000 + f) / 2 ^ (52 - 1) = 8191).
    { symmetry. apply (Z.div_unique_pos _ _ _ (0x7FFFF00000000 + f)); lia. }
    rewrite Hq. reflexivity.
  - f_equal. rewrite high_word.
    assert (Hq : (f - 4294967296) / 2 ^ 32 = -1).
    { symmetry. apply (Z.div_unique_pos _ _ _ f); lia. }
    rewrite Hq. reflexivity.
Qed.

End Words.

Lemma set_register_frame_witness :
  exists s',
    set_register 33 32 fresh 5 42 = Some s' /\
    get_register 33 32 0 s' 6 = get_register 33 32 0 fresh 6 /\
    FPUregisters_ s' = FPUregisters_ fresh /\
    well_formed 33 32 s' /\
    (registers_ fresh !! 0%nat = Some 0 -> registers_ s' !! 0%nat = Some 0).
Proof.
  apply (set_register_frame 33 32 0 32 fresh 5 42 6).
  - split; reflexivity.
  - reflexivity.
  - reflexivity.
  - lia.
Defined.

Lemma fpu_register_words_witness :
  (exists s',
     set_fpu_register_word 32 kLittle fresh 3 (-2) = Some s' /\
     get_fpu_register_word 32 s' 3 = Some (-2) /\
     get_fpu_register_hi_word 32 s' 3 = get_fpu_register_hi_word 32 fresh 3) /\
  (exists s',
     set_fpu_register_hi_word 32 kLittle fresh 3 (-2) = Some s' /\
     get_fpu_register_hi_word 32 s' 3 = Some (-2) /\
     get_fpu_register_word 32 s' 3 = get_fpu_register_word 32 fresh 3).
Proof.
  apply (fpu_register_words 33 32 kLittle fresh 3 (-2)).
  - split; reflexivity.
  - reflexivity.
  - unfold in_signed. simpl. lia.
Defined.

Lemma boxed_float_is_nan_double_witness :
  exists s',
    set_fpu_register_float 32 fresh 3 0x40A00000 = Some s' /\
    get_fpu_register_double 32 s' 3 = Some (0xFFFFFFFF00000000 + 0x40A00000) /\
    IEEE.is_quiet_nan IEEE.binary64 (0xFFFFFFFF00000000 + 0x40A00000) = true /\
    get_fpu_register_hi_word 32 s' 3 = Some (-1).
Proof.
  apply (boxed_float_is_nan_double 33 32 fresh 3 0x40A00000).
  - split; reflexivity.
  - reflexivity.
  - unfold in_unsigned. simpl. lia.
Defined.

End RegisterWords.

(** ** Control and status register *)

Module CsrFacts.
Import Int IntFacts Fpu Csr.

(** Bit by bit: the equation [Z.land v m = v] says that [v] lies within
    [m], and [Z.land m m' = 0] that two masks share no bit. *)
Lemma within_mask (v m n : Z) :
  Z.land v m = v -> Z.testbit v n = true -> Z.testbit m n = true.
Proof.
  intros Hv Hbit. rewrite <- Hv, Z.land_spec in Hbit.
  now apply andb_true_iff in Hbit.
Qed.

Lemma disjoint_masks (m m' n : Z) :
  Z.land m m' = 0 -> Z.testbit m n = true -> Z.testbit m' n = false.
Proof.
  intros Hm Hbit.
  pose proof (f_equal (fun z => Z.testbit z n) Hm) as H.
  cbn beta in H. rewrite Z.land_spec, Z.bits_0, Hbit in H. exact H.
Qed.

Ltac bitwise n Hn :=
  apply Z.bits_inj'; intros n Hn;
  repeat (rewrite Z.land_spec || rewrite Z.lor_spec
          || (rewrite Z.lnot_spec by exact Hn) || rewrite Z.bits_0).

Ltac bits_done :=
  cbn in *;
  repeat match goal with
    | H : true = true -> _ |- _ => specialize (H eq_refl)
    end;
  solve [reflexivity | congruence].

Section Fields.

Variables kFcsrFlagsMask kFcsrFrmMask kFcsrFrmShift kFcsrMask : Z.

#[local] Abbreviation read_csr_value :=
  (read_csr_value kFcsrFlagsMask kFcsrFrmMask kFcsrFrmShift kFcsrMask).
#[local] Abbreviation write_csr_value :=
  (write_csr_value kFcsrFlagsMask kFcsrFrmMask kFcsrFrmShift kFcsrMask).
#[local] Abbreviation set_csr_bits := (set_csr_bits kFcsrFrmShift).
#[local] Abbreviation clear_csr_bits := (clear_csr_bits kFcsrFrmShift).
#[local] Abbreviation test_fflags_bits := (test_fflags_bits kFcsrFlagsMask).

(** A value written to the flags field or to the rounding-mode field is
    read back from it, and the other field reads as before, when the value
    fits its field and the two masks share no bit. *)
Theorem csr_write_then_read (FCSR_ flags frm : Z) :
  Z.land kFcsrFlagsMask kFcsrFrmMask = 0 ->
  0 <= kFcsrFrmShift ->
  in_unsigned 32 flags -> Z.land flags kFcsrFlagsMask = flags ->
  in_unsigned 32 frm -> in_unsigned 32 (Z.shiftl frm kFcsrFrmShift) ->
  Z.land (Z.shiftl frm kFcsrFrmShift) kFcsrFrmMask = Z.shiftl frm kFcsrFrmShift ->
  read_csr_value (write_csr_value FCSR_ csr_fflags flags) csr_fflags = flags /\
  read_csr_value (write_csr_value FCSR_ csr_fflags flags) csr_frm
    = read_csr_value FCSR_ csr_frm /\
  read_csr_value (write_csr_value FCSR_ csr_frm frm) csr_frm = frm /\
  read_csr_value (write_csr_value FCSR_ csr_frm frm) csr_fflags
    = read_csr_value FCSR_ csr_fflags.
Proof.
  intros Hdisjoint Hshift Hflags Hfits Hfrm Hshifted Hfrmfits.
  unfold Csr.read_csr_value, Csr.write_csr_value.
  rewrite !(to_unsigned_id 32 flags) by exact Hflags.
  rewrite !(to_unsigned_id 32 frm) by exact Hfrm.
  rewrite !(to_unsigned_id 32 (Z.shiftl frm kFcsrFrmShift)) by exact Hshifted.
  split; [| split; [| split]].
  - bitwise n Hn.
    pose proof (within_mask flags kFcsrFlagsMask n Hfits).
    destruct (Z.testbit FCSR_ n), (Z.testbit kFcsrFlagsMask n),
      (Z.testbit flags n); bits_done.
  - f_equal. bitwise n Hn.
    pose proof (within_mask flags kFcsrFlagsMask n Hfits).
    pose proof (disjoint_masks kFcsrFlagsMask kFcsrFrmMask n Hdisjoint).
    destruct (Z.testbit FCSR_ n), (Z.testbit kFcsrFlagsMask n),
      (Z.testbit kFcsrFrmMask n), (Z.testbit flags n); bits_done.
  - transitivity (Z.shiftr (Z.shiftl frm kFcsrFrmShift) kFcsrFrmShift).
    + f_equal. bitwise n Hn.
      pose proof (within_mask _ kFcsrFrmMask n Hfrmfits).
      destruct (Z.testbit FCSR_ n), (Z.testbit kFcsrFrmMask n),
        (Z.testbit (Z.shiftl frm kFcsrFrmShift) n); bits_done.
    + rewrite Z.shiftr_shiftl_l by lia. now rewrite Z.sub_diag, Z.shiftl_0_r.
  - bitwise n Hn.
    pose proof (within_mask _ kFcsrFrmMask n Hfrmfits).
    pose proof (disjoint_masks kFcsrFlagsMask kFcsrFrmMask n Hdisjoint).
    destruct (Z.testbit FCSR_ n), (Z.testbit kFcsrFlagsMask n),
      (Z.testbit kFcsrFrmMask n), (Z.testbit (Z.shiftl frm kFcsrFrmShift) n); bits_done.
Qed.

(** Setting flags accumulates: the flags set are seen by
    [test_fflags_bits], every flag readable before is readable after, and
    the rounding mode is untouched; clearing the same flags makes the test
    fail again. *)
Theorem fflags_accumulate (FCSR_ flags : Z) :
  Z.land kFcsrFlagsMask kFcsrFrmMask = 0 ->
  in_unsigned 32 flags -> Z.land flags kFcsrFlagsMask = flags -> flags <> 0 ->
  test_fflags_bits (set_csr_bits FCSR_ csr_fflags flags) flags = true /\
  Z.land (read_csr_value FCSR_ csr_fflags)
         (read_csr_value (set_csr_bits FCSR_ csr_fflags flags) csr_fflags)
    = read_csr_value FCSR_ csr_fflags /\
  read_csr_value (set_csr_bits FCSR_ csr_fflags flags) csr_frm
    = read_csr_value FCSR_ csr_frm /\
  test_fflags_bits
    (clear_csr_bits (set_csr_bits FCSR_ csr_fflags flags) csr_fflags flags)
    flags = false.
Proof.
  intros Hdisjoint Hflags Hfits Hnz.
  unfold Csr.test_fflags_bits, Csr.read_csr_value, Csr.clear_csr_bits,
    Fpu.set_csr_bits.
  rewrite !(to_unsigned_id 32 flags) by exact Hflags.
  split; [| split; [| split]].
  - replace (Z.land (Z.land (Z.lor FCSR_ flags) kFcsrFlagsMask) flags)
      with flags; [now apply negb_true_iff, Z.eqb_neq |].
    bitwise n Hn.
    pose proof (within_mask flags kFcsrFlagsMask n Hfits).
    destruct (Z.testbit FCSR_ n), (Z.testbit kFcsrFlagsMask n),
      (Z.testbit flags n); bits_done.
  - bitwise n Hn.
    destruct (Z.testbit FCSR_ n), (Z.testbit kFcsrFlagsMask n),
      (Z.testbit flags n); bits_done.
  - f_equal. bitwise n Hn.
    pose proof (within_mask flags kFcsrFlagsMask n Hfits).
    pose proof (disjoint_masks kFcsrFlagsMask kFcsrFrmMask n Hdisjoint).
    destruct (Z.testbit FCSR_ n), (Z.testbit kFcsrFlagsMask n),
      (Z.testbit kFcsrFrmMask n), (Z.testbit flags n); bits_done.
  - apply negb_false_iff, Z.eqb_eq. bitwise n Hn.
    destruct (Z.testbit FCSR_ n), (Z.testbit kFcsrFlagsMask n),
      (Z.testbit flags n); bits_done.
Qed.

End Fields.

(** The constants of RISC-V: five flags in bits 0 to 4, the rounding mode
    in bits 5 to 7. *)
Lemma csr_write_then_read_witness :
  read_csr_value 0x1F 0xE0 5 0xFF (write_csr_value 0x1F 0xE0 5 0xFF 0x63 csr_fflags 0x11) csr_fflags
    = 0x11 /\
  read_csr_value 0x1F 0xE0 5 0xFF (write_csr_value 0x1F 0xE0 5 0xFF 0x63 csr_fflags 0x11) csr_frm
    = read_csr_value 0x1F 0xE0 5 0xFF 0x63 csr_frm /\
  read_csr_value 0x1F 0xE0 5 0xFF (write_csr_value 0x1F 0xE0 5 0xFF 0x63 csr_frm 4) csr_frm
    = 4 /\
  read_csr_value 0x1F 0xE0 5 0xFF (write_csr_value 0x1F 0xE0 5 0xFF 0x63 csr_frm 4) csr_fflags
    = read_csr_value 0x1F 0xE0 5 0xFF 0x63 csr_fflags.
Proof.
  apply (csr_write_then_read 0x1F 0xE0 5 0xFF 0x63 0x11 4);
    try reflexivity; try lia; unfold in_unsigned;
    try change (Z.shiftl 4 5) with 128; lia.
Defined.

Lemma fflags_accumulate_witness :
  test_fflags_bits 0x1F (set_csr_bits 5 0x61 csr_fflags 0x10) 0x10 = true /\
  Z.land (read_csr_value 0x1F 0xE0 5 0xFF 0x61 csr_fflags)
         (read_csr_value 0x1F 0xE0 5 0xFF (set_csr_bits 5 0x61 csr_fflags 0x10)
            csr_fflags)
    = read_csr_value 0x1F 0xE0 5 0xFF 0x61 csr_fflags /\
  read_csr_value 0x1F 0xE0 5 0xFF (set_csr_bits 5 0x61 csr_fflags 0x10) csr_frm
    = read_csr_value 0x1F 0xE0 5 0xFF 0x61 csr_frm /\
  test_fflags_bits 0x1F
    (clear_csr_bits 5 (set_csr_bits 5 0x61 csr_fflags 0x10) csr_fflags 0x10)
    0x10 = false.
Proof.
  apply (fflags_accumulate 0x1F 0xE0 5 0xFF 0x61 0x10);
    try reflexivity; try lia; unfold in_unsigned; simpl; lia.
Defined.

End CsrFacts.

(** ** Floating-point order: comparisons, minimum and maximum *)

Module FpuOrder.
Import Fpu FpuCompare.

(** Swapping the operands of a comparison mirrors its outcome. *)
Lemma SFcompare_antisym (a b : spec_float) :
  SFcompare b a = option_map CompOpp (SFcompare a b).
Proof.
  destruct a as [sa | sa | | sa ma ea], b as [sb | sb | | sb mb eb];
    try reflexivity; try (destruct sa; reflexivity); try (destruct sb; reflexivity);
    try (destruct sa, sb; reflexivity).
  cbn [SFcompare option_map].
  rewrite (Z.compare_antisym ea eb).
  pose proof (Pos.compare_cont_antisym ma mb Eq) as Hm. cbn [CompOpp] in Hm.
  destruct sa, sb; try reflexivity;
    destruct (ea ?= eb); cbn [CompOpp]; rewrite <- ?Hm, ?CompOpp_involutive;
    reflexivity.
Qed.

Lemma SFcompare_defined (a b : spec_float) :
  a <> S754_nan -> b <> S754_nan -> exists c, SFcompare a b = Some c.
Proof.
  intros Ha Hb.
  destruct a as [sa | sa | | sa ma ea], b as [sb | sb | | sb mb eb];
    try congruence; cbn [SFcompare]; eauto.
Qed.

Lemma SFcompare_refl (a : spec_float) :
  a <> S754_nan -> SFcompare a a = Some Eq.
Proof.
  intros Ha. destruct a as [sa | sa | | sa ma ea]; try congruence;
    cbn [SFcompare]; try (destruct sa; reflexivity).
  rewrite Z.compare_refl, Pos.compare_cont_refl. now destruct sa.
Qed.

(** The classification by bit fields and the decoded value agree. *)
Lemma to_spec_isnan (f : IEEE.format) (x : Z) :
  IEEE.isnan f x = true -> IEEE.to_spec f x = S754_nan.
Proof.
  unfold IEEE.isnan, IEEE.to_spec. intros H.
  apply andb_true_iff in H as [He Hm]. rewrite He.
  apply negb_true_iff in Hm. now rewrite Hm.
Qed.

Lemma to_spec_not_nan (f : IEEE.format) (x : Z) :
  0 <= IEEE.mbits f -> IEEE.isnan f x = false -> IEEE.to_spec f x <> S754_nan.
Proof.
  intros Hm. unfold IEEE.isnan, IEEE.to_spec.
  destruct (IEEE.exponent f x =? 2 ^ IEEE.ebits f - 1); cbn [andb].
  - intros H. apply negb_false_iff in H. now rewrite H.
  - intros _. destruct (IEEE.exponent f x =? 0).
    + now destruct (IEEE.mantissa f x).
    + assert (0 < IEEE.mantissa f x + 2 ^ IEEE.mbits f) as Hpos.
      { unfold IEEE.mantissa.
        pose proof (Z.pow_pos_nonneg 2 (IEEE.mbits f) ltac:(lia) Hm).
        pose proof (Z.mod_pos_bound x (2 ^ IEEE.mbits f) ltac:(lia)). lia. }
      destruct (IEEE.mantissa f x + 2 ^ IEEE.mbits f); [lia | discriminate | lia].
Qed.

Lemma mbits_nonneg (f : IEEE.format) :
  f = IEEE.binary32 \/ f = IEEE.binary64 -> 0 <= IEEE.mbits f.
Proof. intros [-> | ->]; cbn; lia. Qed.

(** [==] with a NaN on the left is false, so also with the signaling NaN. *)
Lemma feq_nan_l (f : IEEE.format) (n a : Z) :
  IEEE.to_spec f n = S754_nan -> IEEE.feq f n a = false.
Proof. intros Hn. unfold IEEE.feq, SFeqb. now rewrite Hn. Qed.

Lemma signaling_NaN_feq (f : IEEE.format) (a : Z) :
  f = IEEE.binary32 \/ f = IEEE.binary64 ->
  IEEE.feq f (IEEE.signaling_NaN f) a = false.
Proof. intros [-> | ->]; now apply feq_nan_l. Qed.

Lemma feq_signaling_NaN_r (f : IEEE.format) (a : Z) :
  f = IEEE.binary32 \/ f = IEEE.binary64 ->
  IEEE.feq f a (IEEE.signaling_NaN f) = false.
Proof.
  intros Hf. unfold IEEE.feq, SFeqb.
  replace (IEEE.to_spec f (IEEE.signaling_NaN f)) with S754_nan
    by now destruct Hf as [-> | ->].
  now destruct (IEEE.to_spec f a).
Qed.

(** The outcome of comparing two operands that are no NaN. *)
Lemma compare_defined (f : IEEE.format) (a b : Z) :
  f = IEEE.binary32 \/ f = IEEE.binary64 ->
  IEEE.isnan f a = false -> IEEE.isnan f b = false ->
  exists c,
    SFcompare (IEEE.to_spec f a) (IEEE.to_spec f b) = Some c /\
    SFcompare (IEEE.to_spec f b) (IEEE.to_spec f a) = Some (CompOpp c).
Proof.
  intros Hf Ha Hb.
  destruct (SFcompare_defined (IEEE.to_spec f a) (IEEE.to_spec f b)) as [c Hc];
    try (apply to_spec_not_nan; [now apply mbits_nonneg | assumption]).
  exists c. split; [exact Hc |].
  now rewrite SFcompare_antisym, Hc.
Qed.

Lemma flt_irrefl (f : IEEE.format) (a : Z) : IEEE.flt f a a = false.
Proof.
  unfold IEEE.flt, SFltb.
  destruct (IEEE.to_spec f a) as [sa | sa | | sa ma ea] eqn:E;
    cbn [SFcompare]; try (destruct sa; reflexivity); try reflexivity.
  rewrite Z.compare_refl, Pos.compare_cont_refl. now destruct sa.
Qed.

(** *** Invalid operations *)

Lemma isnan_not_isinf (f : IEEE.format) (x : Z) :
  IEEE.isnan f x = true -> IEEE.isinf f x = false.
Proof.
  unfold IEEE.isnan, IEEE.isinf. intros H.
  apply andb_true_iff in H as [_ Hm]. apply negb_true_iff in Hm.
  rewrite Hm. apply andb_false_r.
Qed.

Lemma feq_nan_right (f : IEEE.format) (a n : Z) :
  IEEE.isnan f n = true -> IEEE.feq f a n = false.
Proof.
  intros Hn. unfold IEEE.feq, SFeqb. rewrite (to_spec_isnan f n Hn).
  now destruct (IEEE.to_spec f a).
Qed.

Lemma feq_sym (f : IEEE.format) (a b : Z) : IEEE.feq f a b = IEEE.feq f b a.
Proof.
  unfold IEEE.feq, SFeqb.
  rewrite (SFcompare_antisym (IEEE.to_spec f a) (IEEE.to_spec f b)).
  now destruct (SFcompare _ _) as [[] |].
Qed.

(** The predicates that tell an invalid multiplication, addition,
    subtraction, division and square root never hold when an operand is a
    NaN, signaling or quiet.  Addition and subtraction are not both invalid,
    and one of them is exactly when both operands are infinite; the
    predicates of multiplication and division are symmetric. *)
Theorem invalid_operation_predicates (f : IEEE.format) (a b : Z) :
  (IEEE.isnan f a || IEEE.isnan f b = true ->
   FpuInvalid.is_invalid_fmul f a b = false /\
   FpuInvalid.is_invalid_fadd f a b = false /\
   FpuInvalid.is_invalid_fsub f a b = false /\
   FpuInvalid.is_invalid_fdiv f a b = false) /\
  (IEEE.isnan f a = true -> FpuInvalid.is_invalid_fsqrt f a = false) /\
  FpuInvalid.is_invalid_fadd f a b && FpuInvalid.is_invalid_fsub f a b = false /\
  FpuInvalid.is_invalid_fadd f a b || FpuInvalid.is_invalid_fsub f a b
    = IEEE.isinf f a && IEEE.isinf f b /\
  FpuInvalid.is_invalid_fmul f a b = FpuInvalid.is_invalid_fmul f b a /\
  FpuInvalid.is_invalid_fdiv f a b = FpuInvalid.is_invalid_fdiv f b a.
Proof.
  unfold FpuInvalid.is_invalid_fmul, FpuInvalid.is_invalid_fadd,
    FpuInvalid.is_invalid_fsub, FpuInvalid.is_invalid_fdiv,
    FpuInvalid.is_invalid_fsqrt.
  split; [| split; [| split; [| split; [| split]]]].
  - intros H. apply orb_true_iff in H as [Ha | Hb].
    + rewrite (isnan_not_isinf f a Ha), (feq_nan_l f a 0 (to_spec_isnan f a Ha)).
      cbn [andb orb]. now rewrite ?andb_false_r.
    + rewrite (isnan_not_isinf f b Hb), (feq_nan_l f b 0 (to_spec_isnan f b Hb)).
      rewrite ?andb_false_r. cbn [andb orb]. now rewrite ?andb_false_r.
  - intros Ha. unfold IEEE.flt, SFltb. now rewrite (to_spec_isnan f a Ha).
  - destruct (IEEE.isinf f a), (IEEE.isinf f b),
      (Bool.eqb (IEEE.signbit f a) (IEEE.signbit f b)); reflexivity.
  - destruct (IEEE.isinf f a), (IEEE.isinf f b),
      (Bool.eqb (IEEE.signbit f a) (IEEE.signbit f b)); reflexivity.
  - destruct (IEEE.isinf f a), (IEEE.isinf f b), (IEEE.feq f a 0),
      (IEEE.feq f b 0); reflexivity.
  - destruct (IEEE.isinf f a), (IEEE.isinf f b), (IEEE.feq f a 0),
      (IEEE.feq f b 0); reflexivity.
Qed.

Section Flags.

Variables kFcsrFrmShift kInvalidOperation : Z.

#[local] Abbreviation CompareFHelper :=
  (CompareFHelper kFcsrFrmShift kInvalidOperation).
#[local] Abbreviation FMaxMinHelper :=
  (FMaxMinHelper kFcsrFrmShift kInvalidOperation).

(** With a NaN operand, quiet or signaling, the signaling comparisons [LT]
    and [LE] are false and OR the flag of an invalid operation into [FCSR_];
    [EQ] is false and [NE] is true, and they leave [FCSR_] as it was: their
    test for a signaling NaN compares with [==], which never holds. *)
Theorem CompareFHelper_nan (f : IEEE.format) (FCSR_ a b : Z) :
  f = IEEE.binary32 \/ f = IEEE.binary64 ->
  IEEE.isnan f a || IEEE.isnan f b = true ->
  CompareFHelper f FCSR_ a b LT
    = Rvv.Ok (false, Z.lor FCSR_ (Int.to_unsigned 32 kInvalidOperation)) /\
  CompareFHelper f FCSR_ a b LE
    = Rvv.Ok (false, Z.lor FCSR_ (Int.to_unsigned 32 kInvalidOperation)) /\
  CompareFHelper f FCSR_ a b EQ = Rvv.Ok (false, FCSR_) /\
  CompareFHelper f FCSR_ a b NE = Rvv.Ok (true, FCSR_).
Proof.
  intros Hf Hnan. unfold FpuCompare.CompareFHelper.
  rewrite Hnan, !signaling_NaN_feq by exact Hf.
  repeat split.
Qed.

(** On operands that are no NaN the four comparisons leave [FCSR_] as it
    was and agree with one order: exactly one of [a < b], [a == b] and
    [b < a] holds, [LE] is [LT] or [EQ], [NE] is the negation of [EQ], [EQ]
    is symmetric, and [b <= a] is the negation of [a < b]. *)
Theorem CompareFHelper_ordered (f : IEEE.format) (FCSR_ a b : Z) :
  f = IEEE.binary32 \/ f = IEEE.binary64 ->
  IEEE.isnan f a = false -> IEEE.isnan f b = false ->
  exists lt eq gt : bool,
    CompareFHelper f FCSR_ a b LT = Rvv.Ok (lt, FCSR_) /\
    CompareFHelper f FCSR_ a b EQ = Rvv.Ok (eq, FCSR_) /\
    CompareFHelper f FCSR_ b a LT = Rvv.Ok (gt, FCSR_) /\
    CompareFHelper f FCSR_ a b LE = Rvv.Ok (lt || eq, FCSR_) /\
    CompareFHelper f FCSR_ a b NE = Rvv.Ok (negb eq, FCSR_) /\
    CompareFHelper f FCSR_ b a EQ = Rvv.Ok (eq, FCSR_) /\
    CompareFHelper f FCSR_ b a LE = Rvv.Ok (negb lt, FCSR_) /\
    ((lt, eq, gt) = (true, false, false)
     \/ (lt, eq, gt) = (false, true, false)
     \/ (lt, eq, gt) = (false, false, true)).
Proof.
  intros Hf Ha Hb.
  destruct (compare_defined f a b Hf Ha Hb) as (c & Hab & Hba).
  exists (IEEE.flt f a b), (IEEE.feq f a b), (IEEE.flt f b a).
  unfold FpuCompare.CompareFHelper.
  rewrite Ha, Hb, !signaling_NaN_feq by exact Hf. cbn [orb].
  unfold fle, IEEE.flt, IEEE.feq, SFleb, SFltb, SFeqb. rewrite Hab, Hba.
  destruct c; cbn [CompOpp negb orb]; repeat split; auto.
Qed.

(** [FMaxMinHelper] never changes [FCSR_]: the flag of an invalid operation
    is not set, whatever the operands are. *)
Theorem FMaxMinHelper_no_flag
    (f : IEEE.format) (FCSR_ a b : Z) (kind : MaxMinKind) :
  f = IEEE.binary32 \/ f = IEEE.binary64 ->
  snd (FMaxMinHelper f FCSR_ a b kind) = FCSR_.
Proof.
  intros Hf. unfold Fpu.FMaxMinHelper. cbn [snd].
  now rewrite !feq_signaling_NaN_r by exact Hf.
Qed.

(** On operands that are no NaN, [FMaxMinHelper] returns one of them; no
    operand is above the maximum, none is below the minimum; and of two
    operands that compare equal, as the two zeros do, the maximum has the
    sign bit only when both have it, the minimum when one has it. *)
Theorem FMaxMinHelper_ordered
    (f : IEEE.format) (FCSR_ a b : Z) (kind : MaxMinKind) :
  f = IEEE.binary32 \/ f = IEEE.binary64 ->
  IEEE.isnan f a = false -> IEEE.isnan f b = false ->
  (fst (FMaxMinHelper f FCSR_ a b kind) = a
   \/ fst (FMaxMinHelper f FCSR_ a b kind) = b) /\
  match kind with
  | kMax =>
      IEEE.flt f (fst (FMaxMinHelper f FCSR_ a b kind)) a = false /\
      IEEE.flt f (fst (FMaxMinHelper f FCSR_ a b kind)) b = false
  | kMin =>
      IEEE.flt f a (fst (FMaxMinHelper f FCSR_ a b kind)) = false /\
      IEEE.flt f b (fst (FMaxMinHelper f FCSR_ a b kind)) = false
  end /\
  (IEEE.feq f a b = true ->
   IEEE.signbit f (fst (FMaxMinHelper f FCSR_ a b kind))
     = match kind with
       | kMax => IEEE.signbit f a && IEEE.signbit f b
       | kMin => IEEE.signbit f a || IEEE.signbit f b
       end).
Proof.
  intros Hf Ha Hb.
  destruct (compare_defined f a b Hf Ha Hb) as (c & Hab & Hba).
  assert (IEEE.flt f a b = match c with Lt => true | _ => false end) as Hlt
    by (unfold IEEE.flt, SFltb; now rewrite Hab).
  assert (IEEE.flt f b a = match c with Gt => true | _ => false end) as Hgt
    by (unfold IEEE.flt, SFltb; rewrite Hba; now destruct c).
  assert (IEEE.feq f a b = match c with Eq => true | _ => false end) as Heq
    by (unfold IEEE.feq, SFeqb; now rewrite Hab).
  assert (IEEE.feq f b a = match c with Eq => true | _ => false end) as Heq'
    by (unfold IEEE.feq, SFeqb; rewrite Hba; now destruct c).
  unfold Fpu.FMaxMinHelper, IEEE.fmax, IEEE.fmin. cbn [fst].
  rewrite Ha, Hb, Heq', Heq, Hlt, Hgt. cbn [andb].
  destruct kind, c; try destruct (IEEE.signbit f b) eqn:Sb;
    rewrite ?flt_irrefl, ?Hlt, ?Hgt, ?Sb;
    repeat split; auto; try discriminate;
    intros _; rewrite ?Sb; now destruct (IEEE.signbit f a).
Qed.

End Flags.

(** A signaling NaN against 5.0, on floats. *)
Lemma CompareFHelper_nan_witness :
  CompareFHelper 5 16 IEEE.binary32 0 (IEEE.signaling_NaN IEEE.binary32)
    0x40A00000 LT = Rvv.Ok (false, Z.lor 0 (Int.to_unsigned 32 16)) /\
  CompareFHelper 5 16 IEEE.binary32 0 (IEEE.signaling_NaN IEEE.binary32)
    0x40A00000 LE = Rvv.Ok (false, Z.lor 0 (Int.to_unsigned 32 16)) /\
  CompareFHelper 5 16 IEEE.binary32 0 (IEEE.signaling_NaN IEEE.binary32)
    0x40A00000 EQ = Rvv.Ok (false, 0) /\
  CompareFHelper 5 16 IEEE.binary32 0 (IEEE.signaling_NaN IEEE.binary32)
    0x40A00000 NE = Rvv.Ok (true, 0).
Proof.
  apply (CompareFHelper_nan 5 16 IEEE.binary32 0
           (IEEE.signaling_NaN IEEE.binary32) 0x40A00000);
    [left; reflexivity | reflexivity].
Defined.

(** -2.5 against 5.0, on doubles. *)
Lemma CompareFHelper_ordered_witness :
  exists lt eq gt : bool,
    CompareFHelper 5 16 IEEE.binary64 0 0xC004000000000000 0x4014000000000000 LT
      = Rvv.Ok (lt, 0) /\
    CompareFHelper 5 16 IEEE.binary64 0 0xC004000000000000 0x4014000000000000 EQ
      = Rvv.Ok (eq, 0) /\
    CompareFHelper 5 16 IEEE.binary64 0 0x4014000000000000 0xC004000000000000 LT
      = Rvv.Ok (gt, 0) /\
    CompareFHelper 5 16 IEEE.binary64 0 0xC004000000000000 0x4014000000000000 LE
      = Rvv.Ok (lt || eq, 0) /\
    CompareFHelper 5 16 IEEE.binary64 0 0xC004000000000000 0x4014000000000000 NE
      = Rvv.Ok (negb eq, 0) /\
    CompareFHelper 5 16 IEEE.binary64 0 0x4014000000000000 0xC004000000000000 EQ
      = Rvv.Ok (eq, 0) /\
    CompareFHelper 5 16 IEEE.binary64 0 0x4014000000000000 0xC004000000000000 LE
      = Rvv.Ok (negb lt, 0) /\
    ((lt, eq, gt) = (true, false, false)
     \/ (lt, eq, gt) = (false, true, false)
     \/ (lt, eq, gt) = (false, false, true)).
Proof.
  apply (CompareFHelper_ordered 5 16 IEEE.binary64 0
           0xC004000000000000 0x4014000000000000);
    [right; reflexivity | reflexivity | reflexivity].
Defined.

Lemma FMaxMinHelper_no_flag_witness :
  snd (FMaxMinHelper 5 16 IEEE.binary64 0
         (IEEE.signaling_NaN IEEE.binary64) 0x4014000000000000 kMin) = 0.
Proof.
  apply (FMaxMinHelper_no_flag 5 16 IEEE.binary64 0
           (IEEE.signaling_NaN IEEE.binary64) 0x4014000000000000 kMin).
  right; reflexivity.
Defined.

(** The maximum of -0.0 and 0.0, on floats. *)
Lemma FMaxMinHelper_ordered_witness :
  (fst (FMaxMinHelper 5 16 IEEE.binary32 0 0x80000000 0 kMax) = 0x80000000
   \/ fst (FMaxMinHelper 5 16 IEEE.binary32 0 0x80000000 0 kMax) = 0) /\
  (IEEE.flt IEEE.binary32
     (fst (FMaxMinHelper 5 16 IEEE.binary32 0 0x80000000 0 kMax)) 0x80000000
     = false /\
   IEEE.flt IEEE.binary32
     (fst (FMaxMinHelper 5 16 IEEE.binary32 0 0x80000000 0 kMax)) 0 = false) /\
  (IEEE.feq IEEE.binary32 0x80000000 0 = true ->
   IEEE.signbit IEEE.binary32
     (fst (FMaxMinHelper 5 16 IEEE.binary32 0 0x80000000 0 kMax))
     = IEEE.signbit IEEE.binary32 0x80000000 && IEEE.signbit IEEE.binary32 0).
Proof.
  apply (FMaxMinHelper_ordered 5 16 IEEE.binary32 0 0x80000000 0 kMax);
    [left; reflexivity | reflexivity | reflexivity].
Defined.

End FpuOrder.

(** ** Monitors of several cores *)

Module MonitorFacts.
Import Atomics.

#[local] Abbreviation linked := GlobalMonitor.IsProcessorInLinkedList_Locked.

Lemma linked_In (g : GlobalMonitor.t) (p : nat) :
  linked g p = true <-> In p (GlobalMonitor.head_ g).
Proof.
  unfold GlobalMonitor.IsProcessorInLinkedList_Locked.
  rewrite existsb_exists. split.
  - intros (x & Hx & E). apply Nat.eqb_eq in E. now subst.
  - intros H. exists p. split; [exact H | apply Nat.eqb_refl].
Qed.

(** The loop of [NotifyStore_Locked] keeps the list and leaves every linked
    object open. *)
Lemma notify_store_head (l : list nat) (g : GlobalMonitor.t) :
  GlobalMonitor.head_
    (fold_left
       (fun g' iter =>
          GlobalMonitor.update g' iter
            (LinkedAddress.NotifyStore_Locked (GlobalMonitor.objects g' iter)))
       l g)
  = GlobalMonitor.head_ g.
Proof.
  revert g. induction l as [| a l IH]; intros g; [reflexivity |].
  cbn [fold_left]. now rewrite IH.
Qed.

Lemma notify_store_open (l : list nat) (g : GlobalMonitor.t) (q : nat) :
  In q l \/
  LinkedAddress.access_state_ (GlobalMonitor.objects g q) = MonitorAccess.Open ->
  LinkedAddress.access_state_
    (GlobalMonitor.objects
       (fold_left
          (fun g' iter =>
             GlobalMonitor.update g' iter
               (LinkedAddress.NotifyStore_Locked (GlobalMonitor.objects g' iter)))
          l g) q)
  = MonitorAccess.Open.
Proof.
  revert g. induction l as [| a l IH]; intros g H.
  - destruct H as [[] | H]. exact H.
  - cbn [fold_left]. apply IH.
    cbn [GlobalMonitor.objects GlobalMonitor.update].
    destruct (Nat.eqb_spec q a) as [-> | Hne].
    + right. unfold LinkedAddress.NotifyStore_Locked.
      now destruct (LinkedAddress.access_state_ (GlobalMonitor.objects g a)) eqn:E.
    + destruct H as [[E | Hin] | Hopen]; [congruence | now left | now right].
Qed.

Section StoreConditional.

Variables kMaxFailureCounter kExclusiveTaggedAddrMask : Z.

#[local] Abbreviation RO_SC_W := (RO_SC_W kMaxFailureCounter kExclusiveTaggedAddrMask).
#[local] Abbreviation RO_SC_D := (RO_SC_D kMaxFailureCounter kExclusiveTaggedAddrMask).
#[local] Abbreviation sc_w := (Cores.sc_w kMaxFailureCounter kExclusiveTaggedAddrMask).
#[local] Abbreviation sc_d := (Cores.sc_d kMaxFailureCounter kExclusiveTaggedAddrMask).

Lemma notify_others_head (l : list nat) (g : GlobalMonitor.t) (p : nat)
    (addr : Z) :
  GlobalMonitor.head_
    (fold_left
       (fun g' iter =>
          if Nat.eqb iter p then g'
          else
            GlobalMonitor.update g' iter
              (fst (LinkedAddress.NotifyStoreConditional_Locked
                      kMaxFailureCounter kExclusiveTaggedAddrMask
                      (GlobalMonitor.objects g' iter) addr false)))
       l g)
  = GlobalMonitor.head_ g.
Proof.
  revert g. induction l as [| a l IH]; intros g; [reflexivity |].
  cbn [fold_left]. rewrite IH. now destruct (Nat.eqb a p).
Qed.

(** The global monitor's answer keeps the list of linked processors. *)
Lemma global_sc_head (g g' : GlobalMonitor.t) (addr : Z) (p : nat) (ok : bool) :
  GlobalMonitor.NotifyStoreConditional_Locked
    kMaxFailureCounter kExclusiveTaggedAddrMask g addr p = Some (g', ok) ->
  GlobalMonitor.head_ g' = GlobalMonitor.head_ g.
Proof.
  unfold GlobalMonitor.NotifyStoreConditional_Locked.
  destruct (GlobalMonitor.IsProcessorInLinkedList_Locked g p); [| discriminate].
  destruct (LinkedAddress.NotifyStoreConditional_Locked _ _ _ _ _) as [l [|]];
    intros [= <- <-]; [| reflexivity].
  now rewrite notify_others_head.
Qed.

(** A store-conditional that succeeds ends with [NotifyStore_Locked] on a
    monitor that has the list it started with. *)
Lemma sc_w_success_global (s s' : Simulator) (addr : Z) :
  RO_SC_W s addr = Some (s', true) ->
  exists g,
    GlobalMonitor.head_ g = GlobalMonitor.head_ (global s) /\
    global s' = GlobalMonitor.NotifyStore_Locked g (global_monitor_thread_ s).
Proof.
  unfold Atomics.RO_SC_W.
  destruct (LocalMonitor.NotifyStoreConditional _ _ _) as [lm [|]];
    [| discriminate].
  destruct (GlobalMonitor.NotifyStoreConditional_Locked _ _ _ _ _)
    as [[g [|]] |] eqn:E; try discriminate.
  intros [= <-]. exists g. split; [| reflexivity].
  exact (global_sc_head _ _ _ _ _ E).
Qed.

Lemma sc_d_success_global (s s' : Simulator) (addr : Z) :
  RO_SC_D s addr = Some (s', true) ->
  exists g,
    GlobalMonitor.head_ g = GlobalMonitor.head_ (global s) /\
    global s' = GlobalMonitor.NotifyStore_Locked g (global_monitor_thread_ s).
Proof.
  unfold Atomics.RO_SC_D.
  destruct (LocalMonitor.NotifyStoreConditional _ _ _) as [lm [|]];
    [| discriminate].
  destruct (GlobalMonitor.NotifyStoreConditional_Locked _ _ _ _ _)
    as [[g [|]] |] eqn:E; try discriminate.
  intros [= <-]. exists g. split; [| reflexivity].
  exact (global_sc_head _ _ _ _ _ E).
Qed.

(** A store-conditional of a linked core whose object in the global monitor
    is open fails, whatever its local monitor holds. *)
Lemma sc_w_on_open_object (s : Simulator) (addr : Z) :
  linked (global s) (global_monitor_thread_ s) = true ->
  LinkedAddress.access_state_
    (GlobalMonitor.objects (global s) (global_monitor_thread_ s))
    = MonitorAccess.Open ->
  exists s', RO_SC_W s addr = Some (s', false).
Proof.
  intros Hin Hopen. unfold Atomics.RO_SC_W.
  destruct (LocalMonitor.NotifyStoreConditional _ _ _) as [lm [|]];
    [| eauto].
  unfold GlobalMonitor.NotifyStoreConditional_Locked,
    LinkedAddress.NotifyStoreConditional_Locked.
  rewrite Hin, Hopen. eauto.
Qed.

Lemma sc_d_on_open_object (s : Simulator) (addr : Z) :
  linked (global s) (global_monitor_thread_ s) = true ->
  LinkedAddress.access_state_
    (GlobalMonitor.objects (global s) (global_monitor_thread_ s))
    = MonitorAccess.Open ->
  exists s', RO_SC_D s addr = Some (s', false).
Proof.
  intros Hin Hopen. unfold Atomics.RO_SC_D.
  destruct (LocalMonitor.NotifyStoreConditional _ _ _) as [lm [|]];
    [| eauto].
  unfold GlobalMonitor.NotifyStoreConditional_Locked,
    LinkedAddress.NotifyStoreConditional_Locked.
  rewrite Hin, Hopen. eauto.
Qed.

(** What a successful store-conditional of core [p] leaves in the shared
    monitor. *)
Lemma success_clears (m m3 : Cores.t) (p q : nat) (addr : Z) :
  sc_w m p addr = Some (m3, true) \/ sc_d m p addr = Some (m3, true) ->
  linked (Cores.global_monitor m) q = true ->
  linked (Cores.global_monitor m3) q = true /\
  LinkedAddress.access_state_
    (GlobalMonitor.objects (Cores.global_monitor m3) q) = MonitorAccess.Open.
Proof.
  intros Hsc Hq.
  assert (exists g,
            GlobalMonitor.head_ g = GlobalMonitor.head_ (Cores.global_monitor m) /\
            Cores.global_monitor m3 = GlobalMonitor.NotifyStore_Locked g p)
    as (g & Hhead & ->).
  { destruct Hsc as [Hsc | Hsc];
      [unfold Cores.sc_w in Hsc | unfold Cores.sc_d in Hsc].
    - destruct (RO_SC_W (Cores.core m p) addr) as [[s ok] |] eqn:E;
        [| discriminate].
      injection Hsc as <- ->.
      exact (sc_w_success_global _ _ _ E).
    - destruct (RO_SC_D (Cores.core m p) addr) as [[s ok] |] eqn:E;
        [| discriminate].
      injection Hsc as <- ->.
      exact (sc_d_success_global _ _ _ E). }
  apply linked_In in Hq. rewrite <- Hhead in Hq.
  unfold GlobalMonitor.NotifyStore_Locked. split.
  - apply linked_In. now rewrite notify_store_head.
  - apply notify_store_open. now left.
Qed.

(** A store-conditional that succeeds on one core ends every reservation in
    the shared monitor, whatever address it was for: the object of each
    linked core is left open, so the next store-conditional of any linked
    core fails, at any address and of either width. *)
Theorem successful_sc_ends_all_reservations
    (m m3 : Cores.t) (p q : nat) (addr addr' : Z) :
  sc_w m p addr = Some (m3, true) \/ sc_d m p addr = Some (m3, true) ->
  linked (Cores.global_monitor m) q = true ->
  LinkedAddress.access_state_
    (GlobalMonitor.objects (Cores.global_monitor m3) q) = MonitorAccess.Open /\
  (exists m4, sc_w m3 q addr' = Some (m4, false)) /\
  (exists m4, sc_d m3 q addr' = Some (m4, false)).
Proof.
  intros Hsc Hq.
  destruct (success_clears m m3 p q addr Hsc Hq) as [Hin Hopen].
  split; [exact Hopen |]. split.
  - destruct (sc_w_on_open_object (Cores.core m3 q) addr' Hin Hopen) as [s' E].
    unfold Cores.sc_w. rewrite E. eauto.
  - destruct (sc_d_on_open_object (Cores.core m3 q) addr' Hin Hopen) as [s' E].
    unfold Cores.sc_d. rewrite E. eauto.
Qed.

(** A store-conditional that fails on the address or on the width does not
    use up the reservation: after [lr.w] at [addr], an [sc.w] elsewhere and
    an [sc.d] at [addr] fail and leave the state as it was, and the [sc.w]
    at [addr] can still succeed. *)
Theorem mismatched_sc_keeps_reservation (s : Simulator) (addr addr' : Z) :
  addr' <> addr ->
  own_counter s < kMaxFailureCounter ->
  RO_SC_W (RO_LR_W s addr) addr' = Some (RO_LR_W s addr, false) /\
  RO_SC_D (RO_LR_W s addr) addr = Some (RO_LR_W s addr, false) /\
  exists s2, RO_SC_W (RO_LR_W s addr) addr = Some (s2, true).
Proof.
  intros Hne Hcount. split; [| split].
  - apply AtomicsFacts.sc_w_mismatch. now left.
  - apply AtomicsFacts.sc_d_mismatch. right. cbn. discriminate.
  - destruct (AtomicsFacts.sc_w_after_lr_w
                kMaxFailureCounter kExclusiveTaggedAddrMask s addr)
      as (s2 & E & _).
    exists s2. rewrite E. f_equal. f_equal. now apply Z.ltb_lt.
Qed.

End StoreConditional.

(** Unlinking a processor. *)
Lemma unlink_In (p q : nat) (l : list nat) :
  In q (GlobalMonitor.unlink p l) -> In q l.
Proof.
  induction l as [| a l IH]; cbn [GlobalMonitor.unlink]; [easy |].
  destruct (Nat.eqb a p); cbn [In]; tauto.
Qed.

Lemma unlink_other (p q : nat) (l : list nat) :
  q <> p -> In q l -> In q (GlobalMonitor.unlink p l).
Proof.
  intros Hne. induction l as [| a l IH]; cbn [GlobalMonitor.unlink]; [easy |].
  destruct (Nat.eqb_spec a p) as [-> | Ha]; cbn [In]; intros [E | H];
    try congruence; auto.
Qed.

Lemma unlink_NoDup (p : nat) (l : list nat) :
  NoDup l -> NoDup (GlobalMonitor.unlink p l) /\ ~ In p (GlobalMonitor.unlink p l).
Proof.
  induction 1 as [| a l Ha Hl [IH1 IH2]]; cbn [GlobalMonitor.unlink].
  - split; [constructor | easy].
  - rewrite list_elem_of_In in Ha.
    destruct (Nat.eqb_spec a p) as [-> | Hne].
    + now split.
    + split.
      * constructor; [| exact IH1]. rewrite list_elem_of_In.
        intros H. apply Ha. exact (unlink_In _ _ _ H).
      * cbn [In]. tauto.
Qed.

Lemma linked_false (g : GlobalMonitor.t) (p : nat) :
  linked g p = false <-> ~ In p (GlobalMonitor.head_ g).
Proof.
  rewrite <- linked_In. now destruct (linked g p).
Qed.

(** [PrependProcessor_Locked] and [RemoveLinkedAddress] keep the list free
    of repetitions.  After [RemoveLinkedAddress] the processor is not linked
    and every other processor is linked as before; a store-conditional of
    the removed processor stops at the [DCHECK]; and removing a processor
    right after linking it restores the list. *)
Theorem RemoveLinkedAddress_unlinks
    (kMaxFailureCounter kExclusiveTaggedAddrMask : Z)
    (g : GlobalMonitor.t) (p : nat) (addr : Z) :
  NoDup (GlobalMonitor.head_ g) ->
  NoDup (GlobalMonitor.head_ (GlobalMonitor.PrependProcessor_Locked g p)) /\
  NoDup (GlobalMonitor.head_ (GlobalMonitor.RemoveLinkedAddress g p)) /\
  linked (GlobalMonitor.RemoveLinkedAddress g p) p = false /\
  (forall q, q <> p ->
     linked (GlobalMonitor.RemoveLinkedAddress g p) q = linked g q) /\
  GlobalMonitor.NotifyStoreConditional_Locked
    kMaxFailureCounter kExclusiveTaggedAddrMask
    (GlobalMonitor.RemoveLinkedAddress g p) addr p = None /\
  (linked g p = false ->
   GlobalMonitor.head_
     (GlobalMonitor.RemoveLinkedAddress
        (GlobalMonitor.PrependProcessor_Locked g p) p)
   = GlobalMonitor.head_ g).
Proof.
  intros Hnd.
  assert (linked (GlobalMonitor.RemoveLinkedAddress g p) p = false) as Hout.
  { unfold GlobalMonitor.RemoveLinkedAddress.
    destruct (linked g p) eqn:E; cbn [negb]; [| exact E].
    apply linked_false. cbn [GlobalMonitor.head_].
    now apply unlink_NoDup. }
  split; [| split; [| split; [exact Hout | split; [| split]]]].
  - unfold GlobalMonitor.PrependProcessor_Locked.
    destruct (linked g p) eqn:E; [exact Hnd |].
    cbn [GlobalMonitor.head_]. constructor; [| exact Hnd].
    rewrite list_elem_of_In. now apply linked_false.
  - unfold GlobalMonitor.RemoveLinkedAddress.
    destruct (linked g p); cbn [negb GlobalMonitor.head_]; [| exact Hnd].
    now apply unlink_NoDup.
  - intros q Hq. unfold GlobalMonitor.RemoveLinkedAddress.
    destruct (linked g p); cbn [negb]; [| reflexivity].
    apply eq_true_iff_eq. rewrite !linked_In. cbn [GlobalMonitor.head_].
    split; [apply unlink_In | now apply unlink_other].
  - unfold GlobalMonitor.NotifyStoreConditional_Locked. now rewrite Hout.
  - intros E. unfold GlobalMonitor.PrependProcessor_Locked. rewrite E.
    unfold GlobalMonitor.RemoveLinkedAddress,
      GlobalMonitor.IsProcessorInLinkedList_Locked.
    cbn [GlobalMonitor.head_ existsb GlobalMonitor.unlink].
    now rewrite Nat.eqb_refl.
Qed.

(** Core 0 completes its pair at 0x2000; the store-conditional of core 1 at
    0x1000, which it had reserved before, then fails. *)
Lemma successful_sc_ends_all_reservations_witness :
  LinkedAddress.access_state_
    (GlobalMonitor.objects
       (Cores.global_monitor
          (match Cores.sc_w 5 (-8) Cores.two_reservations 0 0x2000 with
           | Some (m3, _) => m3
           | None => Cores.init
           end)) 1) = MonitorAccess.Open /\
  (exists m4,
     Cores.sc_w 5 (-8)
       (match Cores.sc_w 5 (-8) Cores.two_reservations 0 0x2000 with
        | Some (m3, _) => m3
        | None => Cores.init
        end) 1 0x1000 = Some (m4, false)) /\
  (exists m4,
     Cores.sc_d 5 (-8)
       (match Cores.sc_w 5 (-8) Cores.two_reservations 0 0x2000 with
        | Some (m3, _) => m3
        | None => Cores.init
        end) 1 0x1000 = Some (m4, false)).
Proof.
  apply (successful_sc_ends_all_reservations 5 (-8) Cores.two_reservations
           _ 0 1 0x2000 0x1000);
    [left; reflexivity | reflexivity].
Defined.

Lemma mismatched_sc_keeps_reservation_witness :
  RO_SC_W 5 (-8) (RO_LR_W (fresh 0) 0x1000) 0x1008
    = Some (RO_LR_W (fresh 0) 0x1000, false) /\
  RO_SC_D 5 (-8) (RO_LR_W (fresh 0) 0x1000) 0x1000
    = Some (RO_LR_W (fresh 0) 0x1000, false) /\
  exists s2, RO_SC_W 5 (-8) (RO_LR_W (fresh 0) 0x1000) 0x1000 = Some (s2, true).
Proof.
  apply (mismatched_sc_keeps_reservation 5 (-8) (fresh 0) 0x1000 0x1008);
    [discriminate | reflexivity].
Defined.

Lemma RemoveLinkedAddress_unlinks_witness :
  NoDup [2; 1; 0]%nat /\
  GlobalMonitor.head_
    (GlobalMonitor.RemoveLinkedAddress
       {| GlobalMonitor.objects := fun _ => LinkedAddress.init;
          GlobalMonitor.head_ := [2; 1; 0]%nat |} 1) = [2; 0]%nat /\
  linked
    (GlobalMonitor.RemoveLinkedAddress
       {| GlobalMonitor.objects := fun _ => LinkedAddress.init;
          GlobalMonitor.head_ := [2; 1; 0]%nat |} 1) 1 = false.
Proof.
  assert (NoDup [2; 1; 0]%nat) as Hnd.
  { repeat (apply NoDup_cons_2; [rewrite list_elem_of_In; cbn; lia |]).
    apply NoDup_nil_2. }
  split; [exact Hnd |]. split; [reflexivity |].
  exact (proj1 (proj2 (proj2
    (RemoveLinkedAddress_unlinks 5 (-8)
       {| GlobalMonitor.objects := fun _ => LinkedAddress.init;
          GlobalMonitor.head_ := [2; 1; 0]%nat |} 1 0 Hnd)))).
Defined.

End MonitorFacts.

(** ** Breakpoints: hits and what a call leaves alone *)

Module BreakpointFacts.
Import Debugger.

(** [CheckBreakpoints] stops at the first entry at [pc] that is enabled, so
    it reports a hit exactly when the list has such an entry.  It keeps the
    length of the list; without a hit it keeps the list; it changes no entry
    at another location; and every regular entry stays in the list as it is,
    hit or not. *)
Theorem CheckBreakpoints_hit (l : list Breakpoint) (pc : Z) :
  snd (CheckBreakpoints l pc)
    = existsb (fun b => (location b =? pc) && enabled b) l /\
  length (fst (CheckBreakpoints l pc)) = length l /\
  (snd (CheckBreakpoints l pc) = false -> fst (CheckBreakpoints l pc) = l) /\
  (forall pc', pc' <> pc ->
     find_breakpoint (fst (CheckBreakpoints l pc)) pc' = find_breakpoint l pc') /\
  (forall b, In b l -> is_tbreak b = false -> In b (fst (CheckBreakpoints l pc))).
Proof.
  induction l as [| b0 rest (IHhit & IHlen & IHsame & IHfind & IHreg)].
  - cbn. repeat split; auto.
  - cbn [CheckBreakpoints existsb].
    destruct ((location b0 =? pc) && enabled b0) eqn:E.
    + apply andb_true_iff in E as [Eloc _]. apply Z.eqb_eq in Eloc.
      destruct (is_tbreak b0) eqn:T; cbn [fst snd orb length];
        (split; [reflexivity |]); (split; [reflexivity |]);
        (split; [discriminate |]); split; try tauto.
      * intros pc' Hne. unfold find_breakpoint. cbn [find location].
        destruct (Z.eqb_spec (location b0) pc'); [congruence | reflexivity].
      * intros b [<- | Hin] Hb; [congruence | now right].
    + destruct (CheckBreakpoints rest pc) as [rest' hit]. cbn [fst snd] in *.
      cbn [orb length]. split; [exact IHhit |]. split; [now rewrite IHlen |].
      split; [intros H; now rewrite IHsame |]. split.
      * intros pc' Hne. unfold find_breakpoint in *. cbn [find].
        destruct (location b0 =? pc'); [reflexivity | now apply IHfind].
      * intros b [<- | Hin] Hb; [now left | right; now apply IHreg].
Qed.

Lemma loop_elsewhere (l l' : list Breakpoint) (loc loc' : Z) (tbreak : bool) :
  loc' <> loc ->
  SetBreakpoint_loop l loc tbreak = Some l' ->
  find_breakpoint l' loc' = find_breakpoint l loc'.
Proof.
  intros Hne. revert l'. unfold find_breakpoint.
  induction l as [| b0 rest IH]; intros l'; cbn [SetBreakpoint_loop];
    [discriminate |].
  destruct (Z.eqb_spec (location b0) loc) as [Hloc | Hloc].
  - destruct (negb (Bool.eqb (is_tbreak b0) tbreak)); intros [= <-];
      cbn [find location];
      (destruct (Z.eqb_spec (location b0) loc'); [congruence | reflexivity]).
  - destruct (SetBreakpoint_loop rest loc tbreak) as [rest' |];
      [| discriminate].
    intros [= <-]. cbn [find].
    destruct (location b0 =? loc'); [reflexivity | now apply IH].
Qed.

Lemma find_app_other (l : list Breakpoint) (b : Breakpoint) (loc' : Z) :
  loc' <> location b ->
  find_breakpoint (l ++ [b]) loc' = find_breakpoint l loc'.
Proof.
  intros Hne. unfold find_breakpoint.
  induction l as [| b0 rest IH]; cbn [app find].
  - destruct (Z.eqb_spec (location b) loc'); [congruence | reflexivity].
  - now destruct (location b0 =? loc').
Qed.

(** [SetBreakpoint] at one location changes the entry of no other
    location. *)
Theorem SetBreakpoint_elsewhere (l : list Breakpoint) (loc loc' : Z)
    (tbreak : bool) :
  loc' <> loc ->
  find_breakpoint (SetBreakpoint l loc tbreak) loc' = find_breakpoint l loc'.
Proof.
  intros Hne. unfold SetBreakpoint.
  destruct (SetBreakpoint_loop l loc tbreak) as [l' |] eqn:E.
  - exact (loop_elsewhere l l' loc loc' tbreak Hne E).
  - now apply find_app_other.
Qed.

Lemma loop_twice (l : list Breakpoint) (loc : Z) (b : Breakpoint) :
  find_breakpoint l loc = Some b ->
  exists l',
    SetBreakpoint_loop l loc (is_tbreak b) = Some l' /\
    SetBreakpoint_loop l' loc (is_tbreak b) = Some l.
Proof.
  unfold find_breakpoint.
  induction l as [| b0 rest IH]; cbn [find SetBreakpoint_loop];
    [discriminate |].
  destruct (location b0 =? loc) eqn:Eloc.
  - intros [= ->]. rewrite Bool.eqb_reflx. cbn [negb].
    eexists. split; [reflexivity |].
    cbn [SetBreakpoint_loop location is_tbreak enabled].
    rewrite Eloc, Bool.eqb_reflx, negb_involutive. cbn [negb].
    now destruct b.
  - intros Hfind. destruct (IH Hfind) as (rest' & -> & Hback).
    eexists. split; [reflexivity |].
    cbn [SetBreakpoint_loop]. now rewrite Eloc, Hback.
Qed.

(** Toggling twice: two calls of [SetBreakpoint] at the location of an
    entry, both with the kind the entry has, restore the list. *)
Theorem SetBreakpoint_twice (l : list Breakpoint) (loc : Z) (tbreak : bool)
    (b : Breakpoint) :
  find_breakpoint l loc = Some b -> is_tbreak b = tbreak ->
  SetBreakpoint (SetBreakpoint l loc tbreak) loc tbreak = l.
Proof.
  intros Hfind <-.
  destruct (loop_twice l loc b Hfind) as (l' & Hset & Hback).
  unfold SetBreakpoint. now rewrite Hset, Hback.
Qed.

Lemma hit_of_found (l : list Breakpoint) (pc : Z) :
  List.NoDup (map location l) ->
  existsb (fun b => (location b =? pc) && enabled b) l
  = match find_breakpoint l pc with
    | Some b => enabled b
    | None => false
    end.
Proof.
  unfold find_breakpoint.
  induction l as [| b0 rest IH]; cbn [map existsb find]; [reflexivity |].
  intros Hnd. apply List.NoDup_cons_iff in Hnd as [Hout Hnd].
  destruct (Z.eqb_spec (location b0) pc) as [Hloc | Hloc]; cbn [andb orb];
    [| now apply IH].
  destruct (enabled b0); [reflexivity |]. cbn [orb].
  rewrite IH by exact Hnd.
  apply DebuggerFacts.absent_not_in in Hout. unfold find_breakpoint in Hout.
  now rewrite <- Hloc, Hout.
Qed.

(** A list that the simulator can hold has one entry for a location at
    most, and [CheckBreakpoints] reports a hit exactly when the entry at
    [pc] is enabled. *)
Theorem reachable_hit (l : list Breakpoint) (pc : Z) :
  reachable l ->
  List.NoDup (map location l) /\
  snd (CheckBreakpoints l pc)
    = match find_breakpoint l pc with
      | Some b => enabled b
      | None => false
      end.
Proof.
  intros Hreach.
  pose proof (DebuggerFacts.reachable_NoDup l Hreach) as Hnd.
  split; [exact Hnd |].
  rewrite (proj1 (CheckBreakpoints_hit l pc)). now apply hit_of_found.
Qed.

Lemma SetBreakpoint_elsewhere_witness :
  find_breakpoint
    (SetBreakpoint
       [{| location := 4096; enabled := true; is_tbreak := false |}] 8192 true)
    4096
  = find_breakpoint
      [{| location := 4096; enabled := true; is_tbreak := false |}] 4096.
Proof.
  apply (SetBreakpoint_elsewhere
           [{| location := 4096; enabled := true; is_tbreak := false |}]
           8192 4096 true).
  discriminate.
Defined.

Lemma SetBreakpoint_twice_witness :
  SetBreakpoint
    (SetBreakpoint
       [{| location := 4096; enabled := true; is_tbreak := false |};
        {| location := 8192; enabled := false; is_tbreak := true |}] 8192 true)
    8192 true
  = [{| location := 4096; enabled := true; is_tbreak := false |};
     {| location := 8192; enabled := false; is_tbreak := true |}].
Proof.
  apply (SetBreakpoint_twice _ 8192 true
           {| location := 8192; enabled := false; is_tbreak := true |});
    reflexivity.
Defined.

(** A temporary breakpoint that was hit once. *)
Lemma reachable_hit_witness :
  reachable (fst (CheckBreakpoints (SetBreakpoint [] 4096 true) 4096)) /\
  List.NoDup
    (map location (fst (CheckBreakpoints (SetBreakpoint [] 4096 true) 4096))) /\
  snd (CheckBreakpoints
         (fst (CheckBreakpoints (SetBreakpoint [] 4096 true) 4096)) 4096)
    = false.
Proof.
  assert (reachable (fst (CheckBreakpoints (SetBreakpoint [] 4096 true) 4096)))
    as Hreach by (apply reachable_check, reachable_set, reachable_clear).
  split; [exact Hreach |].
  exact (reachable_hit _ 4096 Hreach).
Defined.

End BreakpointFacts.

(** ** The element loop of the vector instructions *)

Module RvvLoopFacts.
Import Rvv.

(** A property that every pass of the loop keeps holds at its end. *)
Lemma loop_from_invariant (P : Simulator -> Prop)
    (body : Z -> Simulator -> Simulator) (n : nat) :
  forall (i0 : Z) (s : Simulator),
    (forall i t, i0 <= i < i0 + Z.of_nat n -> P t ->
       P (set_rvv_vstart (body i t) 0)) ->
    P s -> P (loop_from n i0 body s).
Proof.
  induction n as [| n IH]; intros i0 s Hstep Hs; [exact Hs |].
  cbn [loop_from]. apply IH.
  - intros i t Hi. apply Hstep. lia.
  - apply Hstep; [lia | exact Hs].
Qed.

(** The loop resets [vstart] in every pass, and so only when it makes
    one. *)
Lemma loop_from_vstart (body : Z -> Simulator -> Simulator) (n : nat)
    (i0 : Z) (s : Simulator) :
  rvv_vstart (loop_from n i0 body s)
  = match n with O => rvv_vstart s | S _ => 0 end.
Proof.
  destruct n as [| n]; [reflexivity |]. cbn [loop_from].
  apply (loop_from_invariant (fun t => rvv_vstart t = 0)); reflexivity.
Qed.

Section Engine.

Variable rvv_vlenb : Z.
Variable instr : Instruction.

#[local] Abbreviation offset := (Rvvelt_offset rvv_vlenb).

(** The two bodies keep the configuration and every byte outside the
    destination element of the pass. *)
Lemma vrgather_pass (s : Simulator) (a i : Z) (t : Simulator) :
  ~ (offset (sew_bytes (rvv_vsew s)) (rvv_vd_reg instr) i <= a
     < offset (sew_bytes (rvv_vsew s)) (rvv_vd_reg instr) i
       + Z.of_nat (sew_bytes (rvv_vsew s))) ->
  same_configuration s t /\ Vregister_ t a = Vregister_ s a ->
  same_configuration s (set_rvv_vstart (vrgather_body rvv_vlenb instr i t) 0) /\
  Vregister_ (set_rvv_vstart (vrgather_body rvv_vlenb instr i t) 0) a
  = Vregister_ s a.
Proof.
  intros Hout [(Hsew & Hvl & Hmax) Hbyte].
  rewrite RvvFacts.vrgather_body_element, Hsew.
  unfold vrgather_element, Rvvelt_write, same_configuration.
  cbn [set_rvv_vstart rvv_vsew rvv_vl rvv_vlmax Vregister_].
  repeat split; try assumption.
  unfold store_bytes.
  destruct (Z.leb_spec (offset (sew_bytes (rvv_vsew s)) (rvv_vd_reg instr) i) a);
    destruct (Z.ltb_spec a
                (offset (sew_bytes (rvv_vsew s)) (rvv_vd_reg instr) i
                 + Z.of_nat (sew_bytes (rvv_vsew s))));
    cbn [andb]; try exact Hbyte.
  exfalso. apply Hout. lia.
Qed.

Lemma vadc_pass (s : Simulator) (a i : Z) (t : Simulator) :
  ~ (offset (sew_bytes (rvv_vsew s)) (rvv_vd_reg instr) i <= a
     < offset (sew_bytes (rvv_vsew s)) (rvv_vd_reg instr) i
       + Z.of_nat (sew_bytes (rvv_vsew s))) ->
  same_configuration s t /\ Vregister_ t a = Vregister_ s a ->
  same_configuration s (set_rvv_vstart (vadc_body rvv_vlenb instr i t) 0) /\
  Vregister_ (set_rvv_vstart (vadc_body rvv_vlenb instr i t) 0) a
  = Vregister_ s a.
Proof.
  intros Hout [(Hsew & Hvl & Hmax) Hbyte].
  unfold vadc_body, same_configuration. rewrite Hsew.
  destruct (rvv_vsew s) eqn:E; cbn [sew_bytes] in Hout;
    unfold vadc_element, Rvvelt_write;
    cbn [set_rvv_vstart rvv_vsew rvv_vl rvv_vlmax Vregister_];
    (split; [now rewrite ?Hsew, ?E |]); try exact Hbyte;
    unfold store_bytes;
    match goal with
    | |- (if (?lo <=? a) && (a <? ?hi) then _ else _) = _ =>
        destruct (Z.leb_spec lo a); destruct (Z.ltb_spec a hi);
        cbn [andb]; try exact Hbyte; exfalso; apply Hout; lia
    end.
Qed.

(** [vrgather.vv] and [vadc.vv] keep the element width, the vector length
    and the maximum vector length, and leave [vstart] at zero: it is reset in
    every pass of the loop and once more after the switch.  When [vstart] is
    not below the vector length no element is processed, and resetting
    [vstart] is all the instruction does.  [vrgather.vv] always returns. *)
Theorem vector_loop_configuration (s : Simulator) :
  (forall s', RO_V_VRGATHER_VV rvv_vlenb instr s = Ok s' \/
              RO_V_VADC_VV rvv_vlenb instr s = Ok s' ->
     rvv_vsew s' = rvv_vsew s /\
     rvv_vl s' = rvv_vl s /\
     rvv_vlmax s' = rvv_vlmax s /\
     rvv_vstart s' = 0 /\
     (rvv_vl s <= rvv_vstart s -> s' = set_rvv_vstart s 0)) /\
  exists s', RO_V_VRGATHER_VV rvv_vlenb instr s = Ok s'.
Proof.
  split; [| unfold RO_V_VRGATHER_VV; eauto].
  assert (forall body,
            (forall i t, same_configuration s t ->
               same_configuration s (set_rvv_vstart (body i t) 0)) ->
            let s' := set_rvv_vstart (RVV_VI_GENERAL_LOOP body s) 0 in
            rvv_vsew s' = rvv_vsew s /\
            rvv_vl s' = rvv_vl s /\
            rvv_vlmax s' = rvv_vlmax s /\
            rvv_vstart s' = 0 /\
            (rvv_vl s <= rvv_vstart s -> s' = set_rvv_vstart s 0)) as Hloop.
  { intros body Hbody s'. subst s'. unfold RVV_VI_GENERAL_LOOP.
    destruct (loop_from_invariant (same_configuration s) body
                (Z.to_nat (rvv_vl s - rvv_vstart s)) (rvv_vstart s) s)
      as (Hsew & Hvl & Hmax).
    { intros i t _. apply Hbody. }
    { now repeat split. }
    cbn [set_rvv_vstart rvv_vsew rvv_vl rvv_vlmax rvv_vstart].
    repeat split; try assumption.
    intros Hle.
    now replace (Z.to_nat (rvv_vl s - rvv_vstart s)) with O by lia. }
  intros s' [Hrun | Hrun].
  - unfold RO_V_VRGATHER_VV in Hrun. injection Hrun as <-.
    apply Hloop. intros i t Ht.
    rewrite RvvFacts.vrgather_body_element.
    destruct Ht as (Hsew & Hvl & Hmax). now repeat split.
  - unfold RO_V_VADC_VV in Hrun.
    destruct (negb (RvvVM instr =? 0)); [| discriminate].
    destruct (rvv_vd_reg instr =? 0); [discriminate |].
    injection Hrun as <-.
    apply Hloop. intros i t (Hsew & Hvl & Hmax).
    unfold vadc_body, same_configuration.
    destruct (rvv_vsew t) eqn:E; cbn; rewrite ?E; now repeat split.
Qed.

(** Both instructions write the destination elements of [vstart, vl) and
    nothing else: a byte of the register bank that lies in none of these
    elements is left as it was.  So the elements of the destination below
    [vstart] and from [vl] on, and all other registers, are undisturbed. *)
Theorem vector_loop_frame (s : Simulator) (a : Z) :
  (forall i, rvv_vstart s <= i < rvv_vl s ->
     ~ (offset (sew_bytes (rvv_vsew s)) (rvv_vd_reg instr) i <= a
        < offset (sew_bytes (rvv_vsew s)) (rvv_vd_reg instr) i
          + Z.of_nat (sew_bytes (rvv_vsew s)))) ->
  forall s', RO_V_VRGATHER_VV rvv_vlenb instr s = Ok s' \/
             RO_V_VADC_VV rvv_vlenb instr s = Ok s' ->
    Vregister_ s' a = Vregister_ s a.
Proof.
  intros Hout s' [Hrun | Hrun].
  - unfold RO_V_VRGATHER_VV in Hrun. injection Hrun as <-.
    cbn [set_rvv_vstart Vregister_]. unfold RVV_VI_GENERAL_LOOP.
    apply (loop_from_invariant
             (fun t => same_configuration s t /\ Vregister_ t a = Vregister_ s a)).
    + intros i t Hi. apply vrgather_pass, Hout. lia.
    + now repeat split.
  - unfold RO_V_VADC_VV in Hrun.
    destruct (negb (RvvVM instr =? 0)); [| discriminate].
    destruct (rvv_vd_reg instr =? 0); [discriminate |].
    injection Hrun as <-.
    cbn [set_rvv_vstart Vregister_]. unfold RVV_VI_GENERAL_LOOP.
    apply (loop_from_invariant
             (fun t => same_configuration s t /\ Vregister_ t a = Vregister_ s a)).
    + intros i t Hi. apply vadc_pass, Hout. lia.
    + now repeat split.
Qed.

(** Where a pass of [vadc.vv] writes, it runs the case of the width. *)
Lemma vadc_body_element (i : Z) (s : Simulator) :
  rvv_vsew s = E8 \/ rvv_vsew s = E16 \/ rvv_vsew s = E32 \/ rvv_vsew s = E64 ->
  vadc_body rvv_vlenb instr i s
  = vadc_element rvv_vlenb instr (sew_bytes (rvv_vsew s)) i s /\
  (0 < sew_bytes (rvv_vsew s))%nat.
Proof.
  unfold vadc_body.
  intros [E | [E | [E | E]]]; rewrite E; cbn [sew_bytes]; split;
    (reflexivity || lia).
Qed.

(** The loop of [vadc.vv] over [n] elements from [i0] on: each of them ends
    as the lowest bit of a sum. *)
Lemma vadc_loop_bits (n : nat) :
  forall (i0 : Z) (s : Simulator),
    rvv_vsew s = E8 \/ rvv_vsew s = E16 \/ rvv_vsew s = E32 \/ rvv_vsew s = E64 ->
    forall i, i0 <= i < i0 + Z.of_nat n ->
      exists sum,
        Rvvelt rvv_vlenb (loop_from n i0 (vadc_body rvv_vlenb instr) s)
          (sew_bytes (rvv_vsew s)) (rvv_vd_reg instr) i = sum mod 2.
Proof.
  induction n as [| n IH]; intros i0 s Hsew i Hi; [lia |].
  cbn [loop_from].
  set (s1 := set_rvv_vstart (vadc_body rvv_vlenb instr i0 s) 0).
  destruct (vadc_body_element i0 s Hsew) as [Hbody Hsize].
  assert (rvv_vsew s1 = rvv_vsew s) as Hsew1.
  { unfold s1. rewrite Hbody. reflexivity. }
  destruct (Z.eq_dec i i0) as [-> | Hne].
  - destruct (RvvFacts.vadc_element_one_bit rvv_vlenb instr
                (sew_bytes (rvv_vsew s)) i0 s Hsize) as [sum Hsum].
    exists sum. rewrite <- Hsum. unfold Rvvelt. rewrite <- Hbody.
    change (Vregister_ (vadc_body rvv_vlenb instr i0 s)) with (Vregister_ s1).
    apply RvvFacts.load_bytes_ext. intros a Ha.
    apply (loop_from_invariant
             (fun t => same_configuration s1 t /\ Vregister_ t a = Vregister_ s1 a)).
    + intros j t Hj. apply vadc_pass. rewrite Hsew1.
      unfold Rvvelt_offset in *.
      assert (0 <= (j - i0 - 1) * Z.of_nat (sew_bytes (rvv_vsew s)))
        by (apply Z.mul_nonneg_nonneg; lia).
      lia.
    + now repeat split.
  - rewrite <- Hsew1. apply IH; [now rewrite Hsew1 | lia].
Qed.

(** [vadc.vv], unmasked and with a destination other than [v0], at an
    element width of 8 to 64 bits: every destination element of
    [vstart, vl) holds 0 or 1 at the end, not a sum, because [& 0x1] is
    applied to the whole of [vs1 + vs2 + (v0 >> mpos)]. *)
Theorem vadc_vv_leaves_bits (s : Simulator) (i : Z) :
  RvvVM instr <> 0 -> rvv_vd_reg instr <> 0 ->
  rvv_vsew s = E8 \/ rvv_vsew s = E16 \/ rvv_vsew s = E32 \/ rvv_vsew s = E64 ->
  rvv_vstart s <= i < rvv_vl s ->
  exists s',
    RO_V_VADC_VV rvv_vlenb instr s = Ok s' /\
    0 <= Rvvelt rvv_vlenb s' (sew_bytes (rvv_vsew s)) (rvv_vd_reg instr) i <= 1.
Proof.
  intros Hvm Hvd Hsew Hi. unfold RO_V_VADC_VV.
  apply Z.eqb_neq in Hvm, Hvd. rewrite Hvm, Hvd. cbn [negb].
  eexists. split; [reflexivity |].
  rewrite RvvFacts.Rvvelt_set_rvv_vstart. unfold RVV_VI_GENERAL_LOOP.
  destruct (vadc_loop_bits (Z.to_nat (rvv_vl s - rvv_vstart s)) (rvv_vstart s)
              s Hsew i ltac:(lia)) as [sum ->].
  pose proof (Z.mod_pos_bound sum 2 ltac:(lia)). lia.
Qed.

End Engine.

(** Byte 0 of the bank lies in the mask register, apart from [v3]. *)
Lemma vector_loop_frame_witness :
  exists s',
    RO_V_VRGATHER_VV 16 sample_instr gather_state = Ok s' /\
    Vregister_ s' 0 = Vregister_ gather_state 0.
Proof.
  eexists. split; [reflexivity |].
  apply (vector_loop_frame 16 sample_instr gather_state 0);
    [| left; reflexivity].
  intros i Hi. unfold Rvvelt_offset.
  change (rvv_vstart gather_state) with 0 in Hi.
  change (rvv_vl gather_state) with 4 in Hi.
  change (sew_bytes (rvv_vsew gather_state)) with 4%nat.
  change (rvv_vd_reg sample_instr) with 3. lia.
Defined.

Lemma vadc_vv_leaves_bits_witness :
  exists s',
    RO_V_VADC_VV 16 sample_instr sample_state = Ok s' /\
    0 <= Rvvelt 16 s' 4 3 2 <= 1.
Proof.
  apply (vadc_vv_leaves_bits 16 sample_instr sample_state 2);
    [discriminate | discriminate | right; right; left; reflexivity |].
  change (rvv_vstart sample_state) with 0.
  change (rvv_vl sample_state) with 4. lia.
Defined.

End RvvLoopFacts.

(** ** Stop codes: the disabled bit and the counter *)

Module StopFacts.
Import Stops.

Lemma land_bit (a n : Z) :
  0 <= n -> Z.land a (2 ^ n) = if Z.testbit a n then 2 ^ n else 0.
Proof.
  intros Hn. apply Z.bits_inj'. intros m Hm.
  rewrite Z.land_spec, Z.pow2_bits_eqb by exact Hn.
  destruct (Z.eqb_spec n m) as [<- | Hne].
  - destruct (Z.testbit a n); cbn [andb];
      [now rewrite Z.pow2_bits_true | now rewrite Z.bits_0].
  - rewrite andb_false_r.
    destruct (Z.testbit a n);
      [now rewrite Z.pow2_bits_false | now rewrite Z.bits_0].
Qed.

Lemma lor_bit (a n : Z) :
  0 <= n -> Z.lor a (2 ^ n) = if Z.testbit a n then a else a + 2 ^ n.
Proof.
  intros Hn. destruct (Z.testbit a n) eqn:E.
  - apply Z.bits_inj'. intros m Hm.
    rewrite Z.lor_spec, Z.pow2_bits_eqb by exact Hn.
    destruct (Z.eqb_spec n m) as [<- | Hne];
      [rewrite E; reflexivity | apply orb_false_r].
  - rewrite <- Z.lxor_lor, <- Z.add_nocarry_lxor; try reflexivity;
      rewrite land_bit, E by exact Hn; reflexivity.
Qed.

(** Bit 31 of a counter, and the rest of it, in arithmetic. *)
Lemma bit31 (c : Z) :
  0 <= c < 2 ^ 32 -> Z.testbit c 31 = (2 ^ 31 <=? c).
Proof.
  intros Hc. change (2 ^ 32) with 4294967296 in Hc.
  change (2 ^ 31) with 2147483648.
  destruct (Z.leb_spec 2147483648 c).
  - apply Z.testbit_true; [lia |]. change (2 ^ 31) with 2147483648.
    Z.div_mod_to_equations. lia.
  - apply Z.testbit_false; [lia |]. change (2 ^ 31) with 2147483648.
    Z.div_mod_to_equations. lia.
Qed.

Lemma hits_mod (c : Z) : hits c = c mod 2 ^ 31.
Proof. unfold hits. now rewrite <- (Z.land_ones c 31) by lia. Qed.

Section Codes.

Variables kMaxWatchpointCode kMaxStopCode : Z.

#[local] Abbreviation IsEnabledStop :=
  (IsEnabledStop kMaxWatchpointCode kMaxStopCode (2 ^ 31)).
#[local] Abbreviation EnableStop :=
  (EnableStop kMaxWatchpointCode kMaxStopCode (2 ^ 31)).
#[local] Abbreviation DisableStop :=
  (DisableStop kMaxWatchpointCode kMaxStopCode (2 ^ 31)).
#[local] Abbreviation IncreaseStopCounter :=
  (IncreaseStopCounter kMaxWatchpointCode kMaxStopCode (2 ^ 31)).

Lemma enabled_below (w : Z -> Z) (code : Z) :
  kMaxWatchpointCode < code <= kMaxStopCode -> 0 <= w code < 2 ^ 32 ->
  IsEnabledStop w code = Some (w code <? 2 ^ 31).
Proof.
  intros Hcode Hc. unfold Stops.IsEnabledStop.
  replace ((code <=? kMaxStopCode) && (kMaxWatchpointCode <? code)) with true
    by (symmetry; apply andb_true_intro; split;
        [apply Z.leb_le | apply Z.ltb_lt]; lia).
  rewrite land_bit, (bit31 (w code) Hc) by lia. f_equal.
  change (2 ^ 31) with 2147483648.
  destruct (Z.leb_spec 2147483648 (w code)), (Z.ltb_spec (w code) 2147483648);
    try lia; reflexivity.
Qed.

(** With bit 31 as the disabled bit and a stop code in range:
    [DisableStop] leaves the stop disabled and [EnableStop] leaves it
    enabled, and both keep the number of hits and the counters of all other
    codes.  [IncreaseStopCounter] adds one hit and keeps the stop enabled or
    disabled as it was, except at 0x7FFFFFFF hits, where it clears the
    counter and leaves the stop enabled, whatever it was before. *)
Theorem stop_counter (w : Z -> Z) (code : Z) :
  kMaxWatchpointCode < code <= kMaxStopCode ->
  0 <= w code < 2 ^ 32 ->
  (exists w',
     DisableStop w code = Some w' /\
     IsEnabledStop w' code = Some false /\
     hits (w' code) = hits (w code) /\
     forall c, c <> code -> w' c = w c) /\
  (exists w',
     EnableStop w code = Some w' /\
     IsEnabledStop w' code = Some true /\
     hits (w' code) = hits (w code) /\
     forall c, c <> code -> w' c = w c) /\
  (exists w',
     IncreaseStopCounter w code = Some w' /\
     (hits (w code) <> 0x7FFFFFFF ->
      hits (w' code) = hits (w code) + 1 /\
      IsEnabledStop w' code = IsEnabledStop w code) /\
     (hits (w code) = 0x7FFFFFFF ->
      w' code = 0 /\ IsEnabledStop w' code = Some true) /\
     forall c, c <> code -> w' c = w c).
Proof.
  intros Hcode Hc.
  pose proof (enabled_below w code Hcode Hc) as Hen.
  assert (forall v c, c <> code -> set_count w code v c = w c) as Hother.
  { intros v c Hne. unfold set_count.
    destruct (Z.eqb_spec c code); [contradiction | reflexivity]. }
  assert (forall v, set_count w code v code = v) as Hsame.
  { intros v. unfold set_count. now rewrite Z.eqb_refl. }
  assert (forall v, 0 <= v < 2 ^ 32 ->
            IsEnabledStop (set_count w code v) code = Some (v <? 2 ^ 31))
    as Hen'.
  { intros v Hv. rewrite enabled_below; rewrite ?Hsame; auto. }
  change (2 ^ 32) with 4294967296 in *.
  split; [| split].
  - unfold Stops.DisableStop. rewrite Hen.
    destruct (Z.ltb_spec (w code) (2 ^ 31)) as [Hlt | Hge].
    + eexists. split; [reflexivity |].
      rewrite lor_bit, (bit31 (w code)) by lia.
      change (2 ^ 31) with 2147483648 in *.
      destruct (Z.leb_spec 2147483648 (w code)); [lia |].
      rewrite Hen', Hsame, !hits_mod by lia.
      change (2 ^ 31) with 2147483648.
      split; [| split; [| now apply Hother]].
      * destruct (Z.ltb_spec (w code + 2147483648) 2147483648); [lia | reflexivity].
      * Z.div_mod_to_equations. lia.
    + exists w. rewrite Hen.
      destruct (Z.ltb_spec (w code) (2 ^ 31)); [lia |]. now repeat split.
  - unfold Stops.EnableStop. rewrite Hen.
    destruct (Z.ltb_spec (w code) (2 ^ 31)) as [Hlt | Hge].
    + exists w. rewrite Hen.
      destruct (Z.ltb_spec (w code) (2 ^ 31)); [| lia]. now repeat split.
    + eexists. split; [reflexivity |].
      change (Int.to_unsigned 32 (Z.lnot (2 ^ 31))) with (Z.ones 31).
      rewrite Z.land_ones by lia.
      change (2 ^ 31) with 2147483648 in *.
      assert (0 <= w code mod 2147483648 < 2147483648)
        by (apply Z.mod_pos_bound; lia).
      rewrite Hen', Hsame, !hits_mod by lia.
      change (2 ^ 31) with 2147483648.
      split; [| split; [| now apply Hother]].
      * destruct (Z.ltb_spec (w code mod 2147483648) 2147483648); [reflexivity | lia].
      * now rewrite Z.mod_mod by lia.
  - unfold Stops.IncreaseStopCounter.
    replace (code <=? kMaxStopCode) with true by (symmetry; apply Z.leb_le; lia).
    change (Int.to_unsigned 32 (Z.lnot (Int.to_signed 32 (Z.shiftl 1 31))))
      with 0x7FFFFFFF.
    fold (hits (w code)).
    destruct (Z.eqb_spec (hits (w code)) 0x7FFFFFFF) as [Hmax | Hless].
    + unfold Stops.EnableStop. rewrite Hen' by lia.
      change (0 <? 2 ^ 31) with true.
      eexists. split; [reflexivity |]. rewrite Hsame, Hen' by lia.
      split; [intros; contradiction |]. split; [now split |].
      now apply Hother.
    + eexists. split; [reflexivity |]. rewrite Hsame.
      split; [| split; [intros; contradiction | now apply Hother]].
      intros _. rewrite hits_mod in Hless. rewrite !hits_mod.
      unfold Int.to_unsigned.
      change (2 ^ 31) with 2147483648 in *.
      change (2 ^ 32) with 4294967296 in *.
      assert (0 <= (w code + 1) mod 4294967296 < 4294967296)
        by (apply Z.mod_pos_bound; lia).
      rewrite Hen', Hen by (change (2 ^ 32) with 4294967296; lia).
      change (2 ^ 31) with 2147483648.
      split; [Z.div_mod_to_equations; lia |]. f_equal.
      destruct (Z.ltb_spec ((w code + 1) mod 4294967296) 2147483648),
        (Z.ltb_spec (w code) 2147483648); try reflexivity;
        exfalso; Z.div_mod_to_equations; lia.
Qed.

End Codes.

(** Stop 100, disabled, met three times; the codes of RISC-V. *)
Lemma stop_counter_witness :
  (exists w',
     DisableStop 31 127 (2 ^ 31) (fun _ => 0x80000003) 100 = Some w' /\
     IsEnabledStop 31 127 (2 ^ 31) w' 100 = Some false /\
     hits (w' 100) = hits 0x80000003 /\
     forall c, c <> 100 -> w' c = 0x80000003) /\
  (exists w',
     EnableStop 31 127 (2 ^ 31) (fun _ => 0x80000003) 100 = Some w' /\
     IsEnabledStop 31 127 (2 ^ 31) w' 100 = Some true /\
     hits (w' 100) = hits 0x80000003 /\
     forall c, c <> 100 -> w' c = 0x80000003) /\
  (exists w',
     IncreaseStopCounter 31 127 (2 ^ 31) (fun _ => 0x80000003) 100 = Some w' /\
     (hits 0x80000003 <> 0x7FFFFFFF ->
      hits (w' 100) = hits 0x80000003 + 1 /\
      IsEnabledStop 31 127 (2 ^ 31) w' 100
        = IsEnabledStop 31 127 (2 ^ 31) (fun _ => 0x80000003) 100) /\
     (hits 0x80000003 = 0x7FFFFFFF ->
      w' 100 = 0 /\ IsEnabledStop 31 127 (2 ^ 31) w' 100 = Some true) /\
     forall c, c <> 100 -> w' c = 0x80000003).
Proof.
  apply (stop_counter 31 127 (fun _ => 0x80000003) 100); lia.
Defined.

End StopFacts.

(** ** Pushing and popping an address *)

Module StackFacts.
Import Int Registers Stack.

Lemma add_after_sub (r : Z) :
  in_signed 64 r -> to_signed 64 (to_signed 64 (r - 8) + 8) = r.
Proof.
  unfold in_signed, to_signed.
  change (2 ^ (64 - 1)) with 9223372036854775808.
  change (2 ^ 64) with 18446744073709551616.
  intros Hr. Z.div_mod_to_equations. lia.
Qed.

Section Accessors.

Variables kNumSimuRegisters pc kPCReadOffset sp : Z.

#[local] Abbreviation get_register :=
  (get_register kNumSimuRegisters pc kPCReadOffset).
#[local] Abbreviation PushAddress :=
  (PushAddress kNumSimuRegisters pc kPCReadOffset sp).
#[local] Abbreviation PopAddress :=
  (PopAddress kNumSimuRegisters pc kPCReadOffset sp).

(** What a read of the stack pointer tells about the register file. *)
Lemma sp_read (s : Registers.Simulator) (r : Z) :
  sp <> 0 -> sp <> pc -> get_register s sp = Some r ->
  valid_reg kNumSimuRegisters sp = true /\
  (Z.to_nat sp < length (registers_ s))%nat /\
  in_signed 64 r.
Proof.
  intros Hnz Hpc. unfold Registers.get_register.
  destruct (valid_reg kNumSimuRegisters sp); [| discriminate].
  destruct (Z.eqb_spec sp 0); [contradiction |].
  destruct (registers_ s !! Z.to_nat sp) as [r0 |] eqn:E; [| discriminate].
  cbn. intros [= <-]. split; [reflexivity |]. split.
  - now apply lookup_lt_Some in E.
  - apply IntFacts.to_signed_range. lia.
Qed.

Lemma sp_written (s : Registers.Simulator) (v : Z) :
  sp <> 0 -> sp <> pc ->
  valid_reg kNumSimuRegisters sp = true ->
  (Z.to_nat sp < length (registers_ s))%nat ->
  in_signed 64 v ->
  exists s',
    set_register kNumSimuRegisters pc s sp v = Some s' /\
    get_register s' sp = Some v /\
    (Z.to_nat sp < length (registers_ s'))%nat.
Proof.
  intros Hnz Hpc Hvalid Hlen Hv.
  unfold Registers.set_register, Registers.get_register. rewrite Hvalid.
  eexists. split; [reflexivity |]. cbn [registers_].
  destruct (Z.eqb_spec sp 0); [contradiction |].
  destruct (Z.eqb_spec sp pc); [contradiction |].
  rewrite list_lookup_insert_eq by exact Hlen. cbn.
  rewrite Z.add_0_r, IntFacts.to_signed_id by (lia || exact Hv).
  split; [reflexivity |]. now rewrite length_insert.
Qed.

(** [PushAddress] followed by [PopAddress] returns the address that was
    pushed and puts the stack pointer back; the push lowers the stack
    pointer by 8, modulo 2^64, returns the new stack pointer, and writes the
    eight bytes at it and no others; the pop writes no memory. *)
Theorem push_then_pop (s : Simulator) (address r : Z) :
  sp <> 0 -> sp <> pc ->
  get_register (regs s) sp = Some r ->
  0 <= address < 2 ^ 64 ->
  exists s1 s2,
    PushAddress s address = Some (s1, to_unsigned 64 (r - 8)) /\
    PopAddress s1 = Some (s2, address) /\
    get_register (regs s1) sp = Some (to_signed 64 (r - 8)) /\
    get_register (regs s2) sp = Some r /\
    (forall a, ~ (to_unsigned 64 (r - 8) <= a < to_unsigned 64 (r - 8) + 8) ->
       memory s1 a = memory s a) /\
    memory s2 = memory s1.
Proof.
  intros Hnz Hpc Hget Haddr.
  destruct (sp_read (regs s) r Hnz Hpc Hget) as (Hvalid & Hlen & Hr).
  assert (in_signed 64 (to_signed 64 (r - 8))) as Hnew
    by (apply IntFacts.to_signed_range; lia).
  destruct (sp_written (regs s) (to_signed 64 (r - 8)) Hnz Hpc Hvalid Hlen Hnew)
    as (regs1 & Hset1 & Hget1 & Hlen1).
  assert (in_signed 64 (to_signed 64 (to_signed 64 (r - 8) + 8))) as Hback
    by (apply IntFacts.to_signed_range; lia).
  destruct (sp_written regs1 _ Hnz Hpc Hvalid Hlen1 Hback)
    as (regs2 & Hset2 & Hget2 & _).
  assert (to_unsigned 64 (to_signed 64 (r - 8)) = to_unsigned 64 (r - 8))
    as Hslot.
  { unfold to_unsigned, to_signed.
    change (2 ^ (64 - 1)) with 9223372036854775808.
    change (2 ^ 64) with 18446744073709551616.
    Z.div_mod_to_equations. lia. }
  eexists {| regs := regs1; memory := _ |}, {| regs := regs2; memory := _ |}.
  split; [| split; [| split; [| split; [| split]]]].
  - unfold Stack.PushAddress. rewrite Hget, Hset1, Hslot. reflexivity.
  - unfold Stack.PopAddress. cbn [regs memory].
    rewrite Hget1, Hset2, Hslot, RvvFacts.load_store_same.
    f_equal. f_equal. apply Z.mod_small.
    change (256 ^ Z.of_nat 8) with (2 ^ 64). exact Haddr.
  - exact Hget1.
  - cbn [regs]. rewrite Hget2. f_equal. now apply add_after_sub.
  - intros a Ha. cbn [memory]. unfold Rvv.store_bytes.
    destruct (Z.leb_spec (to_unsigned 64 (r - 8)) a);
      destruct (Z.ltb_spec a (to_unsigned 64 (r - 8) + Z.of_nat 8));
      cbn [andb]; try reflexivity.
    exfalso. apply Ha. lia.
  - reflexivity.
Qed.

End Accessors.

Lemma push_then_pop_witness :
  exists s1 s2,
    PushAddress 33 32 0 2 sample 0x1234 = Some (s1, to_unsigned 64 (0x8000 - 8)) /\
    PopAddress 33 32 0 2 s1 = Some (s2, 0x1234) /\
    get_register 33 32 0 (regs s1) 2 = Some (to_signed 64 (0x8000 - 8)) /\
    get_register 33 32 0 (regs s2) 2 = Some 0x8000 /\
    (forall a, ~ (to_unsigned 64 (0x8000 - 8) <= a < to_unsigned 64 (0x8000 - 8) + 8) ->
       memory s1 a = memory sample a) /\
    memory s2 = memory s1.
Proof.
  apply (push_then_pop 33 32 0 2 sample 0x1234 0x8000);
    [discriminate | discriminate | reflexivity | lia].
Defined.

End StackFacts.
